(** * rubackyFamilyTree: the collapsible family-tree widget

    A shallow embedding of [tree_logic.js] (the zoom-enabled, origin-mix
    aware script) and of its sibling script (the variant without zoom,
    which repositions the drawing group on every redraw), together with
    the properties of the expand/collapse engine, the viewport sizer, the
    identifier allocator, the detail panel and the origin helpers.

    Conventions of the embedding.
    - A JavaScript number is a rational [Q] (every JSON weight and every
      coordinate produced by the layout is one), extended with the two
      infinities and NaN where the script starts a running minimum at
      [Infinity].
    - A JavaScript string is a [string] of code units below 256.
    - The hierarchy of d3 nodes is the store; a reference to a node is the
      path of child indices leading to it, so [nodes.forEach(d => ...)]
      is a fold of in-place updates over a list of references.
    - The external layout ([d3.tree]) is a parameter: it writes the [x]
      and [y] of every node reachable through [children] and nothing
      else.
    - Of the page, the state holds the tree, the counter of synthetic
      identifiers, the size of the svg element, the transform of its
      group, the detail panel and the content of the tree container; the
      circles, labels and paths that a redraw enters, moves and removes,
      and their transitions, are not part of it. *)

From Stdlib Require Import List Arith Bool Lia ZArith QArith Lqa.
From Stdlib Require Import Ascii String Permutation Sorted DecimalString.
Import ListNotations.

Local Open Scope string_scope.
Local Open Scope list_scope.

(* ################################################################## *)
(** * The embedding *)
(* ################################################################## *)

(* ================================================================== *)
(** ** JavaScript values *)
(* ================================================================== *)

(** The values a JSON field, a function argument or a node property can
    hold.  [JObject] stands for any object or array the scripts only test
    for truthiness or with [typeof]. *)
Inductive jsval : Type :=
| JUndefined
| JNull
| JBool (b : bool)
| JNum (q : Q)
| JStr (s : string)
| JObject.

(** ToBoolean. *)
Definition truthy (v : jsval) : bool :=
  match v with
  | JUndefined | JNull => false
  | JBool b => b
  | JNum q => negb (Qeq_bool q 0)
  | JStr s => negb (s =? "")
  | JObject => true
  end.

(** [typeof v === 'string']. *)
Definition is_string (v : jsval) : bool :=
  match v with JStr _ => true | _ => false end.

(** [a || b]. *)
Definition js_or (a b : jsval) : jsval := if truthy a then a else b.

(* ================================================================== *)
(** ** Strings: the character class, [replace] and [toLowerCase] *)
(* ================================================================== *)

Definition code (c : ascii) : N := N_of_ascii c.

Definition between (lo hi : N) (c : ascii) : bool :=
  (N.leb lo (code c) && N.leb (code c) hi)%bool.

Definition is_lower (c : ascii) : bool := between 97 122 c.
Definition is_upper (c : ascii) : bool := between 65 90 c.
Definition is_digit (c : ascii) : bool := between 48 57 c.

(** The class [[a-zA-Z0-9-_]] of the regular expression. *)
Definition in_class (c : ascii) : bool :=
  (is_lower c || is_upper c || is_digit c
   || Ascii.eqb c "-"%char || Ascii.eqb c "_"%char)%bool.

(** [String.prototype.toLowerCase] on one code unit: A-Z, and the
    upper-case letters of the Latin-1 block (C0-DE but D7). *)
Definition lower_char (c : ascii) : ascii :=
  if is_upper c then ascii_of_N (code c + 32)
  else if (between 192 222 c && negb (N.eqb (code c) 215))%bool
       then ascii_of_N (code c + 32)
       else c.

Fixpoint map_string (f : ascii -> ascii) (s : string) : string :=
  match s with
  | EmptyString => EmptyString
  | String c r => String (f c) (map_string f r)
  end.

Definition toLowerCase (s : string) : string := map_string lower_char s.

(** [s.replace(/[^a-zA-Z0-9-_]/g, '_')]. *)
Definition replace_outside_class (s : string) : string :=
  map_string (fun c => if in_class c then c else "_"%char) s.

(** [sanitizeForCss] (identical in both scripts). *)
Definition sanitizeForCss (className : jsval) : string :=
  if (negb (truthy className) || negb (is_string className))%bool then "unknown"
  else match className with
       | JStr s => toLowerCase (replace_outside_class s)
       | _ => "unknown"
       end.

(** The alphabet of a sanitized class name. *)
Definition css_safe (c : ascii) : bool :=
  (is_lower c || is_digit c || Ascii.eqb c "-"%char || Ascii.eqb c "_"%char)%bool.

Fixpoint all_chars (p : ascii -> bool) (s : string) : bool :=
  match s with
  | EmptyString => true
  | String c r => (p c && all_chars p r)%bool
  end.

(* ================================================================== *)
(** ** Numbers *)
(* ================================================================== *)

Local Open Scope Q_scope.

(** [a < b] on two finite numbers. *)
Definition Qltb (a b : Q) : bool := negb (Qle_bool b a).

(* ================================================================== *)
(** ** Objects used as mappings *)
(* ================================================================== *)

(** [origin_mix] and [details.origin_breakdown]: an object whose own keys
    are country names and whose values are weights, listed in the order in
    which [for ... in] and [Object.entries] enumerate them. *)
Definition mapping : Type := list (string * Q).

(** [m[key]]: [None] is [undefined]. *)
Fixpoint lookup (key : string) (m : mapping) : option Q :=
  match m with
  | [] => None
  | (k, v) :: r => if k =? key then Some v else lookup key r
  end.

(** [v >= bound] where [v] may be [undefined]. *)
Definition ge_bound (v : option Q) (bound : Q) : bool :=
  match v with
  | Some q => Qle_bool bound q
  | None => false
  end.

(** A key that does not lower-case to "unknown". *)
Definition named (country : string) : bool :=
  negb (toLowerCase country =? "unknown").

(* ================================================================== *)
(** ** [getDominantOrigin] *)
(* ================================================================== *)

Section DominantOrigin.

(** [String.prototype.localeCompare] is the host's collation: negative,
    zero or positive. *)
Variable localeCompare : string -> string -> Z.

(** The three locals of the loop. *)
Record scan : Type := mkScan {
  dominantCountry : string;
  maxPercentage : Q;
  hasKnownOrigin : bool
}.

Definition scan_init : scan := mkScan "unknown" 0 false.

(** One iteration of [for (const country in originMix)]. *)
Definition scan_step (st : scan) (entry : string * Q) : scan :=
  let country := fst entry in
  let percentage := snd entry in
  let countryLower := toLowerCase country in
  if (negb (countryLower =? "unknown") && Qltb (maxPercentage st) percentage)%bool
  then mkScan country percentage true
  else if (negb (countryLower =? "unknown")
           && Qeq_bool percentage (maxPercentage st))%bool
  then mkScan (if (localeCompare country (dominantCountry st) <? 0)%Z
               then country else dominantCountry st)
              (maxPercentage st) true
  else st.

Definition getDominantOrigin (originMix : option mapping) (fallbackCountry : jsval)
  : jsval :=
  match originMix with
  | Some (e :: r) =>
      let m := e :: r in
      let st := fold_left scan_step m scan_init in
      if (negb (hasKnownOrigin st) && ge_bound (lookup "Unknown" m) (1 # 2))%bool
      then JStr "unknown"
      else if ((dominantCountry st =? "unknown") && truthy fallbackCountry)%bool
      then fallbackCountry
      else JStr (dominantCountry st)
  | _ => js_or fallbackCountry (JStr "unknown")
  end.

(** What the loop has established after the entries [seen]. *)
Definition best_of (seen : mapping) (st : scan) : Prop :=
  hasKnownOrigin st = true
  /\ named (dominantCountry st) = true
  /\ (exists w, In (dominantCountry st, w) seen /\ w == maxPercentage st)
  /\ forall c w, In (c, w) seen -> named c = true ->
       w <= maxPercentage st
       /\ (w == maxPercentage st ->
           (localeCompare (dominantCountry st) c <= 0)%Z).

(** The invariant of the loop: either no entry with a name and a positive
    weight was met, and the maximum is still 0; or the loop holds the
    best of the entries met. *)
Definition scan_inv (seen : mapping) (st : scan) : Prop :=
  ((forall c w, In (c, w) seen -> named c = true -> w <= 0)
   /\ maxPercentage st == 0)
  \/ (best_of seen st /\ 0 < maxPercentage st).

End DominantOrigin.

(** A collation to run the classification with: the order of the code
    units, which agrees with every locale on the names used below. *)
Definition codeUnitCompare (a b : string) : Z :=
  match String.compare a b with
  | Lt => (-1)%Z
  | Eq => 0%Z
  | Gt => 1%Z
  end.

(* ================================================================== *)
(** ** Person records (the JSON document) *)
(* ================================================================== *)

(** [data.details]; a field that is absent is [JUndefined] (or [None] for
    the breakdown object). *)
Record details : Type := mkDetails {
  origin_breakdown : option mapping;
  origin : jsval;
  year_info : jsval;
  raw : jsval
}.

Module Person.

#[local] Unset Elimination Schemes.

Inductive t : Type := mk {
  name : jsval;
  id : jsval;
  children : option (list t);
  countryOfOrigin : jsval;
  origin_mix : option mapping;
  details : option details
}.

#[local] Set Elimination Schemes.

(** A record that only has a name. *)
Definition named (n : string) : t :=
  mk (JStr n) JUndefined None JUndefined None None.

(** A record with a name and children. *)
Definition parent (n : string) (cs : list t) : t :=
  mk (JStr n) JUndefined (Some cs) JUndefined None None.

End Person.

(* ================================================================== *)
(** ** The detail panel ([displayDetails] of tree_logic.js) *)
(* ================================================================== *)

(** [Array.prototype.sort] with the comparator [([,a],[,b]) => b-a]: the
    sort is stable, so its result is the one list that is in descending
    order of weight and keeps entries of equal weight in their original
    order; it is computed here by insertion. *)
Fixpoint insert_desc (e : string * Q) (l : mapping) : mapping :=
  match l with
  | [] => [e]
  | h :: t => if Qle_bool (snd h) (snd e) then e :: h :: t
              else h :: insert_desc e t
  end.

Fixpoint sort_desc (l : mapping) : mapping :=
  match l with
  | [] => []
  | e :: r => insert_desc e (sort_desc r)
  end.

(** The [<li>] items of the breakdown, each a country and its weight (the
    text of an item is the country, a colon and the percentage). *)
Definition breakdown_items (breakdown : mapping) : mapping :=
  filter (fun e => Qltb (1 # 1000) (snd e)) (sort_desc breakdown).

Inductive origin_html : Type :=
| NotAvailable                    (* the text "N/A" *)
| BulletList (items : mapping).   (* <ul> ... </ul> *)

Record panel : Type := mkPanel {
  detailName : jsval;
  detailOrigin : origin_html;
  detailYearInfo : jsval;
  detailRawText : jsval
}.

(** [data.details?.f]. *)
Definition details_field (f : details -> jsval) (d : option details) : jsval :=
  match d with
  | Some r => f r
  | None => JUndefined
  end.

Definition displayDetails (data : Person.t) : panel :=
  let breakdown :=
    match Person.details data with
    | Some r => origin_breakdown r
    | None => None
    end in
  let breakdownHtml :=
    match breakdown with
    | Some (e :: r) => BulletList (breakdown_items (e :: r))
    | _ => NotAvailable
    end in
  mkPanel (js_or (Person.name data) (JStr "N/A"))
          breakdownHtml
          (js_or (details_field year_info (Person.details data)) (JStr "N/A"))
          (js_or (details_field raw (Person.details data)) (Person.name data)).

(** Descending, ties allowed. *)
Definition weight_ge (a b : string * Q) : Prop := snd b <= snd a.

(** Strictly descending. *)
Definition weight_gt (a b : string * Q) : Prop := snd b < snd a.

(* ================================================================== *)
(** ** Tree nodes (the objects built by [d3.hierarchy]) *)
(* ================================================================== *)

(** A property that holds an array, [null], or was never set. *)
Inductive slot (A : Type) : Type :=
| Undefined
| Null
| Arr (l : A).

Arguments Undefined {A}.
Arguments Null {A}.
Arguments Arr {A} l.

(** Truthiness of such a property: an array, even an empty one. *)
Definition is_arr {A} (s : slot A) : bool :=
  match s with Arr _ => true | _ => false end.

Definition slot_list {A} (s : slot (list A)) : list A :=
  match s with Arr l => l | _ => [] end.

(** Two properties that a script cannot tell apart with [if (p)] and
    [p.forEach]: the same array, or both falsy. *)
Definition same_slot {A} (a b : slot A) : Prop :=
  match a, b with
  | Arr l, Arr l' => l = l'
  | Arr _, _ | _, Arr _ => False
  | _, _ => True
  end.

Module Node.

#[local] Unset Elimination Schemes.

(** [data] is the person record; [id] stays [JUndefined] until the data
    join keys the node; [children] are the visible children and
    [_children] the hidden ones; [x], [y] is the position given by the
    layout and [x0], [y0] the position of the previous pass. *)
Inductive t : Type := mk {
  data : Person.t;
  id : jsval;
  children : slot (list t);
  _children : slot (list t);
  x : option Q;
  y : option Q;
  x0 : option Q;
  y0 : option Q
}.

#[local] Set Elimination Schemes.

Definition set_id (v : jsval) (d : t) : t :=
  mk (data d) v (children d) (_children d) (x d) (y d) (x0 d) (y0 d).

Definition set_children (c : slot (list t)) (d : t) : t :=
  mk (data d) (id d) c (_children d) (x d) (y d) (x0 d) (y0 d).

Definition set__children (c : slot (list t)) (d : t) : t :=
  mk (data d) (id d) (children d) c (x d) (y d) (x0 d) (y0 d).

Definition set_xy (px py : option Q) (d : t) : t :=
  mk (data d) (id d) (children d) (_children d) px py (x0 d) (y0 d).

Definition set_x0 (v : option Q) (d : t) : t :=
  mk (data d) (id d) (children d) (_children d) (x d) (y d) v (y0 d).

Definition set_y0 (v : option Q) (d : t) : t :=
  mk (data d) (id d) (children d) (_children d) (x d) (y d) (x0 d) v.

End Node.

(** [d3.hierarchy(familyData, d => d.children)]: a node per record; a
    record without children, or with an empty list, gets no [children]
    property at all. *)
Fixpoint hierarchy (p : Person.t) : Node.t :=
  match p with
  | Person.mk _ _ (Some (c :: cs)) _ _ _ =>
      Node.mk p JUndefined (Arr (map hierarchy (c :: cs))) Undefined
              None None None None
  | _ => Node.mk p JUndefined Undefined Undefined None None None None
  end.

(* ================================================================== *)
(** ** The collapse state manager *)
(* ================================================================== *)

Fixpoint collapseRecursively (d : Node.t) : Node.t :=
  match d with
  | Node.mk dat i (Arr cs) _ px py px0 py0 =>
      (* d._children = d.children; recurse; d.children = null *)
      Node.mk dat i Null (Arr (map collapseRecursively cs)) px py px0 py0
  | Node.mk dat i c (Arr hs) px py px0 py0 =>
      (* already collapsed: only recurse *)
      Node.mk dat i c (Arr (map collapseRecursively hs)) px py px0 py0
  | _ => d
  end.

Definition toggleChildren (d : Node.t) : Node.t :=
  if is_arr (Node.children d)
  then Node.set_children Null (Node.set__children (Node.children d) d)
  else Node.set__children Null (Node.set_children (Node._children d) d).

(** The loop run once after the hierarchy is built:
    [root.children.forEach(parentOfMe =>
       parentOfMe.children.forEach(collapseRecursively))]. *)
Definition collapse_below (parentOfMe : Node.t) : Node.t :=
  match Node.children parentOfMe with
  | Arr gs => Node.set_children (Arr (map collapseRecursively gs)) parentOfMe
  | _ => parentOfMe
  end.

Definition initialCollapse (root : Node.t) : Node.t :=
  match Node.children root with
  | Arr ps => Node.set_children (Arr (map collapse_below ps)) root
  | _ => root
  end.

(* ================================================================== *)
(** ** References into the tree *)
(* ================================================================== *)

(** The child nodes of a node, shown or hidden: the list that a toggle
    moves from one property to the other. *)
Definition kids (d : Node.t) : list Node.t :=
  if is_arr (Node.children d) then slot_list (Node.children d)
  else slot_list (Node._children d).

Definition set_kids (l : list Node.t) (d : Node.t) : Node.t :=
  if is_arr (Node.children d) then Node.set_children (Arr l) d
  else if is_arr (Node._children d) then Node.set__children (Arr l) d
  else d.

(** A reference to a node: the indices to follow from the root. *)
Definition path : Type := list nat.

Fixpoint replace_nth {A} (i : nat) (a : A) (l : list A) : list A :=
  match l, i with
  | [], _ => []
  | _ :: r, O => a :: r
  | h :: r, S j => h :: replace_nth j a r
  end.

(** Reading through a reference. *)
Fixpoint get (p : path) (d : Node.t) : option Node.t :=
  match p with
  | [] => Some d
  | i :: r =>
      match nth_error (kids d) i with
      | Some c => get r c
      | None => None
      end
  end.

(** Writing through a reference: [f] is applied in place to the node that
    [p] designates. *)
Fixpoint modify (f : Node.t -> Node.t) (p : path) (d : Node.t) : Node.t :=
  match p with
  | [] => f d
  | i :: r =>
      match nth_error (kids d) i with
      | Some c => set_kids (replace_nth i (modify f r c) (kids d)) d
      | None => d
      end
  end.

(** [a.forEach(f)] over an array of references. *)
Definition forEach (f : path -> Node.t -> Node.t) (a : list path) (root : Node.t)
  : Node.t :=
  fold_left (fun t p => modify (f p) p t) a root.

(* ================================================================== *)
(** ** What the layout sees: [node.descendants()] *)
(* ================================================================== *)

(** The references [i :: p], [i+1 :: p'], ... built from the references
    found below the children number [i], [i+1], ... *)
Fixpoint prefix_from (i : nat) (below : list (list path)) : list path :=
  match below with
  | [] => []
  | ps :: r => map (cons i) ps ++ prefix_from (S i) r
  end.

(** References to the nodes [k] levels below [d] along [children]. *)
Fixpoint level (k : nat) (d : Node.t) : list path :=
  match k with
  | O => [[]]
  | S k' => prefix_from 0 (map (level k') (slot_list (Node.children d)))
  end.

(** The number of levels below [d] along [children]. *)
Fixpoint vheight (d : Node.t) : nat :=
  match d with
  | Node.mk _ _ (Arr cs) _ _ _ _ _ => S (list_max (map vheight cs))
  | _ => O
  end.

(** [descendants()] walks the tree breadth first, level after level,
    following [children] only. *)
Definition descendants (root : Node.t) : list path :=
  flat_map (fun k => level k root) (seq 0 (S (vheight root))).

(** The number of nodes reachable along [children]. *)
Fixpoint vcount (d : Node.t) : nat :=
  match d with
  | Node.mk _ _ (Arr cs) _ _ _ _ _ => S (list_sum (map vcount cs))
  | _ => 1
  end.

(* ================================================================== *)
(** ** Numbers with infinities *)
(* ================================================================== *)

(** The running minima and maxima start at [Infinity] and [-Infinity], and
    a coordinate that was never set reads as [undefined], which compares
    as NaN. *)
Inductive num : Type :=
| NaN
| NegInfinity
| Fin (q : Q)
| Infinity.

Definition toNum (v : option Q) : num :=
  match v with
  | Some q => Fin q
  | None => NaN
  end.

(** [a < b]. *)
Definition num_lt (a b : num) : bool :=
  match a, b with
  | NaN, _ | _, NaN => false
  | Infinity, _ | _, NegInfinity => false
  | NegInfinity, _ | _, Infinity => true
  | Fin p, Fin q => Qltb p q
  end.

(** [a + b]. *)
Definition num_add (a b : num) : num :=
  match a, b with
  | NaN, _ | _, NaN => NaN
  | Infinity, NegInfinity | NegInfinity, Infinity => NaN
  | Infinity, _ | _, Infinity => Infinity
  | NegInfinity, _ | _, NegInfinity => NegInfinity
  | Fin p, Fin q => Fin (p + q)
  end.

Definition num_opp (a : num) : num :=
  match a with
  | NaN => NaN
  | NegInfinity => Infinity
  | Fin q => Fin (- q)
  | Infinity => NegInfinity
  end.

(** [a - b]. *)
Definition num_sub (a b : num) : num := num_add a (num_opp b).

(** [Math.max(a, b)]. *)
Definition num_max (a b : num) : num :=
  match a, b with
  | NaN, _ | _, NaN => NaN
  | _, _ => if num_lt a b then b else a
  end.

(* ================================================================== *)
(** ** The pieces of a redraw that both scripts share *)
(* ================================================================== *)

Module Margin.
Record t : Type := mk { top : Q; right : Q; bottom : Q; left : Q }.
End Margin.

(** The transform attribute of the drawing group: a translation, and the
    scale that a zoom gesture adds. *)
Record transform : Type := mkTransform {
  translateX : num;
  translateY : num;
  scale : num
}.

Definition translate (a b : num) : transform := mkTransform a b (Fin 1).

(** The drawing: the hierarchy, the counter of synthetic identifiers, the
    size of the svg element and the transform of its group. *)
Record view : Type := mkView {
  rootNodeD3 : Node.t;
  nodeIndex : nat;
  svgWidth : num;
  svgHeight : num;
  gTransform : transform
}.

(** [treeLayout(rootNodeD3)]: every node reachable along [children] gets
    the position that the layout computes for it. *)
Definition treeLayout (position : Node.t -> path -> Q * Q) (root : Node.t) : Node.t :=
  forEach (fun p => Node.set_xy (Some (fst (position root p)))
                                (Some (snd (position root p))))
          (descendants root) root.

(** The nodes behind an array of references. *)
Definition deref (root : Node.t) (refs : list path) : list Node.t :=
  flat_map (fun p => match get p root with Some d => [d] | None => [] end) refs.

Record bounds : Type := mkBounds {
  minX_node : num;
  maxX_node : num;
  minY_node : num;
  maxY_node : num
}.

(** The body of [nodes.forEach(d => { if (d.x < minX_node) ... })]. *)
Definition bounds_step (b : bounds) (d : Node.t) : bounds :=
  let dx := toNum (Node.x d) in
  let dy := toNum (Node.y d) in
  mkBounds (if num_lt dx (minX_node b) then dx else minX_node b)
           (if num_lt (maxX_node b) dx then dx else maxX_node b)
           (if num_lt dy (minY_node b) then dy else minY_node b)
           (if num_lt (maxY_node b) dy then dy else maxY_node b).

(** The extent of the laid-out nodes, a single point at the origin when
    there is none. *)
Definition bounds_of (nodes : list Node.t) : bounds :=
  let b := fold_left bounds_step nodes
                     (mkBounds Infinity NegInfinity Infinity NegInfinity) in
  if Nat.eqb (List.length nodes) 0
  then mkBounds (Fin 0) (Fin 0) (Fin 0) (Fin 0)
  else b.

(** [`node-${n}`]. *)
Definition synthetic_id (n : nat) : string :=
  "node-" ++ NilEmpty.string_of_uint (Nat.to_uint n).

(** The key function of the data join,
    [d => d.id || (d.id = d.data.id || `node-${++nodeIndex}`)]:
    the node as it leaves the call, and the counter. *)
Definition node_key (d : Node.t) (index : nat) : Node.t * nat :=
  if truthy (Node.id d) then (d, index)
  else if truthy (Person.id (Node.data d))
       then (Node.set_id (Person.id (Node.data d)) d, index)
       else (Node.set_id (JStr (synthetic_id (S index))) d, S index).

(** [.data(nodes, key)]: the key function runs on every node of the new
    array, in order.  (It also runs on the nodes bound in the previous
    pass; those were keyed then and are left as they are.) *)
Definition key_step (st : Node.t * nat) (p : path) : Node.t * nat :=
  match get p (fst st) with
  | Some d => (modify (fun n => fst (node_key n (snd st))) p (fst st),
               snd (node_key d (snd st)))
  | None => st
  end.

Definition key_pass (nodes : list path) (root : Node.t) (index : nat)
  : Node.t * nat :=
  fold_left key_step nodes (root, index).

(** [d_node.x0 = d_node.x; d_node.y0 = d_node.y]. *)
Definition stash (d : Node.t) : Node.t :=
  Node.set_y0 (Node.y d) (Node.set_x0 (Node.x d) d).

(** What happens to a drawing: a node is toggled, the tree is redrawn
    from a source node, the user zooms or pans. *)
Inductive step : Type :=
| Toggle (d : path)
| Redraw (source : path)
| Zoom (t : transform).

(** What a page shows in the tree container: the drawing, or the one
    paragraph that [displayError] puts in its place. *)
Inductive container : Type :=
| BlankSvg
| Drawing (v : view)
| ErrorParagraph (message : string).

Record page : Type := mkPage {
  treeContainer : container;
  detailPanel : option panel
}.

(** [svgContainer.innerHTML = `<p ...>${message}</p>`]. *)
Definition displayError (message : string) (pg : page) : page :=
  mkPage (ErrorParagraph message) (detailPanel pg).

(** What [d3.json(...)] settles to: a rejection with its message, or the
    parsed document ([None] when the document is [null]). *)
Inductive fetched : Type :=
| Rejected (message : string)
| Parsed (familyData : option Person.t).

(** [!familyData || (!familyData.name && !familyData.id)]. *)
Definition bad_shape (familyData : option Person.t) : bool :=
  match familyData with
  | None => true
  | Some r => (negb (truthy (Person.name r)) && negb (truthy (Person.id r)))%bool
  end.

(* ================================================================== *)
(** ** tree_logic.js *)
(* ================================================================== *)

Module TreeLogic.

Section Script.

(** The layout [d3.tree().nodeSize([40, 250])] and the width of the
    container when the script starts. *)
Variable position : Node.t -> path -> Q * Q.
Variable clientWidth : Q.

Definition calculatedInitialWidth : Q :=
  if Qltb 600 clientWidth then clientWidth else 600.

Definition initialHeight : Q := 600.

Definition margin : Margin.t := Margin.mk 40 120 40 180.

(** The [class] attribute of an entering node. *)
Definition node_class (localeCompare : string -> string -> Z) (d : Node.t) : string :=
  let dominant := getDominantOrigin localeCompare
                    (Person.origin_mix (Node.data d))
                    (Person.countryOfOrigin (Node.data d)) in
  "node country-" ++ sanitizeForCss dominant.

(** The two tests on [source] at the top of [updateTree]. *)
Definition default_start (source : Node.t) : Node.t :=
  let s1 := match Node.x0 source with
            | None => Node.set_x0
                        (Some ((initialHeight - Margin.top margin - Margin.bottom margin) / 2))
                        source
            | Some _ => source
            end in
  match Node.y0 s1 with
  | None => Node.set_y0 (Some 0) s1
  | Some _ => s1
  end.

Definition svgWidthRequired (b : bounds) : num :=
  num_add (num_add (num_add (num_sub (maxY_node b) (minY_node b))
                            (Fin (Margin.left margin)))
                   (Fin (Margin.right margin)))
          (Fin 200).

Definition svgHeightRequired (b : bounds) : num :=
  num_add (num_add (num_add (num_sub (maxX_node b) (minX_node b))
                            (Fin (Margin.top margin)))
                   (Fin (Margin.bottom margin)))
          (Fin 100).

(** The tree after the layout ran, and the references to its nodes. *)
Definition laid_out (source : path) (v : view) : Node.t :=
  treeLayout position (modify default_start source (rootNodeD3 v)).

Definition updateTree (source : path) (v : view) : view :=
  let root := laid_out source v in
  let nodes := descendants root in
  let b := bounds_of (deref root nodes) in
  let keyed := key_pass nodes root (nodeIndex v) in
  mkView (forEach (fun _ => stash) nodes (fst keyed))
         (snd keyed)
         (num_max (Fin calculatedInitialWidth) (svgWidthRequired b))
         (num_max (Fin initialHeight) (svgHeightRequired b))
         (gTransform v).

(** The zoom handler: [g.attr("transform", event.transform)]. *)
Definition zoom (t : transform) (v : view) : view :=
  mkView (rootNodeD3 v) (nodeIndex v) (svgWidth v) (svgHeight v) t.

(** The drawing before any data arrived. *)
Definition empty_view (root : Node.t) : view :=
  mkView root 0 (Fin calculatedInitialWidth) (Fin initialHeight)
         (translate (Fin (Margin.left margin)) (Fin (Margin.top margin))).

(** [toggleChildren(d)] on the node behind a reference. *)
Definition toggle_at (d : path) (v : view) : view :=
  mkView (modify toggleChildren d (rootNodeD3 v)) (nodeIndex v)
         (svgWidth v) (svgHeight v) (gTransform v).

Definition run_step (v : view) (s : step) : view :=
  match s with
  | Toggle d => toggle_at d v
  | Redraw source => updateTree source v
  | Zoom t => zoom t v
  end.

Definition run (steps : list step) (v : view) : view :=
  fold_left run_step steps v.

(** The click handler of a node:
    [toggleChildren(d); updateTree(d); displayDetails(d.data)]. *)
Definition click (d : path) (pg : page) : page :=
  match treeContainer pg with
  | Drawing v =>
      match get d (rootNodeD3 v) with
      | Some n =>
          mkPage (Drawing (updateTree d (toggle_at d v)))
                 (Some (displayDetails (Node.data n)))
      | None => pg
      end
  | _ => pg
  end.

(** The page once [d3.json("family_tree.json")] has settled. *)
Definition load (r : fetched) : page :=
  let blank := mkPage BlankSvg None in
  match r with
  | Rejected message =>
      displayError ("Error loading data: " ++ message ++ ".") blank
  | Parsed familyData =>
      if bad_shape familyData
      then displayError "Failed to load family tree data." blank
      else
        match familyData with
        | Some record =>
            let root0 := hierarchy record in
            let root1 := Node.set_y0 (Some 0)
                           (Node.set_x0
                              (Some ((initialHeight - Margin.top margin
                                      - Margin.bottom margin) / 2)) root0) in
            mkPage (Drawing (updateTree [] (empty_view (initialCollapse root1)))) None
        | None => blank
        end
  end.

End Script.

End TreeLogic.

(* ================================================================== *)
(** ** The sibling script (the variant without zoom) *)
(* ================================================================== *)

Module Sibling.

(** Its detail panel shows the origin as one text, with a class. *)
Record panel : Type := mkPanel {
  detailName : jsval;
  detailOrigin : jsval;
  detailOriginClass : option string;
  detailYearInfo : jsval;
  detailRawText : jsval
}.

Definition displayDetails (data : Person.t) : panel :=
  mkPanel (js_or (Person.name data) (JStr "N/A"))
          (js_or (details_field origin (Person.details data)) (JStr "N/A"))
          (if truthy (Person.countryOfOrigin data)
           then Some ("country-text-" ++ sanitizeForCss (Person.countryOfOrigin data))%string
           else None)
          (js_or (details_field year_info (Person.details data)) (JStr "N/A"))
          (js_or (details_field raw (Person.details data)) (Person.name data)).

Record page : Type := mkPage {
  treeContainer : container;
  detailPanel : option panel
}.

Definition displayError (message : string) (pg : page) : page :=
  mkPage (ErrorParagraph message) (detailPanel pg).

Section Script.

(** The layout [d3.tree().nodeSize([40, 260])] and the width of the
    container when the script starts. *)
Variable position : Node.t -> path -> Q * Q.
Variable clientWidth : Q.

Definition calculatedInitialWidth : Q :=
  if Qltb 800 clientWidth then clientWidth else 800.

Definition initialHeight : Q := 700.

Definition margin : Margin.t := Margin.mk 50 150 50 200.

Definition node_class (d : Node.t) : string :=
  "node country-"
  ++ sanitizeForCss (js_or (Person.countryOfOrigin (Node.data d)) (JStr "unknown")).

Definition default_start (source : Node.t) : Node.t :=
  let s1 := match Node.x0 source with
            | None => Node.set_x0
                        (match Node.x source with
                         | Some sx => Some sx
                         | None => Some (initialHeight / 2 - Margin.top margin)
                         end)
                        source
            | Some _ => source
            end in
  match Node.y0 s1 with
  | None => Node.set_y0 (match Node.y s1 with
                         | Some sy => Some sy
                         | None => Some 0
                         end) s1
  | Some _ => s1
  end.

Definition requiredSvgWidth (b : bounds) : num :=
  num_add (num_add (num_add (num_sub (maxY_node b) (minY_node b))
                            (Fin (Margin.left margin)))
                   (Fin (Margin.right margin)))
          (Fin 250).

Definition requiredSvgHeight (b : bounds) : num :=
  num_add (num_add (num_add (num_sub (maxX_node b) (minX_node b))
                            (Fin (Margin.top margin)))
                   (Fin (Margin.bottom margin)))
          (Fin 60).

Definition laid_out (source : path) (v : view) : Node.t :=
  treeLayout position (modify default_start source (rootNodeD3 v)).

Definition updateTree (source : path) (v : view) : view :=
  let root := laid_out source v in
  let nodes := descendants root in
  let b := bounds_of (deref root nodes) in
  let keyed := key_pass nodes root (nodeIndex v) in
  mkView (forEach (fun _ => stash) nodes (fst keyed))
         (snd keyed)
         (num_max (Fin calculatedInitialWidth) (requiredSvgWidth b))
         (num_max (Fin initialHeight) (requiredSvgHeight b))
         (* g.attr("transform",
              `translate(${margin.left - minY_node}, ${margin.top - minX_node})`) *)
         (translate (num_sub (Fin (Margin.left margin)) (minY_node b))
                    (num_sub (Fin (Margin.top margin)) (minX_node b))).

Definition empty_view (root : Node.t) : view :=
  mkView root 0 (Fin calculatedInitialWidth) (Fin initialHeight)
         (translate (Fin (Margin.left margin)) (Fin (Margin.top margin))).

Definition click (d : path) (pg : page) : page :=
  match treeContainer pg with
  | Drawing v =>
      match get d (rootNodeD3 v) with
      | Some n =>
          let v1 := mkView (modify toggleChildren d (rootNodeD3 v)) (nodeIndex v)
                           (svgWidth v) (svgHeight v) (gTransform v) in
          mkPage (Drawing (updateTree d v1)) (Some (displayDetails (Node.data n)))
      | None => pg
      end
  | _ => pg
  end.

Definition load (r : fetched) : page :=
  let blank := mkPage BlankSvg None in
  match r with
  | Rejected message =>
      displayError ("Error loading data: " ++ message ++ ".") blank
  | Parsed familyData =>
      if bad_shape familyData
      then displayError
             "Failed to load family tree data. Ensure 'family_tree.json' is valid."
             blank
      else
        match familyData with
        | Some record =>
            let root0 := hierarchy record in
            let root1 := Node.set_y0 (Some 0)
                           (Node.set_x0
                              (Some (initialHeight / 2 - Margin.top margin)) root0) in
            mkPage (Drawing (updateTree [] (empty_view (initialCollapse root1)))) None
        | None => blank
        end
  end.

End Script.

End Sibling.

(* ================================================================== *)
(** ** Sample documents and a sample layout *)
(* ================================================================== *)

(** Four generations in a single line. *)
Definition four_generations : Person.t :=
  Person.parent "me"
    [Person.parent "parent"
       [Person.parent "grandparent" [Person.named "great-grandparent"]]].

(** A person with two parents. *)
Definition two_parents : Person.t :=
  Person.parent "me" [Person.named "mother"; Person.named "father"].

(** A layout in the manner of [d3.tree]: the depth axis grows by 250 per
    level, the children of a node are 40 apart and centred on it. *)
Fixpoint spread (width : Q) (p : path) (d : Node.t) : Q :=
  match p with
  | [] => 0
  | i :: r =>
      let n := List.length (slot_list (Node.children d)) in
      (inject_Z (Z.of_nat i) - inject_Z (Z.of_nat (Nat.pred n)) / 2) * width
      + match nth_error (slot_list (Node.children d)) i with
        | Some c => spread (width / 4) r c
        | None => 0
        end
  end.

Definition sample_position (root : Node.t) (p : path) : Q * Q :=
  (spread 40 p root, inject_Z (Z.of_nat (List.length p)) * 250).

(* ================================================================== *)
(** ** Notions used to state the properties *)
(* ================================================================== *)

(** A node without its subtrees: its own properties, and whether each
    child list is there. *)
Definition own (d : Node.t) : Node.t :=
  Node.mk (Node.data d) (Node.id d)
          (match Node.children d with Arr _ => Arr [] | s => s end)
          (match Node._children d with Arr _ => Arr [] | s => s end)
          (Node.x d) (Node.y d) (Node.x0 d) (Node.y0 d).

(** The node's own properties, read through a reference. *)
Definition own_at (p : path) (root : Node.t) : option Node.t :=
  option_map own (get p root).

(** Visible and hidden children are never both there. *)
Definition exclusive (d : Node.t) : Prop :=
  (is_arr (Node.children d) && is_arr (Node._children d))%bool = false.

(** The invariant of the collapse state, at every node of a tree. *)
Definition all_exclusive (root : Node.t) : Prop :=
  forall p d, get p root = Some d -> exclusive d.

(** The children of a record, none when the field is absent. *)
Definition record_children (r : Person.t) : list Person.t :=
  match Person.children r with
  | Some l => l
  | None => []
  end.

(** One step of a running minimum, and of a running maximum, over a
    coordinate that may be [undefined]. *)
Definition run_min (m : num) (v : option Q) : num :=
  if num_lt (toNum v) m then toNum v else m.

Definition run_max (m : num) (v : option Q) : num :=
  if num_lt m (toNum v) then toNum v else m.

(** What a running minimum [lo] and a running maximum [hi] know of the
    coordinates [vs] they have gone through: nothing, when none was
    defined; otherwise the least and the greatest of them. *)
Definition axis_inv (vs : list (option Q)) (lo hi : num) : Prop :=
  (Forall (fun v => v = None) vs /\ lo = Infinity /\ hi = NegInfinity)
  \/ (exists a b, lo = Fin a /\ hi = Fin b
                  /\ In (Some a) vs /\ In (Some b) vs
                  /\ forall v, In (Some v) vs -> a <= v /\ v <= b).

(** Two trees with the same references, whose nodes are related one by
    one through their own properties. *)
Definition related (R : Node.t -> Node.t -> Prop) (t t' : Node.t) : Prop :=
  forall p,
    match own_at p t with
    | Some o => exists o', own_at p t' = Some o' /\ R o o'
    | None => own_at p t' = None
    end.

(** An identifier that was assigned is kept. *)
Definition keeps_id (o o' : Node.t) : Prop :=
  truthy (Node.id o) = true -> Node.id o' = Node.id o.

(** The position given by the layout is kept. *)
Definition keeps_xy (o o' : Node.t) : Prop :=
  Node.x o' = Node.x o /\ Node.y o' = Node.y o.

(** A write that leaves both child lists alone. *)
Definition keeps_lists (f : Node.t -> Node.t) : Prop :=
  forall d, Node.children (f d) = Node.children d
            /\ Node._children (f d) = Node._children d.

Definition path_eq_dec : forall p q : path, {p = q} + {p <> q} :=
  list_eq_dec Nat.eq_dec.

Arguments path_eq_dec : simpl never.

(** The tree shown after the document [four_generations] is loaded. *)
Definition four_generations_root : Node.t :=
  initialCollapse (hierarchy four_generations).


(** The grandparent is expanded and collapsed again, with a zoom in
    between. *)
Definition expand_and_collapse : list step :=
  [Toggle [0; 0]; Redraw [0; 0]; Zoom (mkTransform (Fin 10) (Fin 20) (Fin 2));
   Toggle [0; 0]; Redraw [0; 0]]%nat.

From Stdlib Require Import DecimalNat.

(* ################################################################## *)
(** * The embedding, continued: what a redraw draws *)
(* ################################################################## *)

(* ================================================================== *)
(** ** The attributes of a drawn node *)
(* ================================================================== *)

(** [d.children || d._children]. *)
Definition has_child_list (d : Node.t) : bool :=
  (is_arr (Node.children d) || is_arr (Node._children d))%bool.

(** The [x] of the label: [d.children || d._children ? -13 : 13]. *)
Definition label_x (d : Node.t) : Z :=
  if has_child_list d then (-13)%Z else 13%Z.

(** Its [text-anchor]. *)
Definition text_anchor (d : Node.t) : string :=
  if has_child_list d then "end" else "start".

(** The fill of the circle:
    [d._children ? 'lightsteelblue' : (d.children ? '#fff' : '#aaa')]. *)
Definition circle_fill (d : Node.t) : string :=
  if is_arr (Node._children d) then "lightsteelblue"
  else if is_arr (Node.children d) then "#fff"
  else "#aaa".

(* ================================================================== *)
(** ** [diagonal] *)
(* ================================================================== *)












(* ================================================================== *)
(** ** Notions used to state the further properties *)
(* ================================================================== *)

(** Whether a reference leads to a node through visible lists only. *)
Fixpoint visible (q : path) (d : Node.t) : bool :=
  match q with
  | [] => true
  | i :: r =>
      match nth_error (slot_list (Node.children d)) i with
      | Some c => visible r c
      | None => false
      end
  end.

(** [q] without the prefix [p], when it has it. *)
Fixpoint strip_prefix (p q : path) : option path :=
  match p, q with
  | [], _ => Some q
  | i :: p', j :: q' => if Nat.eqb i j then strip_prefix p' q' else None
  | _ :: _, [] => None
  end.

(** The record at a position of the document. *)
Fixpoint record_at (p : path) (r : Person.t) : option Person.t :=
  match p with
  | [] => Some r
  | i :: q =>
      match nth_error (record_children r) i with
      | Some c => record_at q c
      | None => None
      end
  end.

(** The identifiers of a tree are those the counter gave: each is absent
    or ["node-k"] for some [k] up to the counter, and no two nodes share
    one. *)
Definition ids_from_counter (root : Node.t) (index : nat) : Prop :=
  (forall p o, own_at p root = Some o ->
     Node.id o = JUndefined
     \/ exists k, (1 <= k <= index)%nat /\ Node.id o = JStr (synthetic_id k))
  /\ (forall p q o o',
        own_at p root = Some o -> own_at q root = Some o' ->
        truthy (Node.id o) = true -> Node.id o = Node.id o' -> p = q).

(** The transform that the last zoom of a sequence leaves. *)
Definition last_zoom (steps : list step) (t : transform) : transform :=
  fold_left (fun acc s => match s with Zoom z => z | _ => acc end) steps t.

(** A document of three generations with two branches. *)
Definition two_branches : Person.t :=
  Person.parent "me"
    [Person.parent "mother" [Person.parent "grandmother" [Person.named "great"];
                             Person.named "grandfather"];
     Person.parent "father" [Person.named "nana"]].

Definition two_branches_view : view :=
  TreeLogic.updateTree sample_position 1000 []
    (TreeLogic.empty_view 1000 (initialCollapse (hierarchy two_branches))).

(** A record whose breakdown holds one negligible weight. *)
Definition negligible_record : Person.t :=
  Person.mk (JStr "x") JUndefined None JUndefined None
            (Some (mkDetails (Some [("Ireland", 1 # 2000)]) JUndefined
                             JUndefined JUndefined)).

(** The collapse state of a tree: the tree without its records,
    identifiers and positions. *)
Fixpoint shape (d : Node.t) : Node.t :=
  match d with
  | Node.mk _ _ c h _ _ _ _ =>
      Node.mk (Person.named "") JUndefined
              (match c with
               | Arr l => Arr (map shape l)
               | Null => Null
               | Undefined => Undefined
               end)
              (match h with
               | Arr l => Arr (map shape l)
               | Null => Null
               | Undefined => Undefined
               end)
              None None None None
  end.

(** The record of a node is kept. *)
Definition keeps_data (o o' : Node.t) : Prop := Node.data o' = Node.data o.

(** The record and the identifier of a node. *)
Definition record_and_id (d : Node.t) : Person.t * jsval := (Node.data d, Node.id d).

(** The record and the identifier behind a reference. *)
Definition record_and_id_at (q : path) (root : Node.t) : option (Person.t * jsval) :=
  option_map record_and_id (get q root).

(** [ids_from_counter] read through references, for a document whose
    records have no [id] of their own. *)
Definition ids_ok (root : Node.t) (index : nat) : Prop :=
  (forall q dat i, record_and_id_at q root = Some (dat, i) ->
     i = JUndefined
     \/ exists k, (1 <= k <= index)%nat /\ i = JStr (synthetic_id k))
  /\ (forall q1 q2 dat1 dat2 i,
        record_and_id_at q1 root = Some (dat1, i) ->
        record_and_id_at q2 root = Some (dat2, i) ->
        truthy i = true -> q1 = q2)
  /\ (forall q dat i, record_and_id_at q root = Some (dat, i) ->
        truthy (Person.id dat) = false).

(** Both the record and the identifier of a node are kept. *)
Definition keeps_record_and_id (o o' : Node.t) : Prop :=
  record_and_id o' = record_and_id o.

(* ################################################################## *)
(** * Properties *)
(* ################################################################## *)

(* ================================================================== *)
(** ** Facts about the string helpers *)
(* ================================================================== *)

Lemma map_string_length f s : String.length (map_string f s) = String.length s.
Proof. induction s as [|c r IH]; simpl; congruence. Qed.

Lemma map_string_get f s i :
  String.get i (map_string f s) = option_map f (String.get i s).
Proof.
  revert i; induction s as [|c r IH]; intros [|i]; simpl; auto.
Qed.

Lemma ascii_forall (P : ascii -> bool) :
  (forallb (fun n => P (ascii_of_nat n)) (seq 0 256) = true) ->
  forall c, P c = true.
Proof.
  intros H c.
  rewrite forallb_forall in H.
  rewrite <- (ascii_nat_embedding c).
  apply H, in_seq. pose proof (nat_ascii_bounded c). lia.
Qed.

Lemma sanitized_char_safe c :
  css_safe (lower_char (if in_class c then c else "_"%char)) = true.
Proof.
  revert c. apply ascii_forall. vm_compute. reflexivity.
Qed.

Lemma lower_class_char c :
  in_class c = true ->
  lower_char c = if is_upper c then ascii_of_N (code c + 32) else c.
Proof.
  revert c.
  enough (H : forall c,
             (implb (in_class c)
                (Ascii.eqb (lower_char c)
                   (if is_upper c then ascii_of_N (code c + 32) else c))) = true).
  { intros c Hc. specialize (H c). rewrite Hc in H. simpl in H.
    now apply Ascii.eqb_eq. }
  apply ascii_forall. vm_compute. reflexivity.
Qed.

(* ================================================================== *)
(** ** Properties of [sanitizeForCss] *)
(* ================================================================== *)

(** C10.  Whatever value it is given, [sanitizeForCss] returns a non-empty
    string made only of lower-case letters, digits, '-' and '_'.  A value
    that is not a string, and the empty string, give the literal
    "unknown"; a non-empty string keeps its length, and position by
    position a code unit outside [[a-zA-Z0-9-_]] becomes '_' and one
    inside the class is lower-cased. *)
Theorem sanitizeForCss_total :
  forall v : jsval,
    sanitizeForCss v <> ""
    /\ all_chars css_safe (sanitizeForCss v) = true
    /\ ((is_string v = false \/ v = JStr "") -> sanitizeForCss v = "unknown")
    /\ (forall s, v = JStr s -> s <> "" ->
          String.length (sanitizeForCss v) = String.length s
          /\ forall i c, String.get i s = Some c ->
               String.get i (sanitizeForCss v)
               = Some (if in_class c
                       then (if is_upper c then ascii_of_N (code c + 32) else c)
                       else "_"%char)).
Proof.
  intros v.
  assert (Hstr : forall s, s <> "" ->
            sanitizeForCss (JStr s) = toLowerCase (replace_outside_class s)).
  { intros s Hs. unfold sanitizeForCss. simpl.
    destruct (String.eqb_spec s ""); [contradiction | reflexivity]. }
  assert (Hns : is_string v = false -> sanitizeForCss v = "unknown").
  { intros Hv. unfold sanitizeForCss. rewrite Hv. simpl.
    now rewrite orb_true_r. }
  split; [|split; [|split]].
  - destruct v as [| |b|q|s|]; try (rewrite Hns by reflexivity; discriminate).
    destruct (string_dec s "") as [->|Hs]; [discriminate|].
    rewrite (Hstr s Hs). destruct s; [contradiction | discriminate].
  - destruct v as [| |b|q|s|]; try (rewrite Hns by reflexivity; reflexivity).
    destruct (string_dec s "") as [->|Hs]; [reflexivity|].
    rewrite (Hstr s Hs). unfold toLowerCase, replace_outside_class.
    clear. induction s as [|c r IH]; simpl; auto.
    now rewrite sanitized_char_safe, IH.
  - intros [Hv | ->]; [now apply Hns | reflexivity].
  - intros s -> Hs. rewrite (Hstr s Hs).
    unfold toLowerCase, replace_outside_class. split.
    + now rewrite !map_string_length.
    + intros i c Hget. rewrite !map_string_get, Hget. simpl. f_equal.
      destruct (in_class c) eqn:Hc.
      * now apply lower_class_char.
      * reflexivity.
Qed.

(* ================================================================== *)
(** ** Facts about numbers *)
(* ================================================================== *)

Lemma Qltb_lt a b : Qltb a b = true <-> a < b.
Proof.
  unfold Qltb. rewrite negb_true_iff. split.
  - intros H. apply Qnot_le_lt. intros Hle.
    apply Qle_bool_iff in Hle. congruence.
  - intros H. destruct (Qle_bool b a) eqn:E; auto.
    apply Qle_bool_iff in E. exfalso. eapply Qlt_not_le; eauto.
Qed.

Lemma Qltb_ge a b : Qltb a b = false <-> b <= a.
Proof.
  unfold Qltb. rewrite negb_false_iff. apply Qle_bool_iff.
Qed.

(* ================================================================== *)
(** ** The loop of [getDominantOrigin] *)
(* ================================================================== *)

Section DominantOriginFacts.

Variable localeCompare : string -> string -> Z.

Hypothesis localeCompare_trans : forall a b c,
  (localeCompare a b <= 0)%Z -> (localeCompare b c <= 0)%Z ->
  (localeCompare a c <= 0)%Z.
Hypothesis localeCompare_antisym : forall a b,
  (0 <= localeCompare a b)%Z -> (localeCompare b a <= 0)%Z.

Lemma localeCompare_refl a : (localeCompare a a <= 0)%Z.
Proof.
  destruct (Z_le_gt_dec (localeCompare a a) 0) as [H|H]; auto.
  apply localeCompare_antisym. lia.
Qed.

Lemma scan_step_inv seen st c w :
  scan_inv localeCompare seen st ->
  scan_inv localeCompare (seen ++ [(c, w)]) (scan_step localeCompare st (c, w)).
Proof.
  intros Hinv. unfold scan_step; simpl. fold (named c).
  destruct (named c) eqn:Hc; simpl.
  - destruct (Qltb (maxPercentage st) w) eqn:Hlt.
    + (* a strictly larger weight replaces the leader *)
      apply Qltb_lt in Hlt. right. unfold best_of; simpl.
      assert (Hpos : 0 < w).
      { destruct Hinv as [[_ Hz] | [_ Hp]].
        - now rewrite <- Hz.
        - exact (Qlt_trans _ _ _ Hp Hlt). }
      split; [|exact Hpos].
      split; [reflexivity|]. split; [assumption|]. split.
      * exists w; split; [apply in_or_app; right; left; reflexivity | reflexivity].
      * intros c' w' Hin Hc'.
        apply in_app_or in Hin as [Hin | [[= <- <-] | []]].
        { assert (Hle : w' <= maxPercentage st).
          { destruct Hinv as [[Hlow Hz] | [(_ & _ & _ & Hall) _]].
            - rewrite Hz. now apply (Hlow c' w').
            - now apply (Hall c' w'). }
          split.
          - apply Qlt_le_weak. exact (Qle_lt_trans _ _ _ Hle Hlt).
          - intros Heq. exfalso. rewrite Heq in Hle.
            exact (Qlt_not_le _ _ Hlt Hle). }
        { split; [apply Qle_refl | intros _; apply localeCompare_refl]. }
    + apply Qltb_ge in Hlt.
      destruct Hinv as [[Hlow Hz] | [(Hk & Hn & (w0 & Hin0 & Hw0) & Hall) Hp]].
      * (* no positive weight so far, and this one is not positive *)
        left. split.
        { intros c' w' Hin Hc'.
          apply in_app_or in Hin as [Hin | [[= <- <-] | []]].
          - now apply (Hlow c' w').
          - now rewrite <- Hz. }
        { destruct (Qeq_bool w (maxPercentage st)); simpl; exact Hz. }
      * right. destruct (Qeq_bool w (maxPercentage st)) eqn:Heq.
        { (* a tie: the smaller name under the collation stays *)
          apply Qeq_bool_iff in Heq. unfold best_of; simpl.
          split; [|exact Hp]. split; [reflexivity|].
          destruct (Z.ltb_spec (localeCompare c (dominantCountry st)) 0) as [Hcmp|Hcmp].
          - split; [assumption|]. split.
            { exists w; split; [apply in_or_app; right; left; reflexivity | assumption]. }
            intros c' w' Hin Hc'.
            apply in_app_or in Hin as [Hin | [[= <- <-] | []]].
            { destruct (Hall _ _ Hin Hc') as [Hle Htie]. split; auto.
              intros Hw'. eapply localeCompare_trans; [|apply Htie; auto]. lia. }
            { split; [now rewrite Heq; apply Qle_refl
                     | intros _; apply localeCompare_refl]. }
          - split; [assumption|]. split.
            { exists w0; split; [apply in_or_app; left; assumption | assumption]. }
            intros c' w' Hin Hc'.
            apply in_app_or in Hin as [Hin | [[= <- <-] | []]].
            { now apply Hall. }
            { split; [now rewrite Heq; apply Qle_refl |].
              intros _. now apply localeCompare_antisym. } }
        { (* a smaller weight changes nothing *)
          split; [|exact Hp]. unfold best_of.
          split; [assumption|]. split; [assumption|]. split.
          - exists w0; split; [apply in_or_app; left; assumption | assumption].
          - intros c' w' Hin Hc'.
            apply in_app_or in Hin as [Hin | [[= <- <-] | []]].
            + now apply Hall.
            + split; [assumption|]. intros Hw'. apply Qeq_bool_neq in Heq.
              contradiction. }
  - (* an entry named "unknown" is skipped *)
    destruct Hinv as [[Hlow Hz] | [(Hk & Hn & (w0 & Hin & Hw0) & Hall) Hp]].
    + left. split; [|exact Hz]. intros c' w' Hin Hc'.
      apply in_app_or in Hin as [Hin | [[= <- <-] | []]];
        [now apply (Hlow c' w') | congruence].
    + right. split; [|exact Hp]. unfold best_of.
      split; [assumption|]. split; [assumption|]. split.
      * exists w0; split; [apply in_or_app; left; assumption | assumption].
      * intros c' w' Hin' Hc'.
        apply in_app_or in Hin' as [Hin' | [[= <- <-] | []]];
          [now apply Hall | congruence].
Qed.

Lemma scan_fold_inv m : forall seen st,
  scan_inv localeCompare seen st ->
  scan_inv localeCompare (seen ++ m) (fold_left (scan_step localeCompare) m st).
Proof.
  induction m as [|[c w] r IH]; intros seen st Hinv; simpl.
  - now rewrite app_nil_r.
  - change (seen ++ (c, w) :: r) with (seen ++ [(c, w)] ++ r).
    rewrite app_assoc. apply IH. now apply scan_step_inv.
Qed.

Lemma scan_inv_nil : scan_inv localeCompare [] scan_init.
Proof. left; split; [intros c w [] | reflexivity]. Qed.

(** Entries named "unknown" leave the three locals as they are. *)
Lemma scan_unnamed m : forall st,
  (forall c w, In (c, w) m -> named c = false) ->
  fold_left (scan_step localeCompare) m st = st.
Proof.
  induction m as [|[c w] r IH]; intros st H; simpl; auto.
  rewrite IH by (intros; eapply H; right; eauto).
  unfold scan_step; simpl. fold (named c).
  now rewrite (H c w) by (left; reflexivity).
Qed.

End DominantOriginFacts.

Lemma ascii_compare_N a b : Ascii.compare a b = N.compare (code a) (code b).
Proof. reflexivity. Qed.

Lemma string_compare_not_gt_trans : forall a b c,
  String.compare a b <> Gt -> String.compare b c <> Gt -> String.compare a c <> Gt.
Proof.
  induction a as [|x a IH]; intros [|y b] [|z c]; simpl; try congruence.
  rewrite !ascii_compare_N.
  destruct (N.compare_spec (code x) (code y)) as [Exy|Lxy|Gxy];
    destruct (N.compare_spec (code y) (code z)) as [Eyz|Lyz|Gyz];
    try congruence; intros Hab Hbc.
  - rewrite Exy, Eyz, N.compare_refl. eauto.
  - rewrite Exy. apply N.compare_lt_iff in Lyz. rewrite Lyz. discriminate.
  - rewrite <- Eyz. apply N.compare_lt_iff in Lxy. rewrite Lxy. discriminate.
  - assert (H : (code x < code z)%N) by (eapply N.lt_trans; eauto).
    apply N.compare_lt_iff in H. rewrite H. discriminate.
Qed.

Lemma codeUnitCompare_trans a b c :
  (codeUnitCompare a b <= 0)%Z -> (codeUnitCompare b c <= 0)%Z ->
  (codeUnitCompare a c <= 0)%Z.
Proof.
  unfold codeUnitCompare. intros Hab Hbc.
  assert (H : String.compare a c <> Gt).
  { apply (string_compare_not_gt_trans a b c).
    - destruct (String.compare a b); simpl in Hab; try discriminate; lia.
    - destruct (String.compare b c); simpl in Hbc; try discriminate; lia. }
  destruct (String.compare a c); try lia. congruence.
Qed.

Lemma codeUnitCompare_antisym a b :
  (0 <= codeUnitCompare a b)%Z -> (codeUnitCompare b a <= 0)%Z.
Proof.
  unfold codeUnitCompare. rewrite (String.compare_antisym a b).
  destruct (String.compare b a); simpl; lia.
Qed.

(** The five samples of the specification. *)
Example dominant_sample_majority :
  getDominantOrigin codeUnitCompare
    (Some [("Ireland", 6 # 10); ("England", 4 # 10)]) JUndefined = JStr "Ireland".
Proof. reflexivity. Qed.

Example dominant_sample_tie :
  getDominantOrigin codeUnitCompare
    (Some [("Ireland", 1 # 2); ("England", 1 # 2)]) JUndefined = JStr "England".
Proof. reflexivity. Qed.

Example dominant_sample_unknown :
  getDominantOrigin codeUnitCompare (Some [("Unknown", 1)]) (JStr "USA")
  = JStr "unknown".
Proof. reflexivity. Qed.

Example dominant_sample_empty_fallback :
  getDominantOrigin codeUnitCompare (Some []) (JStr "Wales") = JStr "Wales".
Proof. reflexivity. Qed.

Example dominant_sample_empty :
  getDominantOrigin codeUnitCompare (Some []) JUndefined = JStr "unknown".
Proof. reflexivity. Qed.

(* ------------------------------------------------------------------ *)
(** *** The classification, case by case *)

Lemma named_not_unknown c : named c = true -> (c =? "unknown") = false.
Proof.
  unfold named. intros H. apply String.eqb_neq. intros ->.
  vm_compute in H. discriminate.
Qed.

(** X20.  What the script computes away from the weight zero.  The
    collation is a total preorder.
    - If the mapping has an entry whose name is not "unknown"
      (case-insensitively) and whose weight is positive, the result is the
      name of an entry of the highest weight among all the entries not
      named "unknown", and among the names of that weight one that the
      collation places first.
    - If the mapping has no entry but those named "unknown", is not empty
      and its "Unknown" key holds a weight of at least 0.5, the result is
      "unknown".
    - If it has no entry but those named "unknown" and is empty or without
      such an "Unknown" weight, or if there is no mapping, the result is
      the fallback when it is truthy and "unknown" otherwise. *)
Theorem getDominantOrigin_classifies :
  forall (localeCompare : string -> string -> Z)
         (m : mapping) (fallbackCountry : jsval),
    (forall a b c, (localeCompare a b <= 0)%Z -> (localeCompare b c <= 0)%Z ->
                   (localeCompare a c <= 0)%Z) ->
    (forall a b, (0 <= localeCompare a b)%Z -> (localeCompare b a <= 0)%Z) ->
    ((exists c w, In (c, w) m /\ named c = true /\ 0 < w) ->
       exists c w,
         getDominantOrigin localeCompare (Some m) fallbackCountry = JStr c
         /\ In (c, w) m /\ named c = true
         /\ forall c' w', In (c', w') m -> named c' = true ->
              w' <= w /\ (w' == w -> (localeCompare c c' <= 0)%Z))
    /\ ((forall c w, In (c, w) m -> named c = false) ->
        (m <> [] ->
         forall u, lookup "Unknown" m = Some u -> 1 # 2 <= u ->
           getDominantOrigin localeCompare (Some m) fallbackCountry = JStr "unknown")
        /\ ((m = [] \/ forall u, lookup "Unknown" m = Some u -> u < 1 # 2) ->
            getDominantOrigin localeCompare (Some m) fallbackCountry
            = if truthy fallbackCountry then fallbackCountry else JStr "unknown"))
    /\ getDominantOrigin localeCompare None fallbackCountry
       = if truthy fallbackCountry then fallbackCountry else JStr "unknown".
Proof.
  intros cmp m fb Htrans Hanti.
  split; [|split; [|reflexivity]].
  - intros (c0 & w0 & Hin0 & Hc0 & Hw0).
    pose proof (scan_fold_inv cmp Htrans Hanti m [] scan_init (scan_inv_nil cmp))
      as Hinv.
    simpl in Hinv.
    destruct Hinv as [[Hlow _] | [(Hk & Hn & (w & Hin & Hw) & Hall) _]].
    { exfalso. eapply Qlt_not_le; [exact Hw0|]. now apply (Hlow c0 w0). }
    exists (dominantCountry (fold_left (scan_step cmp) m scan_init)), w.
    split; [|split; [assumption|split; [assumption|]]].
    + destruct m as [|e r]; [destruct Hin0|].
      unfold getDominantOrigin. cbv zeta. rewrite Hk.
      rewrite (named_not_unknown _ Hn). reflexivity.
    + intros c' w' Hin' Hc'. destruct (Hall _ _ Hin' Hc') as [Hle Htie].
      split.
      * now rewrite Hw.
      * intros Heq. apply Htie. now rewrite Heq.
  - intros Hnone.
    pose proof (scan_unnamed cmp m scan_init Hnone) as Hst.
    split.
    + intros Hne u Hu Hge. destruct m as [|e r]; [contradiction|].
      unfold getDominantOrigin. cbv zeta. rewrite Hst, Hu. simpl.
      apply Qle_bool_iff in Hge. now rewrite Hge.
    + intros [-> | Hlow]; [reflexivity|].
      destruct m as [|e r]; [reflexivity|].
      unfold getDominantOrigin. cbv zeta. rewrite Hst.
      assert (Hb : ge_bound (lookup "Unknown" (e :: r)) (1 # 2) = false).
      { destruct (lookup "Unknown" (e :: r)) as [u|] eqn:Hu; [|reflexivity].
        simpl. specialize (Hlow u eq_refl).
        destruct (Qle_bool (1 # 2) u) eqn:E; auto.
        apply Qle_bool_iff in E. exfalso. eapply Qlt_not_le; eauto. }
      rewrite Hb. simpl. destruct (truthy fb); reflexivity.
Qed.

(** The classification run on a tie between two names, next to an entry
    of weight zero and one named "unknown". *)
Lemma getDominantOrigin_classifies_witness :
  exists c w,
    getDominantOrigin codeUnitCompare
      (Some [("Wales", 0); ("Ireland", 1 # 2); ("England", 1 # 2); ("unknown", 3 # 4)])
      (JStr "USA")
    = JStr c
    /\ In (c, w) [("Wales", 0); ("Ireland", 1 # 2); ("England", 1 # 2); ("unknown", 3 # 4)]
    /\ named c = true
    /\ forall c' w',
         In (c', w')
            [("Wales", 0); ("Ireland", 1 # 2); ("England", 1 # 2); ("unknown", 3 # 4)] ->
         named c' = true ->
         w' <= w /\ (w' == w -> (codeUnitCompare c c' <= 0)%Z).
Proof.
  apply (getDominantOrigin_classifies codeUnitCompare
           [("Wales", 0); ("Ireland", 1 # 2); ("England", 1 # 2); ("unknown", 3 # 4)]
           (JStr "USA") codeUnitCompare_trans codeUnitCompare_antisym).
  exists "Ireland", (1 # 2).
  split; [right; left; reflexivity | split; reflexivity].
Defined.

(** C2 fails on the script at the weight zero.  [maxPercentage] starts at
    0, so an entry of weight 0 is not above it and takes the branch of the
    ties, where its name is compared with the initial [dominantCountry],
    the sentinel "unknown", which is no entry of the mapping.  A mapping
    whose only entry has a name and the weight 0 therefore gives that
    name only when the collation places it before "unknown", and the
    fallback (or "unknown") otherwise, although the entry is the one of
    the highest weight among those not named "unknown": with the fallback
    "USA", the mapping of "zed" to 0 gives "USA" and the mapping of "abc"
    to 0 gives "abc". *)
Theorem getDominantOrigin_zero_weight :
  forall (localeCompare : string -> string -> Z) (fallbackCountry : jsval),
    (forall c, named c = true ->
       getDominantOrigin localeCompare (Some [(c, 0)]) fallbackCountry
       = if (localeCompare c "unknown" <? 0)%Z then JStr c
         else if truthy fallbackCountry then fallbackCountry
              else JStr "unknown")
    /\ named "zed" = true
    /\ getDominantOrigin codeUnitCompare (Some [("zed", 0)]) (JStr "USA")
       = JStr "USA"
    /\ named "abc" = true
    /\ getDominantOrigin codeUnitCompare (Some [("abc", 0)]) (JStr "USA")
       = JStr "abc".
Proof.
  intros cmp fb. split; [|repeat split; reflexivity].
  intros c Hc. unfold getDominantOrigin. cbv zeta. cbn [fold_left].
  assert (Hstep : scan_step cmp scan_init (c, 0)
                  = mkScan (if (cmp c "unknown" <? 0)%Z then c else "unknown")
                           0 true).
  { unfold scan_step, scan_init. cbn [fst snd maxPercentage dominantCountry].
    unfold named in Hc. rewrite Hc. reflexivity. }
  rewrite Hstep. cbn [hasKnownOrigin dominantCountry negb andb].
  destruct (cmp c "unknown" <? 0)%Z.
  - now rewrite (named_not_unknown _ Hc).
  - cbn. destruct (truthy fb); reflexivity.
Qed.

(* ------------------------------------------------------------------ *)
(** *** The sort *)

Lemma insert_desc_perm e l : Permutation (insert_desc e l) (e :: l).
Proof.
  induction l as [|h t IH]; simpl; auto.
  destruct (Qle_bool (snd h) (snd e)); auto.
  rewrite IH. apply perm_swap.
Qed.

Lemma sort_desc_perm l : Permutation (sort_desc l) l.
Proof.
  induction l as [|e r IH]; simpl; auto.
  rewrite insert_desc_perm. now constructor.
Qed.

Lemma insert_desc_sorted e l :
  StronglySorted weight_ge l -> StronglySorted weight_ge (insert_desc e l).
Proof.
  induction 1 as [|h t Hs IH Hall]; simpl.
  - repeat constructor.
  - destruct (Qle_bool (snd h) (snd e)) eqn:E.
    + apply Qle_bool_iff in E. constructor.
      * now constructor.
      * constructor; [exact E|].
        rewrite Forall_forall in *. intros z Hz. unfold weight_ge in *.
        eapply Qle_trans; [apply (Hall z Hz) | exact E].
    + constructor; auto.
      assert (Hlt : snd e < snd h).
      { apply Qnot_le_lt. intros Hle. apply Qle_bool_iff in Hle. congruence. }
      rewrite Forall_forall in *. intros z Hz.
      apply (Permutation_in _ (insert_desc_perm e t)) in Hz.
      destruct Hz as [<- | Hz]; [now apply Qlt_le_weak | now apply Hall].
Qed.

Lemma sort_desc_sorted l : StronglySorted weight_ge (sort_desc l).
Proof.
  induction l as [|e r IH]; simpl; [constructor | now apply insert_desc_sorted].
Qed.

Lemma filter_sorted {A} (R : A -> A -> Prop) (p : A -> bool) l :
  StronglySorted R l -> StronglySorted R (filter p l).
Proof.
  induction 1 as [|h t Hs IH Hall]; simpl; [constructor|].
  destruct (p h); auto. constructor; auto.
  rewrite Forall_forall in *. intros z Hz.
  apply filter_In in Hz. now apply Hall.
Qed.

Lemma filter_perm {A} (p : A -> bool) l l' :
  Permutation l l' -> Permutation (filter p l) (filter p l').
Proof.
  induction 1; simpl; auto.
  - destruct (p x); auto.
  - destruct (p x), (p y); auto. apply perm_swap.
  - etransitivity; eauto.
Qed.

(** C7, as the script computes it.  The items of the breakdown list are
    exactly the entries of the breakdown whose weight exceeds 0.001 (each
    as often as it occurs), so every entry of weight at most 0.001 is
    omitted; and they come in descending order of weight, an entry
    never followed by a heavier one. *)
Theorem breakdown_items_descending :
  forall breakdown : mapping,
    Permutation (breakdown_items breakdown)
                (filter (fun e => Qltb (1 # 1000) (snd e)) breakdown)
    /\ (forall e, In e (breakdown_items breakdown) ->
                  In e breakdown /\ 1 # 1000 < snd e)
    /\ (forall e, In e breakdown -> snd e <= 1 # 1000 ->
                  ~ In e (breakdown_items breakdown))
    /\ StronglySorted weight_ge (breakdown_items breakdown)
    /\ forall data r, Person.details data = Some r ->
         origin_breakdown r = Some breakdown -> breakdown <> [] ->
         detailOrigin (displayDetails data) = BulletList (breakdown_items breakdown).
Proof.
  intros b. unfold breakdown_items.
  split; [|split; [|split; [|split]]].
  - apply filter_perm, sort_desc_perm.
  - intros e He. apply filter_In in He as [He Hw]. split.
    + eapply Permutation_in; [apply sort_desc_perm | exact He].
    + now apply Qltb_lt.
  - intros e _ Hle He. apply filter_In in He as [_ Hw].
    apply Qltb_lt in Hw. eapply Qlt_not_le; eauto.
  - apply filter_sorted, sort_desc_sorted.
  - intros data r Hd Hb Hne. unfold displayDetails. rewrite Hd, Hb.
    destruct b; [contradiction | reflexivity].
Qed.

(** Two entries of equal weight are both listed, one after the other: the
    list is not in strictly descending order. *)
Lemma breakdown_items_tie :
  breakdown_items [("Ireland", 1 # 2); ("England", 1 # 2)]
  = [("Ireland", 1 # 2); ("England", 1 # 2)]
  /\ ~ StronglySorted weight_gt
         (breakdown_items [("Ireland", 1 # 2); ("England", 1 # 2)]).
Proof.
  split; [reflexivity|].
  intros H. change (breakdown_items [("Ireland", 1 # 2); ("England", 1 # 2)])
    with [("Ireland", 1 # 2); ("England", 1 # 2)] in H.
  apply StronglySorted_inv in H as [_ H].
  apply Forall_inv in H. unfold weight_gt in H; simpl in H.
  revert H. apply Qlt_irrefl.
Qed.


(* ================================================================== *)
(** ** Nodes and references *)
(* ================================================================== *)

Lemma kids_set_kids l d : kids d <> [] -> kids (set_kids l d) = l.
Proof.
  unfold kids, set_kids. destruct d as [dat i c h px py px0 py0]; simpl.
  destruct c; simpl; auto; destruct h; simpl; auto; congruence.
Qed.

Lemma own_set_kids l d : own (set_kids l d) = own d.
Proof.
  unfold set_kids. destruct d as [dat i c h px py px0 py0]; simpl.
  destruct c; simpl; auto; destruct h; simpl; auto.
Qed.

Lemma children_set_kids l d :
  is_arr (Node.children d) = false ->
  Node.children (set_kids l d) = Node.children d.
Proof.
  unfold set_kids. intros H. rewrite H.
  destruct (is_arr (Node._children d)); reflexivity.
Qed.

Lemma kids_toggleChildren d : kids (toggleChildren d) = kids d.
Proof.
  unfold kids, toggleChildren. destruct d as [dat i c h px py px0 py0]; simpl.
  destruct c; simpl; auto; destruct h; simpl; auto.
Qed.

Lemma nth_error_replace_nth_same {A} (l : list A) i a c :
  nth_error l i = Some c -> nth_error (replace_nth i a l) i = Some a.
Proof.
  revert i; induction l as [|h r IH]; intros [|i]; simpl; try discriminate; auto.
Qed.

Lemma nth_error_replace_nth_other {A} (l : list A) i j a :
  i <> j -> nth_error (replace_nth i a l) j = nth_error l j.
Proof.
  revert i j; induction l as [|h r IH]; intros [|i] [|j] Hij; simpl; auto.
  congruence.
Qed.

Lemma map_replace_nth {A B} (g : A -> B) (l : list A) i a c :
  nth_error l i = Some c -> g a = g c ->
  map g (replace_nth i a l) = map g l.
Proof.
  revert i; induction l as [|h r IH]; intros [|i]; simpl; try discriminate.
  - intros [= ->] ->. reflexivity.
  - intros Hn Hg. f_equal. eauto.
Qed.

Lemma get_app p q d :
  get (p ++ q) d = match get p d with Some n => get q n | None => None end.
Proof.
  revert d; induction p as [|i r IH]; intros d; simpl; auto.
  destruct (nth_error (kids d) i); auto.
Qed.

(** Reading a reference after a write through a reference: the node
    written shows the write, every other node keeps its own properties. *)
Lemma own_at_modify f :
  (forall d, kids (f d) = kids d) ->
  forall q p root,
    own_at p (modify f q root)
    = option_map (fun d => own (if path_eq_dec p q then f d else d)) (get p root).
Proof.
  intros Hf. unfold own_at.
  induction q as [|i r IH]; intros p root; simpl.
  - destruct p as [|j p']; simpl.
    + destruct (path_eq_dec [] []); [reflexivity | congruence].
    + rewrite Hf. destruct (nth_error (kids root) j) as [c|]; [|reflexivity].
      destruct (get p' c); simpl; [|reflexivity].
      destruct (path_eq_dec (j :: p') []); [discriminate | reflexivity].
  - destruct (nth_error (kids root) i) as [c|] eqn:Hc.
    + assert (Hne : kids root <> []).
      { intros E. rewrite E in Hc. destruct i; discriminate. }
      destruct p as [|j p']; simpl.
      * rewrite own_set_kids.
        destruct (path_eq_dec [] (i :: r)); [discriminate | reflexivity].
      * rewrite (kids_set_kids _ _ Hne).
        destruct (Nat.eq_dec i j) as [<-|Hij].
        { rewrite (nth_error_replace_nth_same _ _ _ _ Hc), Hc, IH.
          destruct (get p' c); simpl; [|reflexivity].
          destruct (path_eq_dec p' r), (path_eq_dec (i :: p') (i :: r));
            try reflexivity; congruence. }
        { rewrite (nth_error_replace_nth_other _ _ _ _ Hij).
          destruct (nth_error (kids root) j) as [c'|]; [|reflexivity].
          destruct (get p' c'); simpl; [|reflexivity].
          destruct (path_eq_dec (j :: p') (i :: r)); try reflexivity; congruence. }
    + destruct (get p root) as [d|] eqn:Hp; simpl; [|reflexivity].
      destruct (path_eq_dec p (i :: r)) as [->|]; [|reflexivity].
      simpl in Hp. rewrite Hc in Hp. discriminate.
Qed.

Lemma own_at_modify_other f q p root :
  (forall d, kids (f d) = kids d) ->
  p <> q -> own_at p (modify f q root) = own_at p root.
Proof.
  intros Hf Hpq. rewrite (own_at_modify f Hf). unfold own_at.
  destruct (get p root); simpl; [|reflexivity].
  destruct (path_eq_dec p q); [contradiction | reflexivity].
Qed.

(** The node written is the image of the node that was there. *)
Lemma get_modify_same f p root :
  get p (modify f p root) = option_map f (get p root).
Proof.
  revert root; induction p as [|i r IH]; intros root; simpl; auto.
  destruct (nth_error (kids root) i) as [c|] eqn:Hc.
  - assert (Hne : kids root <> []).
    { intros E. rewrite E in Hc. destruct i; discriminate. }
    simpl. rewrite (kids_set_kids _ _ Hne).
    rewrite (nth_error_replace_nth_same _ _ _ _ Hc). apply IH.
  - simpl. now rewrite Hc.
Qed.

(** What lies below the node written is what lies below its image. *)
Lemma get_modify_below f p q root :
  get (p ++ q) (modify f p root)
  = match get p root with Some d => get q (f d) | None => None end.
Proof.
  rewrite get_app, get_modify_same. destruct (get p root); reflexivity.
Qed.

Lemma get_same_kids a b q :
  kids a = kids b -> q <> [] -> get q a = get q b.
Proof.
  intros Hk Hq. destruct q as [|i r]; [contradiction|]. simpl. now rewrite Hk.
Qed.

(* ================================================================== *)
(** ** [toggleChildren] *)
(* ================================================================== *)

Lemma toggleChildren_exclusive d : exclusive (toggleChildren d).
Proof.
  unfold exclusive, toggleChildren.
  destruct d as [dat i c h px py px0 py0]; simpl.
  destruct c; simpl; auto; destruct h; reflexivity.
Qed.

Lemma toggleChildren_twice_node d :
  exclusive d ->
  same_slot (Node.children (toggleChildren (toggleChildren d))) (Node.children d)
  /\ same_slot (Node._children (toggleChildren (toggleChildren d)))
               (Node._children d).
Proof.
  unfold exclusive, toggleChildren.
  destruct d as [dat i c h px py px0 py0]; simpl.
  destruct c; simpl; destruct h; simpl; intros H; auto; discriminate.
Qed.

Lemma toggleChildren_own_fields d :
  Node.data (toggleChildren d) = Node.data d
  /\ Node.id (toggleChildren d) = Node.id d
  /\ Node.x (toggleChildren d) = Node.x d
  /\ Node.y (toggleChildren d) = Node.y d
  /\ Node.x0 (toggleChildren d) = Node.x0 d
  /\ Node.y0 (toggleChildren d) = Node.y0 d.
Proof.
  unfold toggleChildren. destruct (is_arr (Node.children d)); simpl; auto 6.
Qed.

(** C3.  Toggling a node of the tree twice gives back its split: its
    visible list and its hidden list are the lists it had (a list that
    was absent is absent again), its other properties are untouched,
    every node below it is exactly the node that was there, with its own
    collapse state, and every other node of the tree keeps its own
    properties. *)
Theorem toggleChildren_twice :
  forall (root : Node.t) (p : path) (d : Node.t),
    get p root = Some d ->
    exclusive d ->
    exists d2,
      get p (modify toggleChildren p (modify toggleChildren p root)) = Some d2
      /\ same_slot (Node.children d2) (Node.children d)
      /\ same_slot (Node._children d2) (Node._children d)
      /\ (Node.data d2 = Node.data d /\ Node.id d2 = Node.id d
          /\ Node.x d2 = Node.x d /\ Node.y d2 = Node.y d
          /\ Node.x0 d2 = Node.x0 d /\ Node.y0 d2 = Node.y0 d)
      /\ (forall q, q <> [] ->
            get (p ++ q) (modify toggleChildren p (modify toggleChildren p root))
            = get (p ++ q) root)
      /\ (forall q, q <> p ->
            own_at q (modify toggleChildren p (modify toggleChildren p root))
            = own_at q root).
Proof.
  intros root p d Hd Hex.
  exists (toggleChildren (toggleChildren d)).
  destruct (toggleChildren_twice_node d Hex) as [Hc Hh].
  split; [|split; [exact Hc|split; [exact Hh|split; [|split]]]].
  - now rewrite !get_modify_same, Hd.
  - destruct (toggleChildren_own_fields (toggleChildren d))
      as (-> & -> & -> & -> & -> & ->).
    apply toggleChildren_own_fields.
  - intros q Hq. rewrite get_modify_below, get_modify_same, Hd. simpl.
    rewrite get_app, Hd.
    apply get_same_kids; [|exact Hq]. now rewrite !kids_toggleChildren.
  - intros q Hq.
    now rewrite !(own_at_modify_other _ _ _ _ kids_toggleChildren Hq).
Qed.

(** The grandparent of the four-generation document, collapsed at load,
    toggled twice. *)
Lemma toggleChildren_twice_witness :
  exists d2,
    get [0; 0]%nat (modify toggleChildren [0; 0]%nat
                      (modify toggleChildren [0; 0]%nat four_generations_root))
    = Some d2
    /\ same_slot (Node.children d2) (Null : slot (list Node.t))
    /\ same_slot (Node._children d2)
         (Arr [collapseRecursively (hierarchy (Person.named "great-grandparent"))]).
Proof.
  destruct (toggleChildren_twice four_generations_root [0; 0]%nat
              (collapseRecursively
                 (hierarchy (Person.parent "grandparent"
                               [Person.named "great-grandparent"])))
              eq_refl eq_refl)
    as (d2 & Hget & Hc & Hh & _).
  exists d2. split; [exact Hget | split; [exact Hc | exact Hh]].
Defined.

(* ================================================================== *)
(** ** The levels of the visible tree *)
(* ================================================================== *)

Lemma length_prefix_from i below :
  List.length (prefix_from i below) = list_sum (map (@List.length path) below).
Proof.
  revert i; induction below as [|ps r IH]; intros i; simpl; auto.
  now rewrite length_app, length_map, IH.
Qed.

Lemma in_prefix_from p below : forall i,
  In p (prefix_from i below) <->
  exists j ps r, nth_error below j = Some ps /\ In r ps /\ p = (i + j)%nat :: r.
Proof.
  induction below as [|ps rest IH]; intros i; simpl.
  - split; [intros [] | intros (j & ps & r & H & _)]. destruct j; discriminate.
  - rewrite in_app_iff, in_map_iff, IH. split.
    + intros [(r & <- & Hr) | (j & ps' & r & Hn & Hr & ->)].
      * exists 0%nat, ps, r. rewrite Nat.add_0_r. auto.
      * exists (S j), ps', r. rewrite Nat.add_succ_r. auto.
    + intros ([|j] & ps' & r & Hn & Hr & ->); simpl in Hn.
      * injection Hn as <-. left. exists r. rewrite Nat.add_0_r. auto.
      * right. exists j, ps', r. rewrite Nat.add_succ_r. auto.
Qed.

Lemma vheight_eq d :
  vheight d = match Node.children d with
              | Arr cs => S (list_max (map vheight cs))
              | _ => O
              end.
Proof. destruct d as [dat i c h px py px0 py0]; destruct c; reflexivity. Qed.

Lemma vcount_eq d :
  vcount d = S (list_sum (map vcount (slot_list (Node.children d)))).
Proof. destruct d as [dat i c h px py px0 py0]; destruct c; reflexivity. Qed.

Lemma length_level_S k d :
  List.length (level (S k) d)
  = list_sum (map (fun c => List.length (level k c)) (slot_list (Node.children d))).
Proof. simpl. now rewrite length_prefix_from, map_map. Qed.

Lemma list_sum_map_zero {A} (l : list A) : list_sum (map (fun _ => 0%nat) l) = 0%nat.
Proof. induction l; simpl; auto. Qed.

Lemma list_sum_map_add {A} (g h : A -> nat) l :
  list_sum (map (fun a => (g a + h a)%nat) l)
  = (list_sum (map g l) + list_sum (map h l))%nat.
Proof. induction l as [|a r IH]; simpl; auto. rewrite IH. lia. Qed.

Lemma list_sum_exchange {A B} (g : A -> B -> nat) ks cs :
  list_sum (map (fun k => list_sum (map (g k) cs)) ks)
  = list_sum (map (fun c => list_sum (map (fun k => g k c) ks)) cs).
Proof.
  induction ks as [|k r IH]; simpl.
  - now rewrite list_sum_map_zero.
  - now rewrite IH, <- list_sum_map_add.
Qed.

Lemma vheight_child d c :
  In c (slot_list (Node.children d)) -> (vheight c < vheight d)%nat.
Proof.
  rewrite (vheight_eq d). destruct (Node.children d) as [| |cs]; simpl; try tauto.
  intros Hin.
  assert (H : Forall (fun k => (k <= list_max (map vheight cs))%nat) (map vheight cs))
    by now apply list_max_le.
  rewrite Forall_forall in H. specialize (H (vheight c) (in_map _ _ _ Hin)). lia.
Qed.

(** Summed over enough levels, the levels hold every visible node once. *)
Lemma levels_count : forall h d,
  (vheight d < h)%nat ->
  list_sum (map (fun k => List.length (level k d)) (seq 0 h)) = vcount d.
Proof.
  induction h as [|h IH]; intros d Hh; [lia|].
  simpl. rewrite <- seq_shift, map_map.
  rewrite (map_ext _ _ (fun k => length_level_S k d)).
  rewrite (list_sum_exchange (fun k c => List.length (level k c))).
  rewrite vcount_eq. f_equal. f_equal.
  apply map_ext_in. intros c Hc. apply IH.
  pose proof (vheight_child d c Hc). lia.
Qed.

Lemma length_descendants root : List.length (descendants root) = vcount root.
Proof.
  unfold descendants. rewrite length_flat_map. apply levels_count. lia.
Qed.

(** A reference found at some level designates a node, through visible
    lists only. *)
Lemma level_get : forall k p d,
  In p (level k d) -> List.length p = k /\ exists n, get p d = Some n.
Proof.
  induction k as [|k IH]; intros p d; simpl.
  - intros [<- | []]. split; [reflexivity | exists d; reflexivity].
  - rewrite in_prefix_from. intros (j & ps & r & Hn & Hr & ->). simpl.
    rewrite nth_error_map in Hn.
    destruct (nth_error (slot_list (Node.children d)) j) as [c|] eqn:Hc;
      [|discriminate].
    injection Hn as <-. destruct (IH r c Hr) as [Hlen Hget].
    split; [congruence|].
    assert (Hk : kids d = slot_list (Node.children d)).
    { unfold kids. destruct (Node.children d); simpl in *; auto;
        destruct j; discriminate. }
    now rewrite Hk, Hc.
Qed.

Lemma in_descendants p root :
  In p (descendants root) <-> In p (level (List.length p) root).
Proof.
  unfold descendants. rewrite in_flat_map. split.
  - intros (k & _ & Hp). destruct (level_get k p root Hp) as [<- _]. exact Hp.
  - intros Hp. exists (List.length p). split; [|exact Hp].
    apply in_seq. split; [lia|]. simpl.
    enough (H : forall k q d, In q (level k d) -> (k <= vheight d)%nat).
    { specialize (H _ _ _ Hp). lia. }
    clear. induction k as [|k IH]; intros q d; [lia|]. simpl.
    rewrite in_prefix_from. intros (j & ps & r & Hn & Hr & _).
    rewrite nth_error_map in Hn.
    destruct (nth_error (slot_list (Node.children d)) j) as [c|] eqn:Hc;
      [|discriminate].
    injection Hn as <-. specialize (IH _ _ Hr).
    pose proof (vheight_child d c (nth_error_In _ _ Hc)). lia.
Qed.

Lemma descendants_get p root :
  In p (descendants root) -> exists n, get p root = Some n.
Proof.
  intros H. apply in_descendants in H. now apply level_get in H.
Qed.

Lemma root_in_descendants root : In [] (descendants root).
Proof. apply in_descendants. simpl. auto. Qed.

Lemma keeps_lists_kids f : keeps_lists f -> forall d, kids (f d) = kids d.
Proof. intros H d. unfold kids. destruct (H d) as [-> ->]. reflexivity. Qed.

Lemma children_modify_cases f i r root c :
  nth_error (kids root) i = Some c ->
  slot_list (Node.children (set_kids (replace_nth i (modify f r c) (kids root)) root))
  = slot_list (Node.children root)
  \/ (slot_list (Node.children root) = kids root
      /\ slot_list (Node.children
                      (set_kids (replace_nth i (modify f r c) (kids root)) root))
         = replace_nth i (modify f r c) (kids root)).
Proof.
  intros Hc. unfold kids, set_kids in *.
  destruct root as [dat j cs hs px py px0 py0]; simpl in *.
  destruct cs; simpl in *; auto; destruct hs; simpl in *; auto.
Qed.

Lemma level_modify f : keeps_lists f ->
  forall q k root, level k (modify f q root) = level k root.
Proof.
  intros Hf. induction q as [|i r IH]; intros k root; simpl.
  - destruct k; simpl; auto. now destruct (Hf root) as [-> _].
  - destruct (nth_error (kids root) i) as [c|] eqn:Hc; [|reflexivity].
    destruct k; simpl; auto.
    destruct (children_modify_cases f i r root c Hc) as [-> | [Hk ->]]; auto.
    rewrite Hk. f_equal. eapply map_replace_nth; eauto.
Qed.

Lemma vheight_modify f : keeps_lists f ->
  forall q root, vheight (modify f q root) = vheight root.
Proof.
  intros Hf. induction q as [|i r IH]; intros root; simpl.
  - rewrite !vheight_eq. now destruct (Hf root) as [-> _].
  - destruct (nth_error (kids root) i) as [c|] eqn:Hc; [|reflexivity].
    rewrite (vheight_eq root), vheight_eq.
    unfold kids, set_kids in *.
    destruct root as [dat j cs hs px py px0 py0]; simpl in *.
    destruct cs as [| |cs]; simpl in *.
    + destruct hs; reflexivity.
    + destruct hs; reflexivity.
    + f_equal. f_equal. eapply map_replace_nth; eauto.
Qed.

Lemma descendants_modify f q root :
  keeps_lists f -> descendants (modify f q root) = descendants root.
Proof.
  intros Hf. unfold descendants. rewrite (vheight_modify f Hf).
  apply flat_map_ext. intros k. now apply level_modify.
Qed.

Lemma descendants_forEach f a root :
  (forall p, keeps_lists (f p)) ->
  descendants (forEach f a root) = descendants root.
Proof.
  intros Hf. unfold forEach. revert root.
  induction a as [|p r IH]; intros root; simpl; auto.
  now rewrite IH, descendants_modify.
Qed.

(* ================================================================== *)
(** ** The initial collapse *)
(* ================================================================== *)

Lemma children_hierarchy r :
  Node.children (hierarchy r)
  = match record_children r with
    | [] => Undefined
    | l => Arr (map hierarchy l)
    end.
Proof.
  unfold record_children.
  destruct r as [n i [[|c cs]|] co om de]; reflexivity.
Qed.

Lemma hidden_hierarchy r : Node._children (hierarchy r) = Undefined.
Proof. destruct r as [n i [[|c cs]|] co om de]; reflexivity. Qed.

Lemma shown_hierarchy r :
  slot_list (Node.children (hierarchy r)) = map hierarchy (record_children r).
Proof. rewrite children_hierarchy. destruct (record_children r); reflexivity. Qed.

Lemma children_collapseRecursively d :
  is_arr (Node.children (collapseRecursively d)) = false.
Proof.
  destruct d as [dat i c h px py px0 py0]. destruct c; simpl; auto;
    destruct h; reflexivity.
Qed.

Lemma kids_collapseRecursively d :
  kids (collapseRecursively d) = map collapseRecursively (kids d).
Proof.
  unfold kids. destruct d as [dat i c h px py px0 py0].
  destruct c; simpl; auto; destruct h; reflexivity.
Qed.

Lemma vcount_collapseRecursively d : vcount (collapseRecursively d) = 1%nat.
Proof.
  rewrite vcount_eq. pose proof (children_collapseRecursively d) as H.
  destruct (Node.children (collapseRecursively d)); simpl in *;
    [reflexivity | reflexivity | discriminate].
Qed.

(** Below a node collapsed recursively nothing is shown. *)
Lemma collapseRecursively_hides : forall q d n,
  get q (collapseRecursively d) = Some n -> is_arr (Node.children n) = false.
Proof.
  induction q as [|i r IH]; intros d n; simpl.
  - intros [= <-]. apply children_collapseRecursively.
  - rewrite kids_collapseRecursively, nth_error_map.
    destruct (nth_error (kids d) i) as [c|]; simpl; [|discriminate].
    apply IH.
Qed.

Lemma list_sum_vcount_collapsed l :
  list_sum (map vcount (map collapseRecursively l)) = List.length l.
Proof.
  induction l as [|a l IH]; simpl; auto.
  now rewrite vcount_collapseRecursively, IH.
Qed.

Lemma vcount_collapse_below r :
  vcount (collapse_below (hierarchy r)) = S (List.length (record_children r)).
Proof.
  unfold collapse_below. rewrite children_hierarchy.
  destruct (record_children r) as [|c cs] eqn:E.
  - rewrite vcount_eq, children_hierarchy, E. reflexivity.
  - rewrite vcount_eq. cbn [Node.children Node.set_children slot_list].
    now rewrite list_sum_vcount_collapsed, length_map.
Qed.

Lemma kids_collapse_below r :
  kids (collapse_below (hierarchy r))
  = map (fun g => collapseRecursively (hierarchy g)) (record_children r).
Proof.
  unfold collapse_below, kids. rewrite children_hierarchy.
  destruct (record_children r) as [|c cs] eqn:E.
  - rewrite children_hierarchy, E, hidden_hierarchy. reflexivity.
  - simpl. now rewrite !map_map.
Qed.

Lemma kids_initialCollapse r :
  kids (initialCollapse (hierarchy r))
  = map (fun c => collapse_below (hierarchy c)) (record_children r).
Proof.
  unfold initialCollapse, kids. rewrite children_hierarchy.
  destruct (record_children r) as [|c cs] eqn:E.
  - rewrite children_hierarchy, E, hidden_hierarchy. reflexivity.
  - simpl. now rewrite !map_map.
Qed.

Lemma list_sum_vcount_below l :
  list_sum (map vcount (map collapse_below (map hierarchy l)))
  = (List.length l + list_sum (map (fun c => List.length (record_children c)) l))%nat.
Proof.
  induction l as [|a l IH]; simpl; auto.
  rewrite vcount_collapse_below, IH. lia.
Qed.

Lemma vcount_initialCollapse r :
  vcount (initialCollapse (hierarchy r))
  = (1 + List.length (record_children r)
     + list_sum (map (fun c => List.length (record_children c)) (record_children r)))%nat.
Proof.
  unfold initialCollapse. rewrite children_hierarchy.
  destruct (record_children r) as [|c cs] eqn:E.
  - rewrite vcount_eq, children_hierarchy, E. reflexivity.
  - rewrite vcount_eq. cbn [Node.children Node.set_children slot_list].
    rewrite list_sum_vcount_below. lia.
Qed.

Lemma initialCollapse_visible :
  forall familyData : Person.t,
    List.length (descendants (initialCollapse (hierarchy familyData)))
    = (1 + List.length (record_children familyData)
       + list_sum (map (fun c => List.length (record_children c))
                       (record_children familyData)))%nat
    /\ (forall p, In p (descendants (initialCollapse (hierarchy familyData))) ->
                  (List.length p <= 2)%nat)
    /\ (forall p d, get p (initialCollapse (hierarchy familyData)) = Some d ->
                    (2 <= List.length p)%nat ->
                    is_arr (Node.children d) = false).
Proof.
  intros r.
  assert (Hdeep : forall p d, get p (initialCollapse (hierarchy r)) = Some d ->
                    (2 <= List.length p)%nat -> is_arr (Node.children d) = false).
  { intros [|i [|j q]] d; simpl; try lia. intros Hget _.
    rewrite kids_initialCollapse, nth_error_map in Hget.
    destruct (nth_error (record_children r) i) as [c|]; simpl in Hget;
      [|discriminate].
    rewrite kids_collapse_below, nth_error_map in Hget.
    destruct (nth_error (record_children c) j) as [g|]; simpl in Hget;
      [|discriminate].
    eapply collapseRecursively_hides; eauto. }
  split; [|split; [|exact Hdeep]].
  - rewrite length_descendants. apply vcount_initialCollapse.
  - intros p Hp. apply in_descendants in Hp.
    destruct (le_lt_dec (List.length p) 2) as [|Hlong]; auto. exfalso.
    (* a visible reference of three steps would pass a grandchild that
       shows a child *)
    destruct p as [|i [|j [|k q]]]; simpl in Hlong; try lia.
    simpl in Hp.
    apply in_prefix_from in Hp as (i' & ps & r1 & Hi & Hr1 & E).
    injection E as Ei <-. simpl in Ei. subst i'. rewrite nth_error_map in Hi.
    destruct (nth_error (slot_list (Node.children (initialCollapse (hierarchy r)))) i)
      as [c|] eqn:Hc; [|discriminate].
    injection Hi as <-.
    apply in_prefix_from in Hr1 as (j' & ps & r2 & Hj & Hr2 & E).
    injection E as Ej <-. simpl in Ej. subst j'. rewrite nth_error_map in Hj.
    destruct (nth_error (slot_list (Node.children c)) j) as [g|] eqn:Hg;
      [|discriminate].
    injection Hj as <-.
    apply in_prefix_from in Hr2 as (k' & ps & r3 & Hk & _ & _).
    rewrite nth_error_map in Hk.
    destruct (nth_error (slot_list (Node.children g)) k') as [gg|] eqn:Hgg;
      [|discriminate].
    assert (Hkc : kids (initialCollapse (hierarchy r))
                  = slot_list (Node.children (initialCollapse (hierarchy r)))).
    { unfold kids. destruct (Node.children (initialCollapse (hierarchy r)));
        simpl in *; auto; destruct i; discriminate. }
    assert (Hkg : kids c = slot_list (Node.children c)).
    { unfold kids. destruct (Node.children c); simpl in *; auto;
        destruct j; discriminate. }
    assert (Hget : get [i; j] (initialCollapse (hierarchy r)) = Some g).
    { simpl. now rewrite Hkc, Hc, Hkg, Hg. }
    specialize (Hdeep _ _ Hget ltac:(simpl; lia)).
    destruct (Node.children g); simpl in Hgg, Hdeep; try discriminate;
      destruct k'; discriminate.
Qed.

(* ================================================================== *)
(** ** The bounds of the laid-out nodes *)
(* ================================================================== *)

Lemma in_snoc {A} (a : A) l : In a (l ++ [a]).
Proof. apply in_or_app; right; left; reflexivity. Qed.

Lemma in_snoc_old {A} (a b : A) l : In a l -> In a (l ++ [b]).
Proof. intros H. apply in_or_app; now left. Qed.

Lemma axis_inv_defined vs a b q lo' hi' :
  In (Some a) vs -> In (Some b) vs ->
  (forall v, In (Some v) vs -> a <= v /\ v <= b) ->
  (lo' = q \/ lo' = a) -> (hi' = q \/ hi' = b) ->
  lo' <= a -> lo' <= q -> b <= hi' -> q <= hi' ->
  exists a' b', Fin lo' = Fin a' /\ Fin hi' = Fin b'
    /\ In (Some a') (vs ++ [Some q]) /\ In (Some b') (vs ++ [Some q])
    /\ forall v, In (Some v) (vs ++ [Some q]) -> a' <= v /\ v <= b'.
Proof.
  intros Ha Hb Hall Hlo Hhi Hla Hlq Hbh Hqh.
  exists lo', hi'. split; [reflexivity|]. split; [reflexivity|].
  split; [|split].
  - destruct Hlo as [-> | ->]; [apply in_snoc | now apply in_snoc_old].
  - destruct Hhi as [-> | ->]; [apply in_snoc | now apply in_snoc_old].
  - intros v Hv. apply in_app_or in Hv as [Hv | [[= <-] | []]].
    + destruct (Hall _ Hv) as [H1 H2]. split.
      * apply (Qle_trans _ a); assumption.
      * apply (Qle_trans _ b); assumption.
    + split; assumption.
Qed.

Lemma axis_inv_step vs lo hi v :
  axis_inv vs lo hi -> axis_inv (vs ++ [v]) (run_min lo v) (run_max hi v).
Proof.
  unfold axis_inv, run_min, run_max.
  intros [(Hnone & -> & ->) | (a & b & -> & -> & Ha & Hb & Hall)].
  - destruct v as [q|]; simpl.
    + right. exists q, q.
      split; [reflexivity|]. split; [reflexivity|].
      split; [apply in_snoc|]. split; [apply in_snoc|].
      intros w Hw. apply in_app_or in Hw as [Hw | [[= <-] | []]].
      * rewrite Forall_forall in Hnone. specialize (Hnone _ Hw). discriminate.
      * split; apply Qle_refl.
    + left. split; [|split; reflexivity]. apply Forall_app; split; auto.
  - right. destruct v as [q|]; simpl.
    + assert (Hab : a <= b) by (destruct (Hall _ Ha); assumption).
      destruct (Qltb q a) eqn:Hqa; destruct (Qltb b q) eqn:Hbq;
        try apply Qltb_lt in Hqa; try apply Qltb_ge in Hqa;
        try apply Qltb_lt in Hbq; try apply Qltb_ge in Hbq;
        apply (axis_inv_defined vs a b); auto;
        try apply Qle_refl; try (apply Qlt_le_weak; assumption).
    + exists a, b. split; [reflexivity|]. split; [reflexivity|].
      split; [now apply in_snoc_old|]. split; [now apply in_snoc_old|].
      intros w Hw. apply in_app_or in Hw as [Hw | [[=] | []]]. now apply Hall.
Qed.

Lemma bounds_fold_inv nodes : forall seen b,
  axis_inv (map Node.x seen) (minX_node b) (maxX_node b) ->
  axis_inv (map Node.y seen) (minY_node b) (maxY_node b) ->
  axis_inv (map Node.x (seen ++ nodes))
           (minX_node (fold_left bounds_step nodes b))
           (maxX_node (fold_left bounds_step nodes b))
  /\ axis_inv (map Node.y (seen ++ nodes))
              (minY_node (fold_left bounds_step nodes b))
              (maxY_node (fold_left bounds_step nodes b)).
Proof.
  induction nodes as [|d r IH]; intros seen b Hx Hy; simpl.
  - rewrite app_nil_r. auto.
  - change (seen ++ d :: r) with (seen ++ [d] ++ r). rewrite app_assoc.
    apply IH; rewrite map_app.
    + exact (axis_inv_step _ _ _ (Node.x d) Hx).
    + exact (axis_inv_step _ _ _ (Node.y d) Hy).
Qed.

(** What [bounds_of] returns on each axis: both ends at zero when there is
    no node, and otherwise what the two running extrema know of all the
    nodes. *)
Lemma bounds_of_inv nodes :
  (nodes = [] /\ bounds_of nodes = mkBounds (Fin 0) (Fin 0) (Fin 0) (Fin 0))
  \/ (nodes <> []
      /\ axis_inv (map Node.x nodes)
                  (minX_node (bounds_of nodes)) (maxX_node (bounds_of nodes))
      /\ axis_inv (map Node.y nodes)
                  (minY_node (bounds_of nodes)) (maxY_node (bounds_of nodes))).
Proof.
  destruct nodes as [|d r]; [left; split; reflexivity|].
  right. split; [discriminate|].
  unfold bounds_of. cbn [List.length Nat.eqb].
  apply (bounds_fold_inv (d :: r) [] (mkBounds Infinity NegInfinity Infinity NegInfinity));
    left; simpl; auto.
Qed.

(** The span of an axis is a number, or minus infinity when no coordinate
    was defined: never NaN, never plus infinity. *)
Lemma axis_span vs lo hi :
  axis_inv vs lo hi ->
  num_sub hi lo = NegInfinity \/ exists s, num_sub hi lo = Fin s /\ 0 <= s.
Proof.
  intros [(_ & -> & ->) | (a & b & -> & -> & Ha & _ & Hall)].
  - left; reflexivity.
  - right. exists (b + - a). split; [reflexivity|].
    destruct (Hall _ Ha) as [_ Hab].
    rewrite <- (Qplus_opp_r a). apply Qplus_le_l. exact Hab.
Qed.

Lemma num_max_floor (m : Q) (req : num) :
  req = NegInfinity \/ (exists s, req = Fin s) ->
  exists w, num_max (Fin m) req = Fin w /\ m <= w
            /\ forall s, req = Fin s -> s <= w.
Proof.
  intros [-> | [s ->]].
  - exists m. split; [reflexivity|]. split; [apply Qle_refl | discriminate].
  - simpl. destruct (Qltb m s) eqn:E.
    + apply Qltb_lt in E. exists s. split; [reflexivity|].
      split; [now apply Qlt_le_weak | intros ? [= <-]; apply Qle_refl].
    + apply Qltb_ge in E. exists m. split; [reflexivity|].
      split; [apply Qle_refl | intros ? [= <-]; exact E].
Qed.

Lemma in_deref root refs p d :
  In p refs -> get p root = Some d -> In d (deref root refs).
Proof.
  intros Hp Hd. unfold deref. apply in_flat_map. exists p. split; auto.
  rewrite Hd. now left.
Qed.

(* ================================================================== *)
(** ** Passes over the tree *)
(* ================================================================== *)

Lemma own_at_some p root o :
  own_at p root = Some o -> exists d, get p root = Some d /\ o = own d.
Proof.
  unfold own_at. destruct (get p root) as [d|]; simpl; [|discriminate].
  intros [= <-]. eauto.
Qed.

Lemma related_refl R root : (forall o, R o o) -> related R root root.
Proof.
  intros HR p. destruct (own_at p root) as [o|] eqn:E; eauto.
Qed.

Lemma related_trans R a b c :
  (forall x1 x2 x3, R x1 x2 -> R x2 x3 -> R x1 x3) ->
  related R a b -> related R b c -> related R a c.
Proof.
  intros HR Hab Hbc p. specialize (Hab p). specialize (Hbc p).
  destruct (own_at p a) as [o|].
  - destruct Hab as (o' & Ho' & Hr). rewrite Ho' in Hbc.
    destruct Hbc as (o'' & Ho'' & Hr'). eauto.
  - now rewrite Hab in Hbc.
Qed.

(** One write through a reference relates the tree to itself as soon as
    the write relates every node to its image. *)
Lemma related_modify (R : Node.t -> Node.t -> Prop) g q root :
  (forall o, R o o) ->
  (forall d, kids (g d) = kids d) ->
  (forall d, R (own d) (own (g d))) ->
  related R root (modify g q root).
Proof.
  intros Hrefl Hk Hg p. rewrite (own_at_modify g Hk). unfold own_at.
  destruct (get p root) as [d|]; simpl; [|reflexivity].
  eexists; split; [reflexivity|].
  destruct (path_eq_dec p q); auto.
Qed.

Lemma related_forEach (R : Node.t -> Node.t -> Prop) g a :
  (forall o, R o o) ->
  (forall x1 x2 x3, R x1 x2 -> R x2 x3 -> R x1 x3) ->
  (forall q d, kids (g q d) = kids d) ->
  (forall q d, R (own d) (own (g q d))) ->
  forall root, related R root (forEach g a root).
Proof.
  intros Hrefl Htrans Hk Hg. unfold forEach.
  induction a as [|q r IH]; intros root; simpl.
  - now apply related_refl.
  - eapply related_trans; [exact Htrans | | apply IH].
    apply related_modify; auto.
Qed.

(** A node that a pass does not visit keeps all its own properties. *)
Lemma forEach_own_at_other g a :
  (forall q d, kids (g q d) = kids d) ->
  forall p root, ~ In p a -> own_at p (forEach g a root) = own_at p root.
Proof.
  intros Hk. unfold forEach.
  induction a as [|q r IH]; intros p root Hp; simpl; auto.
  rewrite IH by (intros H; apply Hp; now right).
  apply own_at_modify_other; auto. intros ->. apply Hp. now left.
Qed.

(** A node that a pass visits ends with what the visit establishes. *)
Lemma forEach_establish (Q : Node.t -> Prop) g a p :
  (forall q d, kids (g q d) = kids d) ->
  (forall d, Q (own (g p d))) ->
  In p a ->
  forall root, get p root <> None ->
    exists o, own_at p (forEach g a root) = Some o /\ Q o.
Proof.
  intros Hk HQ. unfold forEach.
  induction a as [|q r IH]; intros Hin root Hget; [destruct Hin|]. simpl.
  destruct (in_dec path_eq_dec p r) as [Hr|Hr].
  - apply IH; auto.
    destruct (path_eq_dec p q) as [->|Hpq].
    + rewrite get_modify_same. destruct (get q root); [discriminate | congruence].
    + pose proof (own_at_modify_other (g q) q p root (Hk q) Hpq) as E.
      unfold own_at in E. destruct (get p root); [|congruence].
      destruct (get p (modify (g q) q root)); [discriminate | discriminate].
  - destruct Hin as [-> | Hin]; [|contradiction].
    fold (forEach g r (modify (g p) p root)).
    rewrite (forEach_own_at_other g r Hk) by assumption.
    unfold own_at. rewrite get_modify_same.
    destruct (get p root) as [d|]; [|congruence]. simpl. eauto.
Qed.

(* ------------------------------------------------------------------ *)
(** *** The writes of a redraw *)

Lemma keeps_lists_set_xy a b : keeps_lists (Node.set_xy a b).
Proof. intros d; split; reflexivity. Qed.

Lemma keeps_lists_stash : keeps_lists stash.
Proof. intros d; split; reflexivity. Qed.

Lemma keeps_lists_node_key i : keeps_lists (fun n => fst (node_key n i)).
Proof.
  intros d. unfold node_key.
  destruct (truthy (Node.id d)); [split; reflexivity|].
  destruct (truthy (Person.id (Node.data d))); split; reflexivity.
Qed.

Lemma keeps_lists_tree_default_start : keeps_lists TreeLogic.default_start.
Proof.
  intros d. unfold TreeLogic.default_start.
  destruct (Node.x0 d); simpl; destruct (Node.y0 d); split; reflexivity.
Qed.

Lemma keeps_lists_sibling_default_start : keeps_lists Sibling.default_start.
Proof.
  intros d. unfold Sibling.default_start.
  destruct (Node.x0 d); simpl; destruct (Node.y0 d); split; reflexivity.
Qed.

Lemma keeps_id_refl o : keeps_id o o.
Proof. intros _. reflexivity. Qed.

Lemma keeps_id_trans x1 x2 x3 : keeps_id x1 x2 -> keeps_id x2 x3 -> keeps_id x1 x3.
Proof.
  unfold keeps_id. intros H12 H23 H. rewrite <- (H12 H). apply H23.
  now rewrite (H12 H).
Qed.

Lemma keeps_xy_refl o : keeps_xy o o.
Proof. split; reflexivity. Qed.

Lemma keeps_xy_trans x1 x2 x3 : keeps_xy x1 x2 -> keeps_xy x2 x3 -> keeps_xy x1 x3.
Proof. unfold keeps_xy. intros [-> ->] [-> ->]. split; reflexivity. Qed.

(** The key function assigns an identifier only to a node that has none,
    and what it assigns is truthy. *)
Lemma node_key_id d i :
  keeps_id d (fst (node_key d i))
  /\ truthy (Node.id (fst (node_key d i))) = true
  /\ (i <= snd (node_key d i))%nat.
Proof.
  unfold node_key, keeps_id. destruct (truthy (Node.id d)) eqn:E; simpl.
  - auto.
  - destruct (truthy (Person.id (Node.data d))) eqn:E'; simpl.
    + split; [discriminate | auto].
    + split; [discriminate | split; [reflexivity | lia]].
Qed.

Lemma own_node_key d i :
  own (fst (node_key d i)) = fst (node_key (own d) i)
  /\ snd (node_key d i) = snd (node_key (own d) i).
Proof.
  unfold node_key. simpl.
  destruct (truthy (Node.id d)); [split; reflexivity|].
  destruct (truthy (Person.id (Node.data d))); split; reflexivity.
Qed.

(** The data join relates the tree to itself by every relation that the
    key function respects. *)
Lemma related_key_pass (R : Node.t -> Node.t -> Prop) :
  (forall o, R o o) ->
  (forall x1 x2 x3, R x1 x2 -> R x2 x3 -> R x1 x3) ->
  (forall d i, R (own d) (own (fst (node_key d i)))) ->
  forall a root i, related R root (fst (key_pass a root i)).
Proof.
  intros Hrefl Htrans Hg. unfold key_pass.
  induction a as [|q r IH]; intros root i; simpl.
  - now apply related_refl.
  - rewrite (surjective_pairing (key_step (root, i) q)).
    eapply related_trans; [exact Htrans | | apply IH].
    unfold key_step; simpl. destruct (get q root); simpl.
    + apply related_modify; auto.
      apply keeps_lists_kids, keeps_lists_node_key.
    + now apply related_refl.
Qed.

Lemma descendants_key_pass a : forall root i,
  descendants (fst (key_pass a root i)) = descendants root.
Proof.
  unfold key_pass. induction a as [|q r IH]; intros root i; simpl; auto.
  rewrite (surjective_pairing (key_step (root, i) q)), IH.
  unfold key_step; simpl. destruct (get q root); simpl; auto.
  apply descendants_modify, keeps_lists_node_key.
Qed.

Lemma key_pass_monotone a : forall root i, (i <= snd (key_pass a root i))%nat.
Proof.
  unfold key_pass. induction a as [|q r IH]; intros root i; simpl; auto.
  rewrite (surjective_pairing (key_step (root, i) q)).
  etransitivity; [|apply IH].
  unfold key_step; simpl. destruct (get q root); simpl; auto.
  apply node_key_id.
Qed.

(* ------------------------------------------------------------------ *)
(** *** The layout *)

Lemma treeLayout_descendants position root :
  descendants (treeLayout position root) = descendants root.
Proof.
  unfold treeLayout. apply descendants_forEach.
  intros p. apply keeps_lists_set_xy.
Qed.

(** After the layout every visible node is where the layout put it. *)
Lemma treeLayout_places position root p :
  In p (descendants root) ->
  exists d, get p (treeLayout position root) = Some d
            /\ Node.x d = Some (fst (position root p))
            /\ Node.y d = Some (snd (position root p)).
Proof.
  intros Hp.
  assert (Hget : get p root <> None).
  { destruct (descendants_get p root Hp) as [n Hn]. congruence. }
  destruct (forEach_establish
              (fun o => Node.x o = Some (fst (position root p))
                        /\ Node.y o = Some (snd (position root p)))
              (fun q => Node.set_xy (Some (fst (position root q)))
                                    (Some (snd (position root q))))
              (descendants root) p
              (fun q => keeps_lists_kids _ (keeps_lists_set_xy _ _))
              (fun d => conj eq_refl eq_refl) Hp root Hget)
    as (o & Ho & Hx & Hy).
  apply own_at_some in Ho as (d & Hd & ->). exists d. auto.
Qed.

(** The bounds hold every node whose position is defined. *)
Lemma bounds_of_contains nodes d :
  In d nodes ->
  (forall vx, Node.x d = Some vx ->
     exists lo hi, minX_node (bounds_of nodes) = Fin lo
                   /\ maxX_node (bounds_of nodes) = Fin hi
                   /\ lo <= vx /\ vx <= hi)
  /\ (forall vy, Node.y d = Some vy ->
     exists lo hi, minY_node (bounds_of nodes) = Fin lo
                   /\ maxY_node (bounds_of nodes) = Fin hi
                   /\ lo <= vy /\ vy <= hi).
Proof.
  intros Hd.
  destruct (bounds_of_inv nodes) as [[-> _] | (_ & Hx & Hy)]; [destruct Hd|].
  split.
  - intros vx Hvx.
    assert (Hin : In (Some vx) (map Node.x nodes))
      by (rewrite <- Hvx; now apply in_map).
    destruct Hx as [(Hnone & _) | (a & b & Ha & Hb & _ & _ & Hall)].
    + rewrite Forall_forall in Hnone. specialize (Hnone _ Hin). discriminate.
    + exists a, b. destruct (Hall _ Hin). auto.
  - intros vy Hvy.
    assert (Hin : In (Some vy) (map Node.y nodes))
      by (rewrite <- Hvy; now apply in_map).
    destruct Hy as [(Hnone & _) | (a & b & Ha & Hb & _ & _ & Hall)].
    + rewrite Forall_forall in Hnone. specialize (Hnone _ Hin). discriminate.
    + exists a, b. destruct (Hall _ Hin). auto.
Qed.

Lemma bounds_of_spans nodes :
  (num_sub (maxX_node (bounds_of nodes)) (minX_node (bounds_of nodes)) = NegInfinity
   \/ exists s, num_sub (maxX_node (bounds_of nodes)) (minX_node (bounds_of nodes))
                = Fin s /\ 0 <= s)
  /\ (num_sub (maxY_node (bounds_of nodes)) (minY_node (bounds_of nodes)) = NegInfinity
      \/ exists s, num_sub (maxY_node (bounds_of nodes)) (minY_node (bounds_of nodes))
                   = Fin s /\ 0 <= s).
Proof.
  destruct (bounds_of_inv nodes) as [[_ ->] | (_ & Hx & Hy)].
  - split; right; exists (0 + - 0); (split; [reflexivity | discriminate]).
  - split; eapply axis_span; eauto.
Qed.

(* ================================================================== *)
(** ** The redraw of tree_logic.js *)
(* ================================================================== *)

Section TreeLogicFacts.

Variable position : Node.t -> path -> Q * Q.
Variable clientWidth : Q.

Local Abbreviation updateTree := (TreeLogic.updateTree position clientWidth).
Local Abbreviation laid_out := (TreeLogic.laid_out position).

Lemma tree_laid_out_descendants source v :
  descendants (laid_out source v) = descendants (rootNodeD3 v).
Proof.
  unfold TreeLogic.laid_out. rewrite treeLayout_descendants.
  apply descendants_modify, keeps_lists_tree_default_start.
Qed.

Lemma tree_updateTree_descendants source v :
  descendants (rootNodeD3 (updateTree source v)) = descendants (rootNodeD3 v).
Proof.
  unfold TreeLogic.updateTree. cbn [rootNodeD3].
  rewrite descendants_forEach by (intros; apply keeps_lists_stash).
  rewrite descendants_key_pass. apply tree_laid_out_descendants.
Qed.

Lemma tree_minimum_width : 600 <= TreeLogic.calculatedInitialWidth clientWidth.
Proof.
  unfold TreeLogic.calculatedInitialWidth.
  destruct (Qltb 600 clientWidth) eqn:E.
  - apply Qltb_lt in E. now apply Qlt_le_weak.
  - apply Qle_refl.
Qed.

Lemma tree_required_shape b :
  (num_sub (maxX_node b) (minX_node b) = NegInfinity
   \/ exists s, num_sub (maxX_node b) (minX_node b) = Fin s /\ 0 <= s) ->
  (num_sub (maxY_node b) (minY_node b) = NegInfinity
   \/ exists s, num_sub (maxY_node b) (minY_node b) = Fin s /\ 0 <= s) ->
  (TreeLogic.svgWidthRequired b = NegInfinity
   \/ exists s, TreeLogic.svgWidthRequired b = Fin s)
  /\ (TreeLogic.svgHeightRequired b = NegInfinity
      \/ exists s, TreeLogic.svgHeightRequired b = Fin s).
Proof.
  unfold TreeLogic.svgWidthRequired, TreeLogic.svgHeightRequired.
  intros [-> | (sx & -> & _)] [-> | (sy & -> & _)]; simpl; split; eauto.
Qed.

End TreeLogicFacts.

(** C8.  The bounds computed from a set of nodes hold the position of
    every one of them, on both axes; from no node at all they are the
    single point (0, 0); and the svg element that a redraw sizes from
    them is never narrower than the initial width, itself at least 600,
    nor lower than the initial height of 600. *)
Theorem bounds_contain_and_canvas_floor :
  forall (position : Node.t -> path -> Q * Q) (clientWidth : Q)
         (source : path) (v : view),
    (forall (nodes : list Node.t) (d : Node.t) (vx vy : Q),
        In d nodes -> Node.x d = Some vx -> Node.y d = Some vy ->
        exists lox hix loy hiy,
          bounds_of nodes = mkBounds (Fin lox) (Fin hix) (Fin loy) (Fin hiy)
          /\ lox <= vx /\ vx <= hix /\ loy <= vy /\ vy <= hiy)
    /\ bounds_of [] = mkBounds (Fin 0) (Fin 0) (Fin 0) (Fin 0)
    /\ (let root := TreeLogic.laid_out position source v in
        let b := bounds_of (deref root (descendants root)) in
        (forall p, In p (descendants root) ->
           exists d vx vy, get p root = Some d /\ In d (deref root (descendants root))
                           /\ Node.x d = Some vx /\ Node.y d = Some vy)
        /\ exists w h,
             svgWidth (TreeLogic.updateTree position clientWidth source v) = Fin w
             /\ svgHeight (TreeLogic.updateTree position clientWidth source v) = Fin h
             /\ num_max (Fin (TreeLogic.calculatedInitialWidth clientWidth))
                        (TreeLogic.svgWidthRequired b) = Fin w
             /\ num_max (Fin TreeLogic.initialHeight)
                        (TreeLogic.svgHeightRequired b) = Fin h
             /\ 600 <= TreeLogic.calculatedInitialWidth clientWidth
             /\ TreeLogic.calculatedInitialWidth clientWidth <= w
             /\ TreeLogic.initialHeight <= h).
Proof.
  intros position clientWidth source v.
  split; [|split; [reflexivity|]].
  - intros nodes d vx vy Hd Hx Hy.
    destruct (bounds_of_contains nodes d Hd) as [HX HY].
    destruct (HX vx Hx) as (lox & hix & E1 & E2 & ? & ?).
    destruct (HY vy Hy) as (loy & hiy & E3 & E4 & ? & ?).
    exists lox, hix, loy, hiy. split; [|auto].
    destruct (bounds_of nodes); simpl in *. congruence.
  - cbv zeta. split.
    + intros p Hp. unfold TreeLogic.laid_out in *.
      rewrite treeLayout_descendants in Hp.
      destruct (treeLayout_places position _ p Hp) as (d & Hd & Hx & Hy).
      exists d, (fst (position (modify TreeLogic.default_start source (rootNodeD3 v)) p)),
             (snd (position (modify TreeLogic.default_start source (rootNodeD3 v)) p)).
      split; [exact Hd|]. split; [|auto].
      eapply in_deref; [|exact Hd]. now rewrite treeLayout_descendants.
    + set (b := bounds_of (deref (TreeLogic.laid_out position source v)
                                 (descendants (TreeLogic.laid_out position source v)))).
      destruct (bounds_of_spans (deref (TreeLogic.laid_out position source v)
                                   (descendants (TreeLogic.laid_out position source v))))
        as [Sx Sy]. fold b in Sx, Sy.
      destruct (tree_required_shape b Sx Sy) as [Hw Hh].
      destruct (num_max_floor (TreeLogic.calculatedInitialWidth clientWidth)
                  (TreeLogic.svgWidthRequired b) Hw) as (w & Ew & Hwle & _).
      destruct (num_max_floor TreeLogic.initialHeight
                  (TreeLogic.svgHeightRequired b) Hh) as (h & Eh & Hhle & _).
      exists w, h. repeat split; auto. apply tree_minimum_width.
Qed.

(* ------------------------------------------------------------------ *)
(** *** What a redraw keeps *)

Lemma keeps_id_own_same_id d d' : Node.id d' = Node.id d -> keeps_id (own d) (own d').
Proof. intros H _. exact H. Qed.

Lemma keeps_xy_own_same d d' :
  Node.x d' = Node.x d -> Node.y d' = Node.y d -> keeps_xy (own d) (own d').
Proof. intros Hx Hy. split; assumption. Qed.

Lemma tree_default_start_fields d :
  Node.id (TreeLogic.default_start d) = Node.id d
  /\ Node.x (TreeLogic.default_start d) = Node.x d
  /\ Node.y (TreeLogic.default_start d) = Node.y d.
Proof.
  unfold TreeLogic.default_start.
  destruct (Node.x0 d); simpl; destruct (Node.y0 d); auto.
Qed.

Section TreeLogicPasses.

Variable position : Node.t -> path -> Q * Q.
Variable clientWidth : Q.

Local Abbreviation updateTree := (TreeLogic.updateTree position clientWidth).
Local Abbreviation laid_out := (TreeLogic.laid_out position).
Local Abbreviation run := (TreeLogic.run position clientWidth).

Lemma tree_laid_out_keeps_id source v :
  related keeps_id (rootNodeD3 v) (laid_out source v).
Proof.
  unfold TreeLogic.laid_out, treeLayout.
  eapply related_trans; [exact keeps_id_trans | |].
  - apply related_modify.
    + exact keeps_id_refl.
    + apply keeps_lists_kids, keeps_lists_tree_default_start.
    + intros d. apply keeps_id_own_same_id, tree_default_start_fields.
  - apply related_forEach.
    + exact keeps_id_refl.
    + exact keeps_id_trans.
    + intros q. apply keeps_lists_kids, keeps_lists_set_xy.
    + intros q d. now apply keeps_id_own_same_id.
Qed.

Lemma key_pass_keeps_id a root i : related keeps_id root (fst (key_pass a root i)).
Proof.
  apply related_key_pass.
  - exact keeps_id_refl.
  - exact keeps_id_trans.
  - intros d j. intros H. simpl in H. simpl. now apply node_key_id.
Qed.

Lemma key_pass_keeps_xy a root i : related keeps_xy root (fst (key_pass a root i)).
Proof.
  apply related_key_pass.
  - exact keeps_xy_refl.
  - exact keeps_xy_trans.
  - intros d j. unfold node_key.
    destruct (truthy (Node.id d)); [apply keeps_xy_refl|].
    destruct (truthy (Person.id (Node.data d))); split; reflexivity.
Qed.

Lemma stash_pass_keeps_id a root :
  related keeps_id root (forEach (fun _ => stash) a root).
Proof.
  apply related_forEach.
  - exact keeps_id_refl.
  - exact keeps_id_trans.
  - intros q. apply keeps_lists_kids, keeps_lists_stash.
  - intros q d. now apply keeps_id_own_same_id.
Qed.

Lemma stash_pass_keeps_xy a root :
  related keeps_xy root (forEach (fun _ => stash) a root).
Proof.
  apply related_forEach.
  - exact keeps_xy_refl.
  - exact keeps_xy_trans.
  - intros q. apply keeps_lists_kids, keeps_lists_stash.
  - intros q d. now apply keeps_xy_own_same.
Qed.


Lemma toggle_at_keeps_id d v :
  related keeps_id (rootNodeD3 v) (rootNodeD3 (TreeLogic.toggle_at d v)).
Proof.
  unfold TreeLogic.toggle_at. cbn [rootNodeD3]. apply related_modify.
  - exact keeps_id_refl.
  - exact kids_toggleChildren.
  - intros n. apply keeps_id_own_same_id, toggleChildren_own_fields.
Qed.


(** The data join leaves every node it keys with an identifier. *)
Lemma key_pass_assigns a p : forall root i,
  In p a -> get p root <> None ->
  exists o, own_at p (fst (key_pass a root i)) = Some o
            /\ truthy (Node.id o) = true.
Proof.
  unfold key_pass. induction a as [|q r IH]; intros root i Hin Hget;
    [destruct Hin|]. simpl.
  rewrite (surjective_pairing (key_step (root, i) q)).
  destruct (path_eq_dec q p) as [->|Hqp].
  - unfold key_step; simpl. destruct (get p root) as [d|] eqn:Hd; [|congruence].
    simpl.
    pose proof (key_pass_keeps_id r
                  (modify (fun n => fst (node_key n i)) p root)
                  (snd (node_key d i)) p) as Hrel.
    unfold own_at at 1 in Hrel. rewrite get_modify_same, Hd in Hrel. simpl in Hrel.
    destruct Hrel as (o' & Ho' & Hk). exists o'. split; [exact Ho'|].
    assert (Ht : truthy (Node.id (own (fst (node_key d i)))) = true)
      by apply node_key_id.
    rewrite (Hk Ht). exact Ht.
  - destruct Hin as [-> | Hin]; [contradiction|].
    apply IH; auto.
    unfold key_step; simpl. destruct (get q root) as [d|]; simpl; auto.
    pose proof (own_at_modify_other (fun n => fst (node_key n i)) q p root
                  (keeps_lists_kids _ (keeps_lists_node_key i))
                  (not_eq_sym Hqp)) as E.
    unfold own_at in E. destruct (get p root); [|congruence].
    destruct (get p (modify (fun n => fst (node_key n i)) q root)); discriminate.
Qed.

Lemma tree_updateTree_assigns source v p :
  In p (descendants (rootNodeD3 (updateTree source v))) ->
  exists o, own_at p (rootNodeD3 (updateTree source v)) = Some o
            /\ truthy (Node.id o) = true.
Proof.
  rewrite tree_updateTree_descendants. intros Hp.
  unfold TreeLogic.updateTree. cbn [rootNodeD3].
  rewrite <- (tree_laid_out_descendants position source v) in Hp.
  destruct (key_pass_assigns (descendants (laid_out source v)) p
              (laid_out source v) (nodeIndex v) Hp) as (o & Ho & Ht).
  { destruct (descendants_get _ _ Hp) as [n Hn]. congruence. }
  pose proof (stash_pass_keeps_id (descendants (laid_out source v))
                (fst (key_pass (descendants (laid_out source v))
                               (laid_out source v) (nodeIndex v))) p) as Hrel.
  rewrite Ho in Hrel. destruct Hrel as (o' & Ho' & Hk).
  exists o'. split; [exact Ho'|]. rewrite (Hk Ht). exact Ht.
Qed.

(** After a redraw a visible node is where the layout put it, and its
    previous position is that position. *)
Lemma tree_updateTree_stashes source v p :
  In p (descendants (rootNodeD3 (updateTree source v))) ->
  exists d,
    get p (rootNodeD3 (updateTree source v)) = Some d
    /\ Node.x d = Some (fst (position
                              (modify TreeLogic.default_start source (rootNodeD3 v)) p))
    /\ Node.y d = Some (snd (position
                              (modify TreeLogic.default_start source (rootNodeD3 v)) p))
    /\ Node.x0 d = Node.x d /\ Node.y0 d = Node.y d.
Proof.
  rewrite tree_updateTree_descendants. intros Hp.
  set (r0 := modify TreeLogic.default_start source (rootNodeD3 v)).
  assert (Hp0 : In p (descendants r0)).
  { unfold r0. rewrite descendants_modify; auto.
    apply keeps_lists_tree_default_start. }
  destruct (treeLayout_places position r0 p Hp0) as (d1 & Hd1 & Hx1 & Hy1).
  change (treeLayout position r0) with (laid_out source v) in Hd1.
  unfold TreeLogic.updateTree. cbn [rootNodeD3].
  assert (Hnodes : descendants (laid_out source v) = descendants r0)
    by apply treeLayout_descendants.
  rewrite Hnodes.
  set (keyed := fst (key_pass (descendants r0) (laid_out source v) (nodeIndex v))).
  pose proof (key_pass_keeps_xy (descendants r0) (laid_out source v) (nodeIndex v) p)
    as Hkey.
  unfold own_at at 1 in Hkey. rewrite Hd1 in Hkey. simpl in Hkey.
  destruct Hkey as (o2 & Ho2 & Hx2 & Hy2). fold keyed in Ho2.
  pose proof (stash_pass_keeps_xy (descendants r0) keyed p) as Hst.
  rewrite Ho2 in Hst. destruct Hst as (o3 & Ho3 & Hx3 & Hy3).
  assert (Hkeyed : get p keyed <> None).
  { apply own_at_some in Ho2 as (d2 & Hd2 & _). congruence. }
  destruct (forEach_establish
              (fun o => Node.x0 o = Node.x o /\ Node.y0 o = Node.y o)
              (fun _ => stash) (descendants r0) p
              (fun q => keeps_lists_kids _ keeps_lists_stash)
              (fun d => conj eq_refl eq_refl) Hp0 keyed Hkeyed)
    as (o4 & Ho4 & Hx0 & Hy0).
  rewrite Ho3 in Ho4. injection Ho4 as <-.
  apply own_at_some in Ho3 as (d & Hd & ->). exists d.
  simpl in *. split; [exact Hd|].
  repeat split; congruence.
Qed.

End TreeLogicPasses.

(** C6.  After a redraw of tree_logic.js, every node that the pass laid
    out is at the position the layout computed for it, and its previous
    position [x0], [y0] has been overwritten with that position. *)
Theorem updateTree_overwrites_previous_position :
  forall (position : Node.t -> path -> Q * Q) (clientWidth : Q)
         (source : path) (v : view) (p : path),
    In p (descendants (rootNodeD3 (TreeLogic.updateTree position clientWidth source v))) ->
    exists d,
      get p (rootNodeD3 (TreeLogic.updateTree position clientWidth source v)) = Some d
      /\ Node.x d = Some (fst (position
                                (modify TreeLogic.default_start source (rootNodeD3 v)) p))
      /\ Node.y d = Some (snd (position
                                (modify TreeLogic.default_start source (rootNodeD3 v)) p))
      /\ Node.x0 d = Node.x d
      /\ Node.y0 d = Node.y d.
Proof.
  intros position clientWidth source v p Hp.
  now apply tree_updateTree_stashes.
Qed.

(** The father of the two-parent document after the first redraw. *)
Lemma updateTree_overwrites_previous_position_witness :
  exists d,
    get [1%nat]
        (rootNodeD3 (TreeLogic.updateTree sample_position 1000 []
                       (TreeLogic.empty_view 1000
                          (initialCollapse (hierarchy two_parents))))) = Some d
    /\ Node.x d
       = Some (fst (sample_position
                      (modify TreeLogic.default_start []
                         (rootNodeD3 (TreeLogic.empty_view 1000
                                        (initialCollapse (hierarchy two_parents)))))
                      [1%nat]))
    /\ Node.y d
       = Some (snd (sample_position
                      (modify TreeLogic.default_start []
                         (rootNodeD3 (TreeLogic.empty_view 1000
                                        (initialCollapse (hierarchy two_parents)))))
                      [1%nat]))
    /\ Node.x0 d = Node.x d
    /\ Node.y0 d = Node.y d.
Proof.
  apply (updateTree_overwrites_previous_position sample_position 1000 []
           (TreeLogic.empty_view 1000 (initialCollapse (hierarchy two_parents)))
           [1%nat]).
  vm_compute. right; right; left; reflexivity.
Defined.




(* ================================================================== *)
(** ** The translation of the drawing group *)
(* ================================================================== *)

Lemma axis_inv_defined_min vs lo hi v :
  axis_inv vs lo hi -> In (Some v) vs ->
  exists a, lo = Fin a /\ In (Some a) vs /\ forall w, In (Some w) vs -> a <= w.
Proof.
  intros [(Hnone & _) | (a & b & -> & _ & Ha & _ & Hall)] Hv.
  - rewrite Forall_forall in Hnone. specialize (Hnone _ Hv). discriminate.
  - exists a. split; [reflexivity|]. split; [exact Ha|].
    intros w Hw. now apply Hall.
Qed.

Lemma sibling_laid_out_descendants position source v :
  descendants (Sibling.laid_out position source v) = descendants (rootNodeD3 v).
Proof.
  unfold Sibling.laid_out. rewrite treeLayout_descendants.
  apply descendants_modify, keeps_lists_sibling_default_start.
Qed.

(** The redraw of the sibling script moves the group so that the least
    coordinate on each axis, which some visible node has, lands on the
    margin, and no visible node lands left of the left margin or above
    the top one. *)
Lemma sibling_updateTree_translation position clientWidth source v :
  exists loX loY,
    gTransform (Sibling.updateTree position clientWidth source v)
    = translate (Fin (Margin.left Sibling.margin + - loY))
                (Fin (Margin.top Sibling.margin + - loX))
    /\ (exists p d, In p (descendants (Sibling.laid_out position source v))
                    /\ get p (Sibling.laid_out position source v) = Some d
                    /\ Node.x d = Some loX)
    /\ (exists p d, In p (descendants (Sibling.laid_out position source v))
                    /\ get p (Sibling.laid_out position source v) = Some d
                    /\ Node.y d = Some loY)
    /\ forall p, In p (descendants (Sibling.laid_out position source v)) ->
         exists d vx vy,
           get p (Sibling.laid_out position source v) = Some d
           /\ Node.x d = Some vx /\ Node.y d = Some vy
           /\ Margin.top Sibling.margin <= vx + (Margin.top Sibling.margin + - loX)
           /\ Margin.left Sibling.margin <= vy + (Margin.left Sibling.margin + - loY).
Proof.
  set (root := Sibling.laid_out position source v).
  set (nodes := deref root (descendants root)).
  assert (Hplaced : forall p, In p (descendants root) ->
            exists d vx vy, get p root = Some d /\ In d nodes
                            /\ Node.x d = Some vx /\ Node.y d = Some vy).
  { intros p Hp. unfold root, Sibling.laid_out in *.
    rewrite treeLayout_descendants in Hp.
    destruct (treeLayout_places position _ p Hp) as (d & Hd & Hx & Hy).
    exists d. do 2 eexists. split; [exact Hd|]. split; [|eauto].
    eapply in_deref; [|exact Hd]. now rewrite treeLayout_descendants. }
  destruct (Hplaced [] (root_in_descendants root))
    as (d0 & vx0 & vy0 & Hd0 & Hin0 & Hx0 & Hy0).
  destruct (bounds_of_inv nodes) as [[E _] | (_ & HX & HY)].
  { rewrite E in Hin0. destruct Hin0. }
  assert (HinX : In (Some vx0) (map Node.x nodes))
    by (rewrite <- Hx0; now apply in_map).
  assert (HinY : In (Some vy0) (map Node.y nodes))
    by (rewrite <- Hy0; now apply in_map).
  destruct (axis_inv_defined_min _ _ _ _ HX HinX) as (loX & EX & HaX & HminX).
  destruct (axis_inv_defined_min _ _ _ _ HY HinY) as (loY & EY & HaY & HminY).
  assert (Hback : forall (f : Node.t -> option Q) a,
             In (Some a) (map f nodes) ->
             exists p d, In p (descendants root) /\ get p root = Some d /\ f d = Some a).
  { intros f a Ha. apply in_map_iff in Ha as (d & Hfd & Hd).
    unfold nodes, deref in Hd. apply in_flat_map in Hd as (p & Hp & Hdp).
    destruct (get p root) as [n|] eqn:Hn; [|destruct Hdp].
    destruct Hdp as [<- | []]. eauto. }
  exists loX, loY. split; [|split; [|split]].
  - unfold Sibling.updateTree. cbn [gTransform].
    fold root. fold nodes. now rewrite EX, EY.
  - now apply Hback.
  - now apply Hback.
  - intros p Hp. destruct (Hplaced p Hp) as (d & vx & vy & Hd & Hin & Hx & Hy).
    exists d, vx, vy. split; [exact Hd|]. split; [exact Hx|]. split; [exact Hy|].
    assert (H1 : loX <= vx).
    { apply HminX. rewrite <- Hx. now apply in_map. }
    assert (H2 : loY <= vy).
    { apply HminY. rewrite <- Hy. now apply in_map. }
    split; lra.
Qed.

(** C5, script by script.  On every redraw the sibling script sets the
    translation of the group to (leftMargin - minY, topMargin - minX),
    the minima being those of the nodes just laid out: a node with the
    least coordinate lands on the margin and none lands beyond it.  The
    redraw of tree_logic.js leaves the transform of the group as it was:
    the translation by the margins set at the start, or what the last
    zoom made of it. *)
Theorem group_translation_on_redraw :
  forall (position : Node.t -> path -> Q * Q) (clientWidth : Q)
         (source : path) (v : view),
    (exists loX loY,
        gTransform (Sibling.updateTree position clientWidth source v)
        = translate (Fin (Margin.left Sibling.margin + - loY))
                    (Fin (Margin.top Sibling.margin + - loX))
        /\ (exists p d, In p (descendants (Sibling.laid_out position source v))
                        /\ get p (Sibling.laid_out position source v) = Some d
                        /\ Node.x d = Some loX)
        /\ (exists p d, In p (descendants (Sibling.laid_out position source v))
                        /\ get p (Sibling.laid_out position source v) = Some d
                        /\ Node.y d = Some loY)
        /\ forall p, In p (descendants (Sibling.laid_out position source v)) ->
             exists d vx vy,
               get p (Sibling.laid_out position source v) = Some d
               /\ Node.x d = Some vx /\ Node.y d = Some vy
               /\ Margin.top Sibling.margin
                  <= vx + (Margin.top Sibling.margin + - loX)
               /\ Margin.left Sibling.margin
                  <= vy + (Margin.left Sibling.margin + - loY))
    /\ gTransform (TreeLogic.updateTree position clientWidth source v) = gTransform v
    /\ (forall root,
          gTransform (TreeLogic.empty_view clientWidth root)
          = translate (Fin (Margin.left TreeLogic.margin))
                      (Fin (Margin.top TreeLogic.margin)))
    /\ (forall t, gTransform (TreeLogic.zoom t v) = t).
Proof.
  intros position clientWidth source v.
  split; [apply sibling_updateTree_translation|].
  split; [reflexivity|]. split; reflexivity.
Qed.

(** With two parents laid out 20 above and 20 below the root, the group of
    tree_logic.js is still translated by (180, 40) after the redraw,
    although the least sibling coordinate is negative and topMargin - minX
    is more than 40. *)
Lemma tree_logic_translation_not_recomputed :
  match treeContainer (TreeLogic.load sample_position 1000 (Parsed (Some two_parents)))
  with
  | Drawing v =>
      gTransform v = translate (Fin 180) (Fin 40)
      /\ exists lo,
           minX_node (bounds_of (deref (rootNodeD3 v) (descendants (rootNodeD3 v))))
           = Fin lo
           /\ lo < 0
           /\ 40 < Margin.top TreeLogic.margin + - lo
  | _ => False
  end.
Proof.
  vm_compute. split; [reflexivity|].
  eexists. split; [reflexivity|]. split; reflexivity.
Qed.

(* ================================================================== *)
(** ** Loading the document *)
(* ================================================================== *)

Lemma bad_shape_fields r :
  bad_shape (Some r) = true
  <-> truthy (Person.name r) = false /\ truthy (Person.id r) = false.
Proof.
  simpl. rewrite andb_true_iff, !negb_true_iff. tauto.
Qed.

(** C9.  A parsed document that is null, or whose root has neither a
    truthy [name] nor a truthy [id], goes the way of a failed fetch: one
    call of [displayError] on the blank page, which leaves one paragraph
    with the message in place of the drawing surface, and nothing is
    drawn or fetched again.  A root with a name or an id is drawn
    whatever else is missing, and a missing field shows as its default:
    "N/A" for the name, the breakdown and the year, the name for the raw
    text, the class "country-unknown", and a leaf for a record without
    children. *)
Theorem load_failures_and_defaults :
  forall (position : Node.t -> path -> Q * Q) (clientWidth : Q),
    (forall r, truthy (Person.name r) = false -> truthy (Person.id r) = false ->
       TreeLogic.load position clientWidth (Parsed (Some r))
       = displayError "Failed to load family tree data." (mkPage BlankSvg None))
    /\ TreeLogic.load position clientWidth (Parsed None)
       = displayError "Failed to load family tree data." (mkPage BlankSvg None)
    /\ (forall message,
          TreeLogic.load position clientWidth (Rejected message)
          = displayError ("Error loading data: " ++ message ++ ".")%string
                         (mkPage BlankSvg None))
    /\ (forall message pg,
          treeContainer (displayError message pg) = ErrorParagraph message)
    /\ (forall r, truthy (Person.name r) = true \/ truthy (Person.id r) = true ->
          exists v,
            treeContainer (TreeLogic.load position clientWidth (Parsed (Some r)))
            = Drawing v)
    /\ (forall r, Person.details r = None ->
          displayDetails r
          = mkPanel (if truthy (Person.name r) then Person.name r else JStr "N/A")
                    NotAvailable (JStr "N/A") (Person.name r))
    /\ (forall r res, Person.details r = Some res -> origin_breakdown res = None ->
          detailOrigin (displayDetails r) = NotAvailable)
    /\ (forall localeCompare d,
          Person.origin_mix (Node.data d) = None ->
          truthy (Person.countryOfOrigin (Node.data d)) = false ->
          TreeLogic.node_class localeCompare d = "node country-unknown")
    /\ (forall r, Person.children r = None ->
          Node.children (hierarchy r) = Undefined /\ kids (hierarchy r) = []).
Proof.
  intros position clientWidth.
  split; [|split; [reflexivity|split; [reflexivity|split; [reflexivity|]]]].
  - intros r Hn Hi. unfold TreeLogic.load.
    now rewrite (proj2 (bad_shape_fields r) (conj Hn Hi)).
  - split; [|split; [|split; [|split]]].
    + intros r H. unfold TreeLogic.load.
      assert (Hb : bad_shape (Some r) = false).
      { simpl. destruct H as [-> | ->]; simpl; auto using andb_false_r. }
      rewrite Hb. eexists. reflexivity.
    + intros r Hd. unfold displayDetails, js_or. rewrite Hd. reflexivity.
    + intros r res Hd Hb. unfold displayDetails. now rewrite Hd, Hb.
    + intros cmp d Hm Hc. unfold TreeLogic.node_class. rewrite Hm.
      unfold getDominantOrigin, js_or. rewrite Hc. reflexivity.
    + intros r Hc. destruct r as [n i c co om de]; simpl in Hc; subst c.
      split; reflexivity.
Qed.

(* ================================================================== *)
(** ** The collapse invariant in every state the page goes through *)
(* ================================================================== *)

Lemma exclusive_own d : exclusive (own d) <-> exclusive d.
Proof.
  unfold exclusive. destruct d as [dat i c h px py px0 py0]; simpl.
  destruct c, h; simpl; tauto.
Qed.

Lemma all_exclusive_modify g q root :
  (forall d, kids (g d) = kids d) ->
  (forall d, exclusive d -> exclusive (g d)) ->
  all_exclusive root -> all_exclusive (modify g q root).
Proof.
  intros Hk Hg Hall p d' Hd'.
  pose proof (own_at_modify g Hk q p root) as E. unfold own_at in E.
  rewrite Hd' in E. cbn [option_map] in E.
  destruct (get p root) as [d|] eqn:Hd; [|discriminate].
  cbn [option_map] in E.
  assert (E' : own d' = own (if path_eq_dec p q then g d else d)) by congruence.
  apply exclusive_own. rewrite E'.
  apply exclusive_own. specialize (Hall p d Hd).
  destruct (path_eq_dec p q); auto.
Qed.

Lemma exclusive_keeps_lists g d : keeps_lists g -> exclusive d -> exclusive (g d).
Proof. unfold exclusive. intros Hg. now destruct (Hg d) as [-> ->]. Qed.

Lemma all_exclusive_forEach g a :
  (forall q, keeps_lists (g q)) ->
  forall root, all_exclusive root -> all_exclusive (forEach g a root).
Proof.
  intros Hg. unfold forEach. induction a as [|q r IH]; intros root H; simpl; auto.
  apply IH, all_exclusive_modify; auto.
  - apply keeps_lists_kids, Hg.
  - intros d. apply exclusive_keeps_lists, Hg.
Qed.

Lemma all_exclusive_key_pass a : forall root i,
  all_exclusive root -> all_exclusive (fst (key_pass a root i)).
Proof.
  unfold key_pass. induction a as [|q r IH]; intros root i H; simpl; auto.
  rewrite (surjective_pairing (key_step (root, i) q)). apply IH.
  unfold key_step; simpl. destruct (get q root); simpl; auto.
  apply all_exclusive_modify; auto.
  - apply keeps_lists_kids, keeps_lists_node_key.
  - intros d. exact (exclusive_keeps_lists (fun n => fst (node_key n i)) d
                       (keeps_lists_node_key i)).
Qed.

Lemma all_exclusive_updateTree position clientWidth source v :
  all_exclusive (rootNodeD3 v) ->
  all_exclusive (rootNodeD3 (TreeLogic.updateTree position clientWidth source v)).
Proof.
  intros H. unfold TreeLogic.updateTree. cbn [rootNodeD3].
  apply all_exclusive_forEach; [intros; apply keeps_lists_stash|].
  apply all_exclusive_key_pass.
  unfold TreeLogic.laid_out, treeLayout.
  apply all_exclusive_forEach; [intros; apply keeps_lists_set_xy|].
  apply all_exclusive_modify; auto.
  - apply keeps_lists_kids, keeps_lists_tree_default_start.
  - intros d. apply exclusive_keeps_lists, keeps_lists_tree_default_start.
Qed.

Lemma all_exclusive_run position clientWidth steps : forall v,
  all_exclusive (rootNodeD3 v) ->
  all_exclusive (rootNodeD3 (TreeLogic.run position clientWidth steps v)).
Proof.
  unfold TreeLogic.run. induction steps as [|s r IH]; intros v H; simpl; auto.
  apply IH. destruct s as [d | source | t]; cbn [TreeLogic.run_step].
  - unfold TreeLogic.toggle_at. cbn [rootNodeD3].
    apply all_exclusive_modify; auto.
    + exact kids_toggleChildren.
    + intros n _. apply toggleChildren_exclusive.
  - now apply all_exclusive_updateTree.
  - exact H.
Qed.

Lemma initialCollapse_set_start a b d :
  initialCollapse (Node.set_y0 b (Node.set_x0 a d))
  = Node.set_y0 b (Node.set_x0 a (initialCollapse d)).
Proof.
  unfold initialCollapse. destruct d as [dat i c h px py px0 py0]; simpl.
  destruct c; reflexivity.
Qed.

Lemma all_exclusive_initialCollapse r :
  all_exclusive (initialCollapse (hierarchy r)).
Proof.
  intros p d Hd. unfold exclusive.
  destruct p as [|i [|j q]].
  - injection Hd as <-.
    assert (H : Node._children (initialCollapse (hierarchy r)) = Undefined).
    { unfold initialCollapse. pose proof (hidden_hierarchy r) as Hh.
      destruct (Node.children (hierarchy r)); simpl; exact Hh. }
    rewrite H. apply andb_false_r.
  - simpl in Hd. rewrite kids_initialCollapse, nth_error_map in Hd.
    destruct (nth_error (record_children r) i) as [c|]; simpl in Hd; [|discriminate].
    injection Hd as <-.
    assert (H : Node._children (collapse_below (hierarchy c)) = Undefined).
    { unfold collapse_below. pose proof (hidden_hierarchy c) as Hh.
      destruct (Node.children (hierarchy c)); simpl; exact Hh. }
    rewrite H. apply andb_false_r.
  - simpl in Hd. rewrite kids_initialCollapse, nth_error_map in Hd.
    destruct (nth_error (record_children r) i) as [c|]; simpl in Hd; [|discriminate].
    rewrite kids_collapse_below, nth_error_map in Hd.
    destruct (nth_error (record_children c) j) as [g|]; simpl in Hd; [|discriminate].
    now rewrite (collapseRecursively_hides _ _ _ Hd).
Qed.

(** Whatever document is loaded and whatever the user then does, no node
    ever has both a visible and a hidden list: the hypothesis under which
    two toggles cancel out holds of every node of every state. *)
Lemma exclusive_in_every_state position clientWidth r steps v :
  treeContainer (TreeLogic.load position clientWidth (Parsed (Some r))) = Drawing v ->
  all_exclusive (rootNodeD3 (TreeLogic.run position clientWidth steps v)).
Proof.
  unfold TreeLogic.load. destruct (bad_shape (Some r)); [discriminate|].
  cbn [treeContainer]. intros [= <-].
  apply all_exclusive_run, all_exclusive_updateTree.
  unfold TreeLogic.empty_view. cbn [rootNodeD3].
  rewrite initialCollapse_set_start.
  change (Node.set_y0 ?b (Node.set_x0 ?a ?d))
    with (modify (fun n => Node.set_y0 b (Node.set_x0 a n)) [] d).
  apply all_exclusive_modify.
  - intros d. reflexivity.
  - intros d H. exact H.
  - apply all_exclusive_initialCollapse.
Qed.

(** The nodes drawn by the first redraw are those that the initial
    collapse left visible. *)
Lemma load_descendants position clientWidth r v :
  treeContainer (TreeLogic.load position clientWidth (Parsed (Some r))) = Drawing v ->
  descendants (rootNodeD3 v) = descendants (initialCollapse (hierarchy r)).
Proof.
  unfold TreeLogic.load. destruct (bad_shape (Some r)); [discriminate|].
  cbn [treeContainer]. intros [= <-].
  rewrite tree_updateTree_descendants.
  unfold TreeLogic.empty_view. cbn [rootNodeD3].
  rewrite initialCollapse_set_start.
  change (Node.set_y0 ?b (Node.set_x0 ?a ?d))
    with (modify (fun n => Node.set_y0 b (Node.set_x0 a n)) [] d).
  apply descendants_modify. intros d. split; reflexivity.
Qed.

(* ================================================================== *)
(** ** What the load shows *)
(* ================================================================== *)

(** C1, as the script computes it.  Once the hierarchy of a document has
    gone through the initial collapse, the nodes that the layout sees are
    the root, its children and its grandchildren, and no others: their
    number is 1 + |root.children| + the number of grandchildren, every
    reference to a visible node has at most two steps, and no node two or
    more levels down shows a child, so every node three or more levels
    down is reached through a hidden list.  These are the nodes of the
    drawing that the load produces. *)
Theorem initialCollapse_shows_three_generations :
  forall familyData : Person.t,
    List.length (descendants (initialCollapse (hierarchy familyData)))
    = (1 + List.length (record_children familyData)
       + list_sum (map (fun c => List.length (record_children c))
                       (record_children familyData)))%nat
    /\ (forall p, In p (descendants (initialCollapse (hierarchy familyData))) ->
                  (List.length p <= 2)%nat)
    /\ (forall p d, get p (initialCollapse (hierarchy familyData)) = Some d ->
                    (2 <= List.length p)%nat ->
                    is_arr (Node.children d) = false)
    /\ (forall position clientWidth v,
          treeContainer (TreeLogic.load position clientWidth
                           (Parsed (Some familyData))) = Drawing v ->
          descendants (rootNodeD3 v)
          = descendants (initialCollapse (hierarchy familyData))).
Proof.
  intros r. destruct (initialCollapse_visible r) as (H1 & H2 & H3).
  repeat split; auto.
  intros position clientWidth v. apply load_descendants.
Qed.

(** In a document of four generations in a line, three nodes are shown
    after the load, not the two that "root plus its children" would
    give. *)
Lemma initialCollapse_four_generations :
  List.length (descendants (initialCollapse (hierarchy four_generations)))
  <> (1 + List.length (record_children four_generations))%nat
  /\ match treeContainer
             (TreeLogic.load sample_position 1000 (Parsed (Some four_generations)))
     with
     | Drawing v => descendants (rootNodeD3 v) = [[]; [0]; [0; 0]]%nat
     | _ => False
     end.
Proof.
  split.
  - vm_compute. discriminate.
  - vm_compute. reflexivity.
Qed.

(* ################################################################## *)
(** * Further properties *)
(* ################################################################## *)

(* ================================================================== *)
(** ** [collapseRecursively] *)
(* ================================================================== *)

(** Induction on a node, with the property known of every child, shown
    or hidden. *)
Lemma node_induction (P : Node.t -> Prop) :
  (forall d,
      Forall P (slot_list (Node.children d)) ->
      Forall P (slot_list (Node._children d)) -> P d) ->
  forall d, P d.
Proof.
  intros step.
  exact (fix go (d : Node.t) : P d :=
           let all :=
             fix all (l : list Node.t) : Forall P l :=
               match l with
               | [] => Forall_nil P
               | c :: r => Forall_cons c (go c) (all r)
               end in
           match d with
           | Node.mk dat i c h px py px0 py0 =>
               step (Node.mk dat i c h px py px0 py0)
                    (match c as s return Forall P (slot_list s) with
                     | Arr l => all l
                     | _ => Forall_nil P
                     end)
                    (match h as s return Forall P (slot_list s) with
                     | Arr l => all l
                     | _ => Forall_nil P
                     end)
           end).
Qed.

Lemma map_fixed {A} (f : A -> A) l :
  Forall (fun a => f (f a) = f a) l -> map f (map f l) = map f l.
Proof.
  induction 1 as [|a l Ha _ IH]; simpl; [reflexivity|]. now rewrite Ha, IH.
Qed.

Lemma get_collapseRecursively : forall q d,
  get q (collapseRecursively d) = option_map collapseRecursively (get q d).
Proof.
  induction q as [|i r IH]; intros d; simpl; [reflexivity|].
  rewrite kids_collapseRecursively, nth_error_map.
  destruct (nth_error (kids d) i) as [c|]; simpl; [apply IH | reflexivity].
Qed.

Lemma collapseRecursively_own_fields d :
  Node.data (collapseRecursively d) = Node.data d
  /\ Node.id (collapseRecursively d) = Node.id d
  /\ Node.x (collapseRecursively d) = Node.x d
  /\ Node.y (collapseRecursively d) = Node.y d
  /\ Node.x0 (collapseRecursively d) = Node.x0 d
  /\ Node.y0 (collapseRecursively d) = Node.y0 d.
Proof.
  destruct d as [dat i c h px py px0 py0].
  destruct c; simpl; auto 6; destruct h; simpl; auto 6.
Qed.

(** X1.  Collapsing a subtree recursively is idempotent: a second call on
    the same node changes nothing. *)
Theorem collapseRecursively_idempotent :
  forall d : Node.t,
    collapseRecursively (collapseRecursively d) = collapseRecursively d.
Proof.
  apply node_induction. intros [dat i c h px py px0 py0] Hc Hh.
  destruct c as [| |cs]; simpl in Hc.
  - destruct h as [| |hs]; simpl in *; try reflexivity.
    now rewrite (map_fixed _ _ Hh).
  - destruct h as [| |hs]; simpl in *; try reflexivity.
    now rewrite (map_fixed _ _ Hh).
  - simpl. now rewrite (map_fixed _ _ Hc).
Qed.

(** X2.  Collapsing a subtree recursively loses nothing: every reference
    that led to a node still leads to one, with the same record,
    identifier, positions and number of children, and no reference leads
    to a node where there was none; and afterwards no node of the subtree
    shows a child, so the layout sees the node alone. *)
Theorem collapseRecursively_keeps_every_node :
  forall (d : Node.t) (q : path),
    match get q d with
    | Some n =>
        exists n',
          get q (collapseRecursively d) = Some n'
          /\ Node.data n' = Node.data n /\ Node.id n' = Node.id n
          /\ Node.x n' = Node.x n /\ Node.y n' = Node.y n
          /\ Node.x0 n' = Node.x0 n /\ Node.y0 n' = Node.y0 n
          /\ List.length (kids n') = List.length (kids n)
          /\ is_arr (Node.children n') = false
    | None => get q (collapseRecursively d) = None
    end
    /\ descendants (collapseRecursively d) = [[]].
Proof.
  intros d q. split.
  - rewrite get_collapseRecursively. destruct (get q d) as [n|]; simpl; [|reflexivity].
    exists (collapseRecursively n). split; [reflexivity|].
    destruct (collapseRecursively_own_fields n) as (-> & -> & -> & -> & -> & ->).
    repeat split; try reflexivity.
    + now rewrite kids_collapseRecursively, length_map.
    + apply children_collapseRecursively.
  - unfold descendants. rewrite vheight_eq.
    pose proof (children_collapseRecursively d) as H.
    destruct (Node.children (collapseRecursively d)); simpl in *;
      try reflexivity; discriminate.
Qed.

(* ================================================================== *)
(** ** The attributes of a drawn node *)
(* ================================================================== *)

Lemma has_child_list_toggleChildren d :
  has_child_list (toggleChildren d) = has_child_list d.
Proof.
  unfold has_child_list, toggleChildren.
  destruct d as [dat i c h px py px0 py0]; simpl.
  destruct c; simpl; destruct h; reflexivity.
Qed.

(** X3.  A toggle never moves the label of a node to the other side, and
    it exchanges the two fills of a node with children: white (expanded)
    becomes light steel blue (collapsed) and back, while the grey of a
    leaf stays.  A node is grey exactly when its label is on the right. *)
Theorem toggle_keeps_label_and_swaps_fill :
  forall d : Node.t,
    exclusive d ->
    label_x (toggleChildren d) = label_x d
    /\ text_anchor (toggleChildren d) = text_anchor d
    /\ (circle_fill d = "#fff" -> circle_fill (toggleChildren d) = "lightsteelblue")
    /\ (circle_fill d = "lightsteelblue" -> circle_fill (toggleChildren d) = "#fff")
    /\ (circle_fill d = "#aaa" -> circle_fill (toggleChildren d) = "#aaa")
    /\ (circle_fill d = "#aaa" <-> text_anchor d = "start").
Proof.
  intros d Hex. unfold label_x, text_anchor.
  rewrite has_child_list_toggleChildren.
  split; [reflexivity|]. split; [reflexivity|].
  unfold exclusive in Hex. unfold circle_fill, toggleChildren, has_child_list.
  destruct d as [dat i c h px py px0 py0]; simpl in *.
  destruct c; simpl in *; destruct h; simpl in *;
    repeat split; intros; try reflexivity; try discriminate.
Qed.

(** An expanded node of the loaded four-generation document. *)
Lemma toggle_keeps_label_and_swaps_fill_witness :
  label_x (toggleChildren four_generations_root) = label_x four_generations_root
  /\ circle_fill four_generations_root = "#fff"
  /\ circle_fill (toggleChildren four_generations_root) = "lightsteelblue".
Proof.
  destruct (toggle_keeps_label_and_swaps_fill four_generations_root eq_refl)
    as (H1 & _ & H2 & _).
  split; [exact H1|]. split; [reflexivity | apply H2; reflexivity].
Defined.

(* ================================================================== *)
(** ** The class of a drawn node *)
(* ================================================================== *)

Lemma sanitizeForCss_safe v :
  sanitizeForCss v <> "" /\ all_chars css_safe (sanitizeForCss v) = true.
Proof.
  unfold sanitizeForCss.
  destruct v as [| |b|q|s|]; simpl;
    try (rewrite ?orb_true_r; split; [discriminate | reflexivity]).
  destruct s as [|c r]; simpl; [split; [discriminate | reflexivity]|].
  split; [discriminate|].
  rewrite sanitized_char_safe. simpl.
  unfold toLowerCase, replace_outside_class.
  induction r as [|a r IH]; simpl; auto.
  now rewrite sanitized_char_safe, IH.
Qed.

(** X4.  The class that either script gives a node is "node country-"
    followed by a non-empty name made of lower-case letters, digits, '-'
    and '_' only, whatever the record holds and whatever the collation;
    so is, after "country-text-", the class that the sibling script may
    put on the origin text. *)
Theorem node_class_well_formed :
  forall (localeCompare : string -> string -> Z) (d : Node.t),
    (exists s, TreeLogic.node_class localeCompare d = ("node country-" ++ s)%string
               /\ s <> "" /\ all_chars css_safe s = true)
    /\ (exists s, Sibling.node_class d = ("node country-" ++ s)%string
                  /\ s <> "" /\ all_chars css_safe s = true)
    /\ (forall c, Sibling.detailOriginClass (Sibling.displayDetails (Node.data d)) = Some c ->
          exists s, c = ("country-text-" ++ s)%string
                    /\ s <> "" /\ all_chars css_safe s = true).
Proof.
  intros cmp d. split; [|split].
  - eexists. split; [reflexivity|]. apply sanitizeForCss_safe.
  - eexists. split; [reflexivity|]. apply sanitizeForCss_safe.
  - intros c. unfold Sibling.displayDetails. cbn [Sibling.detailOriginClass].
    destruct (truthy (Person.countryOfOrigin (Node.data d))); [|discriminate].
    intros [= <-]. eexists. split; [reflexivity|]. apply sanitizeForCss_safe.
Qed.

(* ================================================================== *)
(** ** What [getDominantOrigin] can return *)
(* ================================================================== *)

Lemma scan_range localeCompare m : forall seen st,
  (dominantCountry st = "unknown"
   \/ exists w, In (dominantCountry st, w) seen /\ named (dominantCountry st) = true) ->
  dominantCountry (fold_left (scan_step localeCompare) m st) = "unknown"
  \/ exists w, In (dominantCountry (fold_left (scan_step localeCompare) m st), w)
                  (seen ++ m)
               /\ named (dominantCountry (fold_left (scan_step localeCompare) m st)) = true.
Proof.
  induction m as [|[c w] r IH]; intros seen st H; simpl.
  - rewrite app_nil_r. exact H.
  - change (seen ++ (c, w) :: r) with (seen ++ [(c, w)] ++ r).
    rewrite app_assoc. apply IH.
    unfold scan_step; simpl. fold (named c).
    assert (Hold : dominantCountry st = "unknown"
                   \/ exists w0, In (dominantCountry st, w0) (seen ++ [(c, w)])
                                 /\ named (dominantCountry st) = true).
    { destruct H as [H | (w0 & Hin & Hn)]; [now left|].
      right. exists w0. split; [apply in_or_app; now left | exact Hn]. }
    destruct (named c) eqn:Hc; simpl; [|exact Hold].
    destruct (Qltb (maxPercentage st) w); simpl.
    + right. exists w. split; [apply in_snoc | exact Hc].
    + destruct (Qeq_bool w (maxPercentage st)); simpl; [|exact Hold].
      destruct (localeCompare c (dominantCountry st) <? 0)%Z; [|exact Hold].
      right. exists w. split; [apply in_snoc | exact Hc].
Qed.

(** X5.  Whatever the collation, the classification returns the literal
    "unknown", or the fallback it was given (then a truthy one), or a key
    of the mapping that does not lower-case to "unknown": a key such as
    "Unknown" or "UNKNOWN" is never returned. *)
Theorem getDominantOrigin_range :
  forall (localeCompare : string -> string -> Z)
         (originMix : option mapping) (fallbackCountry : jsval),
    getDominantOrigin localeCompare originMix fallbackCountry = JStr "unknown"
    \/ (getDominantOrigin localeCompare originMix fallbackCountry = fallbackCountry
        /\ truthy fallbackCountry = true)
    \/ exists m c w,
         originMix = Some m /\ In (c, w) m /\ named c = true
         /\ getDominantOrigin localeCompare originMix fallbackCountry = JStr c.
Proof.
  intros cmp [m|] fb.
  2:{ simpl. unfold js_or. destruct (truthy fb) eqn:E; auto. }
  destruct m as [|e r].
  { simpl. unfold js_or. destruct (truthy fb) eqn:E; auto. }
  unfold getDominantOrigin. cbv zeta.
  destruct (negb (hasKnownOrigin (fold_left (scan_step cmp) (e :: r) scan_init))
            && ge_bound (lookup "Unknown" (e :: r)) (1 # 2))%bool; [now left|].
  destruct (scan_range cmp (e :: r) [] scan_init (or_introl eq_refl))
    as [Hu | (w & Hin & Hn)].
  - rewrite Hu. simpl. destruct (truthy fb) eqn:E; auto.
  - rewrite (named_not_unknown _ Hn). simpl.
    right. right.
    exists (e :: r), (dominantCountry (fold_left (scan_step cmp) (e :: r) scan_init)), w.
    auto.
Qed.

(* ================================================================== *)
(** ** A breakdown of negligible weights *)
(* ================================================================== *)

(** X6.  A breakdown that has entries, none of them above 0.001, is shown
    as an empty list, not as "N/A"; and the list never has more items
    than the breakdown has entries. *)
Theorem negligible_breakdown_is_an_empty_list :
  forall (data : Person.t) (r : details) (breakdown : mapping),
    Person.details data = Some r ->
    origin_breakdown r = Some breakdown ->
    breakdown <> [] ->
    (List.length (breakdown_items breakdown) <= List.length breakdown)%nat
    /\ ((forall e, In e breakdown -> snd e <= 1 # 1000) ->
        detailOrigin (displayDetails data) = BulletList []).
Proof.
  intros data r b Hd Hb Hne. split.
  - unfold breakdown_items.
    rewrite <- (Permutation_length (sort_desc_perm b)).
    apply filter_length_le.
  - intros Hall. unfold displayDetails. rewrite Hd, Hb.
    destruct b as [|e0 b0]; [contradiction|]. f_equal.
    unfold breakdown_items.
    assert (H : forall e, In e (sort_desc (e0 :: b0)) -> Qltb (1 # 1000) (snd e) = false).
    { intros e He. apply Qltb_ge, Hall.
      eapply Permutation_in; [apply sort_desc_perm | exact He]. }
    revert H. generalize (sort_desc (e0 :: b0)). intros l H.
    induction l as [|a l IH]; simpl; auto.
    rewrite (H a) by now left. apply IH. intros e He. apply H. now right.
Qed.

Lemma negligible_breakdown_is_an_empty_list_witness :
  (List.length (breakdown_items [("Ireland", 1 # 2000)]) <= 1)%nat
  /\ ((forall e, In e [("Ireland", 1 # 2000)] -> snd e <= 1 # 1000) ->
      detailOrigin (displayDetails negligible_record) = BulletList []).
Proof.
  apply (negligible_breakdown_is_an_empty_list negligible_record
           (mkDetails (Some [("Ireland", 1 # 2000)]) JUndefined JUndefined JUndefined)
           [("Ireland", 1 # 2000)] eq_refl eq_refl).
  discriminate.
Defined.

(* ================================================================== *)
(** ** Which nodes are drawn *)
(* ================================================================== *)

Lemma level_visible : forall q root,
  In q (level (List.length q) root) <-> visible q root = true.
Proof.
  induction q as [|i r IH]; intros root; simpl.
  - split; auto.
  - rewrite in_prefix_from. split.
    + intros (j & ps & r' & Hn & Hr & E). injection E as -> <-.
      rewrite nth_error_map in Hn.
      destruct (nth_error (slot_list (Node.children root)) j) as [c|];
        [|discriminate].
      injection Hn as <-. now apply IH.
    + destruct (nth_error (slot_list (Node.children root)) i) as [c|] eqn:Hc;
        [|discriminate].
      intros Hv. exists i, (level (List.length r) c), r.
      rewrite nth_error_map, Hc. split; [reflexivity|]. split; [now apply IH | reflexivity].
Qed.

(** The nodes that the layout sees are those reached through visible
    lists. *)
Lemma in_descendants_visible q root :
  In q (descendants root) <-> visible q root = true.
Proof. rewrite in_descendants. apply level_visible. Qed.

Lemma visible_get : forall q root,
  visible q root = true -> exists n, get q root = Some n.
Proof.
  intros q root H. apply in_descendants_visible in H. now apply descendants_get.
Qed.

Lemma strip_prefix_app p r : strip_prefix p (p ++ r) = Some r.
Proof. induction p as [|i p IH]; simpl; auto. now rewrite Nat.eqb_refl. Qed.

Lemma strip_prefix_self p : strip_prefix p p = Some [].
Proof. induction p as [|i p IH]; simpl; auto. now rewrite Nat.eqb_refl. Qed.

Lemma strip_prefix_some : forall p q r, strip_prefix p q = Some r -> q = p ++ r.
Proof.
  induction p as [|i p IH]; intros q r; simpl.
  - now intros [= ->].
  - destruct q as [|j q]; [discriminate|].
    destruct (Nat.eqb_spec i j) as [->|]; [|discriminate].
    intros H. now rewrite (IH _ _ H).
Qed.

Lemma visible_hidden_below i q root :
  is_arr (Node.children root) = false -> visible (i :: q) root = false.
Proof.
  simpl. destruct (Node.children root); simpl; try discriminate;
    intros _; destruct i; reflexivity.
Qed.

Lemma kids_shown root :
  is_arr (Node.children root) = true -> kids root = slot_list (Node.children root).
Proof. unfold kids. now intros ->. Qed.

(** Visibility after a write through a reference: below the node
    written it is that of its image, elsewhere it is what it was. *)
Lemma visible_modify f : forall p q root,
  visible q (modify f p root)
  = match strip_prefix p q with
    | Some r => (visible p root
                 && match get p root with
                    | Some d => visible r (f d)
                    | None => false
                    end)%bool
    | None => visible q root
    end.
Proof.
  induction p as [|i p IH]; intros q root.
  - reflexivity.
  - destruct q as [|j q]; [simpl; destruct (nth_error (kids root) i); reflexivity|].
    cbn [modify strip_prefix].
    destruct (is_arr (Node.children root)) eqn:Hshown.
    + (* the children of [root] are shown *)
      pose proof (kids_shown root Hshown) as Hk.
      destruct (nth_error (kids root) i) as [c|] eqn:Hc.
      * assert (Hch : slot_list (Node.children
                                   (set_kids (replace_nth i (modify f p c) (kids root)) root))
                      = replace_nth i (modify f p c) (kids root)).
        { unfold set_kids. rewrite Hshown. reflexivity. }
        cbn [visible get]. rewrite Hch, <- Hk.
        destruct (Nat.eqb_spec i j) as [<-|Hij].
        { rewrite (nth_error_replace_nth_same _ _ _ _ Hc), Hc, IH.
          destruct (strip_prefix p q); reflexivity. }
        { now rewrite (nth_error_replace_nth_other _ _ _ _ Hij). }
      * cbn [visible get]. rewrite <- Hk.
        destruct (Nat.eqb_spec i j) as [<-|Hij]; [|reflexivity].
        rewrite Hc. destruct (strip_prefix p q); reflexivity.
    + (* they are not: nothing below [root] is visible *)
      assert (Hafter : is_arr (Node.children
                (match nth_error (kids root) i with
                 | Some c => set_kids (replace_nth i (modify f p c) (kids root)) root
                 | None => root
                 end)) = false).
      { destruct (nth_error (kids root) i); [|exact Hshown].
        rewrite children_set_kids; assumption. }
      rewrite (visible_hidden_below j q _ Hafter).
      rewrite (visible_hidden_below j q _ Hshown).
      destruct (Nat.eqb i j); [|reflexivity].
      destruct (strip_prefix p q); [|reflexivity].
      now rewrite (visible_hidden_below i p _ Hshown).
Qed.

Lemma visible_app p r root :
  visible (p ++ r) root
  = (visible p root
     && match get p root with Some d => visible r d | None => false end)%bool.
Proof.
  pose proof (visible_modify (fun d => d) p (p ++ r) root) as H.
  rewrite strip_prefix_app in H. rewrite <- H. clear H.
  f_equal. revert root. induction p as [|i p IH]; intros root; simpl; auto.
  destruct (nth_error (kids root) i) as [c|] eqn:Hc; [|reflexivity].
  rewrite <- IH.
  unfold set_kids, kids in *. destruct root as [dat j cs hs px py px0 py0]; simpl in *.
  assert (Hsame : forall l, nth_error l i = Some c -> replace_nth i c l = l).
  { clear. intros l. revert i. induction l as [|a l IH]; intros [|i]; simpl;
      try discriminate; intros H.
    - now injection H as ->.
    - now rewrite IH. }
  destruct cs as [| |cs]; simpl in *.
  - destruct hs as [| |hs]; simpl in *; try reflexivity. now rewrite Hsame.
  - destruct hs as [| |hs]; simpl in *; try reflexivity. now rewrite Hsame.
  - now rewrite Hsame.
Qed.

(* ------------------------------------------------------------------ *)
(** *** The collapse state of a tree *)

Lemma shape_eq d :
  shape d
  = Node.mk (Person.named "") JUndefined
            (match Node.children d with
             | Arr l => Arr (map shape l)
             | Null => Null
             | Undefined => Undefined
             end)
            (match Node._children d with
             | Arr l => Arr (map shape l)
             | Null => Null
             | Undefined => Undefined
             end)
            None None None None.
Proof. destruct d; reflexivity. Qed.

Lemma shape_keeps_lists f d : keeps_lists f -> shape (f d) = shape d.
Proof. intros Hf. rewrite !shape_eq. now destruct (Hf d) as [-> ->]. Qed.

Lemma kids_shape d : kids (shape d) = map shape (kids d).
Proof.
  rewrite shape_eq. unfold kids. simpl.
  destruct (Node.children d); simpl; auto; destruct (Node._children d); reflexivity.
Qed.

Lemma shape_set_kids l d : shape (set_kids l d) = set_kids (map shape l) (shape d).
Proof.
  rewrite (shape_eq d). unfold set_kids.
  destruct d as [dat i c h px py px0 py0]; simpl.
  destruct c; simpl; auto; destruct h; reflexivity.
Qed.

Lemma map_replace_nth_comm {A B} (g : A -> B) l i a :
  map g (replace_nth i a l) = replace_nth i (g a) (map g l).
Proof.
  revert i; induction l as [|h r IH]; intros [|i]; simpl; auto. now rewrite IH.
Qed.

(** The collapse state after a write is the write done on the collapse
    state, for a write that goes through [shape]. *)
Lemma shape_modify f g :
  (forall d, shape (f d) = g (shape d)) ->
  forall p root, shape (modify f p root) = modify g p (shape root).
Proof.
  intros Hfg. induction p as [|i p IH]; intros root; simpl; [apply Hfg|].
  rewrite kids_shape, nth_error_map.
  destruct (nth_error (kids root) i) as [c|]; simpl; [|reflexivity].
  now rewrite shape_set_kids, map_replace_nth_comm, IH.
Qed.

Lemma modify_fixed : forall p root,
  modify (fun d => d) p root = root.
Proof.
  induction p as [|i p IH]; intros root; simpl; auto.
  destruct (nth_error (kids root) i) as [c|] eqn:Hc; [|reflexivity].
  rewrite IH.
  assert (Hsame : forall l, nth_error l i = Some c -> replace_nth i c l = l).
  { clear. intros l. revert i. induction l as [|a l IH]; intros [|i]; simpl;
      try discriminate; intros H.
    - now injection H as ->.
    - now rewrite IH. }
  rewrite (Hsame _ Hc). unfold set_kids, kids.
  destruct root as [dat j cs hs px py px0 py0]; simpl.
  destruct cs; simpl; auto; destruct hs; reflexivity.
Qed.

Lemma shape_modify_keeps_lists f p root :
  keeps_lists f -> shape (modify f p root) = shape root.
Proof.
  intros Hf. rewrite (shape_modify f (fun d => d)).
  - apply modify_fixed.
  - intros d. now apply shape_keeps_lists.
Qed.

Lemma shape_forEach f a :
  (forall q, keeps_lists (f q)) ->
  forall root, shape (forEach f a root) = shape root.
Proof.
  intros Hf. unfold forEach. induction a as [|q r IH]; intros root; simpl; auto.
  now rewrite IH, shape_modify_keeps_lists.
Qed.

Lemma shape_key_pass a : forall root i,
  shape (fst (key_pass a root i)) = shape root.
Proof.
  unfold key_pass. induction a as [|q r IH]; intros root i; simpl; auto.
  rewrite (surjective_pairing (key_step (root, i) q)), IH.
  unfold key_step; simpl. destruct (get q root); simpl; auto.
  apply shape_modify_keeps_lists, keeps_lists_node_key.
Qed.

Lemma shape_treeLayout position root : shape (treeLayout position root) = shape root.
Proof.
  unfold treeLayout. apply shape_forEach. intros q. apply keeps_lists_set_xy.
Qed.

(** A redraw of tree_logic.js leaves the collapse state as it is. *)
Lemma shape_tree_updateTree position clientWidth source v :
  shape (rootNodeD3 (TreeLogic.updateTree position clientWidth source v))
  = shape (rootNodeD3 v).
Proof.
  unfold TreeLogic.updateTree. cbn [rootNodeD3].
  rewrite shape_forEach by (intros; apply keeps_lists_stash).
  rewrite shape_key_pass. unfold TreeLogic.laid_out.
  rewrite shape_treeLayout.
  apply shape_modify_keeps_lists, keeps_lists_tree_default_start.
Qed.

Lemma shape_toggleChildren d : shape (toggleChildren d) = toggleChildren (shape d).
Proof.
  rewrite (shape_eq d). unfold toggleChildren.
  destruct d as [dat i c h px py px0 py0]; simpl.
  destruct c; simpl; destruct h; reflexivity.
Qed.

Lemma visible_shape : forall q root, visible q (shape root) = visible q root.
Proof.
  induction q as [|i q IH]; intros root; simpl; auto.
  rewrite (shape_eq root). simpl.
  destruct (Node.children root) as [| |cs]; simpl; auto.
  rewrite nth_error_map. destruct (nth_error cs i); simpl; auto.
Qed.

Lemma get_shape : forall q root, get q (shape root) = option_map shape (get q root).
Proof.
  induction q as [|i q IH]; intros root; simpl; auto.
  rewrite kids_shape, nth_error_map.
  destruct (nth_error (kids root) i); simpl; auto.
Qed.

(* ================================================================== *)
(** ** A click on a node *)
(* ================================================================== *)

Lemma tree_click_drawing position clientWidth d pg v n :
  treeContainer pg = Drawing v ->
  get d (rootNodeD3 v) = Some n ->
  TreeLogic.click position clientWidth d pg
  = mkPage (Drawing (TreeLogic.updateTree position clientWidth d
                       (TreeLogic.toggle_at d v)))
           (Some (displayDetails (Node.data n))).
Proof. intros Hc Hn. unfold TreeLogic.click. now rewrite Hc, Hn. Qed.

Lemma visible_tree_updateTree position clientWidth source v q :
  visible q (rootNodeD3 (TreeLogic.updateTree position clientWidth source v))
  = visible q (rootNodeD3 v).
Proof.
  rewrite <- visible_shape, shape_tree_updateTree. apply visible_shape.
Qed.

Lemma visible_toggled i r n :
  visible (i :: r) (toggleChildren n)
  = if is_arr (Node.children n) then false
    else match nth_error (slot_list (Node._children n)) i with
         | Some c => visible r c
         | None => false
         end.
Proof.
  unfold toggleChildren. destruct n as [dat j c h px py px0 py0]; simpl.
  destruct c; simpl; try reflexivity. destruct i; reflexivity.
Qed.

(** X7.  A click on a node of the drawing redraws it with that node
    toggled.  If the node showed its children, nothing below it is drawn
    any more.  If it did not, each of its hidden children is drawn
    wherever the node itself is, and below a child exactly what that
    child was showing when it was hidden.  The node itself, and every
    node that is not below it, is drawn after the click if and only if it
    was drawn before. *)
Theorem click_toggles_visibility :
  forall (position : Node.t -> path -> Q * Q) (clientWidth : Q)
         (d : path) (pg : page) (v : view) (n : Node.t),
    treeContainer pg = Drawing v ->
    get d (rootNodeD3 v) = Some n ->
    exists v',
      treeContainer (TreeLogic.click position clientWidth d pg) = Drawing v'
      /\ (is_arr (Node.children n) = true ->
          forall r, r <> [] -> visible (d ++ r) (rootNodeD3 v') = false)
      /\ (is_arr (Node.children n) = false ->
          forall i r,
            visible (d ++ i :: r) (rootNodeD3 v')
            = (visible d (rootNodeD3 v)
               && match nth_error (slot_list (Node._children n)) i with
                  | Some c => visible r c
                  | None => false
                  end)%bool)
      /\ visible d (rootNodeD3 v') = visible d (rootNodeD3 v)
      /\ (forall q, strip_prefix d q = None ->
            visible q (rootNodeD3 v') = visible q (rootNodeD3 v))
      /\ (forall q, In q (descendants (rootNodeD3 v')) <-> visible q (rootNodeD3 v') = true).
Proof.
  intros position clientWidth d pg v n Hpg Hn.
  rewrite (tree_click_drawing _ _ _ _ _ _ Hpg Hn). cbn [treeContainer].
  eexists. split; [reflexivity|].
  assert (Hvis : forall q,
            visible q (rootNodeD3 (TreeLogic.updateTree position clientWidth d
                                     (TreeLogic.toggle_at d v)))
            = match strip_prefix d q with
              | Some r => (visible d (rootNodeD3 v) && visible r (toggleChildren n))%bool
              | None => visible q (rootNodeD3 v)
              end).
  { intros q. rewrite visible_tree_updateTree.
    unfold TreeLogic.toggle_at. cbn [rootNodeD3].
    now rewrite visible_modify, Hn. }
  split; [|split; [|split; [|split]]].
  - intros Hshown r Hr. rewrite Hvis, strip_prefix_app.
    destruct r as [|i r]; [contradiction|].
    rewrite visible_toggled, Hshown. apply andb_false_r.
  - intros Hhidden i r. rewrite Hvis, strip_prefix_app.
    now rewrite visible_toggled, Hhidden.
  - rewrite Hvis, strip_prefix_self. simpl. apply andb_true_r.
  - intros q Hq. now rewrite Hvis, Hq.
  - intros q. apply in_descendants_visible.
Qed.

(** A click on the collapsed grandmother of the two-branch document shows
    her one hidden child. *)
Lemma click_toggles_visibility_witness :
  exists v',
    treeContainer (TreeLogic.click sample_position 1000 [0; 0]%nat
                     (mkPage (Drawing two_branches_view) None)) = Drawing v'
    /\ visible [0; 0; 0]%nat (rootNodeD3 v') = true
    /\ visible [1; 0]%nat (rootNodeD3 v') = visible [1; 0]%nat (rootNodeD3 two_branches_view).
Proof.
  assert (E : exists n c, get [0; 0]%nat (rootNodeD3 two_branches_view) = Some n
                          /\ is_arr (Node.children n) = false
                          /\ nth_error (slot_list (Node._children n)) 0 = Some c
                          /\ visible [0; 0]%nat (rootNodeD3 two_branches_view) = true).
  { vm_compute. do 2 eexists. repeat split; reflexivity. }
  destruct E as (n & c & Hn & Hhidden & Hc & Hshown).
  remember two_branches_view as drawn eqn:Hdrawn. clear Hdrawn.
  destruct (click_toggles_visibility sample_position 1000 [0; 0]%nat
              (mkPage (Drawing drawn) None) drawn n eq_refl Hn)
    as (v' & Hv' & _ & Hexp & _ & Hframe & _).
  exists v'. split; [exact Hv'|]. split.
  - change [0; 0; 0]%nat with ([0; 0] ++ 0 :: [])%nat.
    rewrite (Hexp Hhidden 0%nat []), Hc, Hshown. reflexivity.
  - apply Hframe. reflexivity.
Defined.

Lemma exclusive_shape d : exclusive (shape d) <-> exclusive d.
Proof.
  rewrite (shape_eq d). unfold exclusive.
  destruct d as [dat i c h px py px0 py0]; simpl. destruct c, h; simpl; tauto.
Qed.

Lemma visible_toggled_twice n r :
  exclusive n -> visible r (toggleChildren (toggleChildren n)) = visible r n.
Proof.
  intros Hex. destruct r as [|i r]; [reflexivity|]. simpl.
  destruct (toggleChildren_twice_node n Hex) as [Hc _].
  destruct (Node.children (toggleChildren (toggleChildren n))), (Node.children n);
    simpl in *; try reflexivity; try contradiction. now subst.
Qed.

Lemma visible_toggle_twice d root n :
  get d root = Some n -> exclusive n ->
  forall q, visible q (modify toggleChildren d (modify toggleChildren d root))
            = visible q root.
Proof.
  intros Hn Hex q. rewrite visible_modify.
  destruct (strip_prefix d q) as [r|] eqn:Hs.
  - rewrite get_modify_same, Hn. simpl.
    rewrite visible_modify, strip_prefix_self, Hn. simpl. rewrite andb_true_r.
    rewrite (visible_toggled_twice n r Hex).
    rewrite (strip_prefix_some _ _ _ Hs), visible_app, Hn. reflexivity.
  - now rewrite visible_modify, Hs.
Qed.

(** X8.  Two clicks on the same node bring back the drawing: the nodes
    drawn after the second click are those that were drawn before the
    first. *)
Theorem click_twice_restores_visibility :
  forall (position : Node.t -> path -> Q * Q) (clientWidth : Q)
         (d : path) (pg : page) (v : view) (n : Node.t),
    treeContainer pg = Drawing v ->
    get d (rootNodeD3 v) = Some n ->
    exclusive n ->
    exists v2,
      treeContainer (TreeLogic.click position clientWidth d
                       (TreeLogic.click position clientWidth d pg)) = Drawing v2
      /\ (forall q, visible q (rootNodeD3 v2) = visible q (rootNodeD3 v))
      /\ (forall q, In q (descendants (rootNodeD3 v2))
                    <-> In q (descendants (rootNodeD3 v))).
Proof.
  intros position clientWidth d pg v n Hpg Hn Hex.
  rewrite (tree_click_drawing _ _ _ _ _ _ Hpg Hn).
  set (v1 := TreeLogic.updateTree position clientWidth d (TreeLogic.toggle_at d v)).
  assert (Hshape1 : shape (rootNodeD3 v1)
                    = modify toggleChildren d (shape (rootNodeD3 v))).
  { unfold v1. rewrite shape_tree_updateTree. unfold TreeLogic.toggle_at.
    cbn [rootNodeD3]. apply shape_modify, shape_toggleChildren. }
  assert (Hn1 : exists n1, get d (rootNodeD3 v1) = Some n1).
  { pose proof (get_shape d (rootNodeD3 v1)) as E.
    rewrite Hshape1, get_modify_same, get_shape, Hn in E.
    cbn [option_map] in E. revert E.
    destruct (get d (rootNodeD3 v1)) as [n1|]; [eauto | discriminate]. }
  destruct Hn1 as [n1 Hn1].
  rewrite (tree_click_drawing position clientWidth d
             (mkPage (Drawing v1) (Some (displayDetails (Node.data n)))) v1 n1
             eq_refl Hn1).
  cbn [treeContainer]. eexists. split; [reflexivity|].
  assert (Hvis : forall q,
            visible q (rootNodeD3 (TreeLogic.updateTree position clientWidth d
                                     (TreeLogic.toggle_at d v1)))
            = visible q (rootNodeD3 v)).
  { intros q. rewrite visible_tree_updateTree.
    unfold TreeLogic.toggle_at. cbn [rootNodeD3].
    rewrite <- visible_shape, (shape_modify _ _ shape_toggleChildren), Hshape1.
    rewrite (visible_toggle_twice d (shape (rootNodeD3 v)) (shape n)).
    - apply visible_shape.
    - now rewrite get_shape, Hn.
    - now apply exclusive_shape. }
  split; [exact Hvis|].
  intros q. now rewrite !in_descendants_visible, Hvis.
Qed.

(** The grandmother of the two-branch document, clicked twice. *)
Lemma click_twice_restores_visibility_witness :
  exists v2,
    treeContainer (TreeLogic.click sample_position 1000 [0; 0]%nat
                     (TreeLogic.click sample_position 1000 [0; 0]%nat
                        (mkPage (Drawing two_branches_view) None))) = Drawing v2
    /\ forall q, In q (descendants (rootNodeD3 v2))
                 <-> In q (descendants (rootNodeD3 two_branches_view)).
Proof.
  assert (E : exists n, get [0; 0]%nat (rootNodeD3 two_branches_view) = Some n
                        /\ is_arr (Node.children n) = false).
  { vm_compute. eexists. split; reflexivity. }
  destruct E as (n & Hn & Hhidden).
  destruct (click_twice_restores_visibility sample_position 1000 [0; 0]%nat
              (mkPage (Drawing two_branches_view) None) two_branches_view n
              eq_refl Hn)
    as (v2 & Hv2 & _ & Hin).
  - unfold exclusive. now rewrite Hhidden.
  - exists v2. split; [exact Hv2 | exact Hin].
Defined.

(** A write below, beside or above a node leaves the subtree of that node
    as it is, unless the subtree holds the node written. *)
Lemma get_modify_off_path f :
  (forall d, kids (f d) = kids d) ->
  forall p q root,
    strip_prefix q p = None -> get q (modify f p root) = get q root.
Proof.
  intros Hf. induction p as [|i p IH]; intros q root Hq.
  - destruct q as [|j q]; [discriminate|]. simpl. now rewrite Hf.
  - destruct q as [|j q]; [discriminate|]. simpl in *.
    destruct (nth_error (kids root) i) as [c|] eqn:Hc; [|reflexivity].
    assert (Hne : kids root <> []).
    { intros E. rewrite E in Hc. destruct i; discriminate. }
    simpl. rewrite (kids_set_kids _ _ Hne).
    destruct (Nat.eqb_spec j i) as [->|Hji].
    + rewrite (nth_error_replace_nth_same _ _ _ _ Hc), Hc. now apply IH.
    + rewrite nth_error_replace_nth_other by congruence. reflexivity.
Qed.

(** X9.  A click shows the details of the record of the node clicked,
    and it leaves the collapse state of every subtree that does not hold
    that node exactly as it was: the subtrees beside it, and those of its
    own descendants. *)
Theorem click_leaves_other_subtrees :
  forall (position : Node.t -> path -> Q * Q) (clientWidth : Q)
         (d : path) (pg : page) (v : view) (n : Node.t),
    treeContainer pg = Drawing v ->
    get d (rootNodeD3 v) = Some n ->
    exists v',
      treeContainer (TreeLogic.click position clientWidth d pg) = Drawing v'
      /\ detailPanel (TreeLogic.click position clientWidth d pg)
         = Some (displayDetails (Node.data n))
      /\ forall q, strip_prefix q d = None ->
           option_map shape (get q (rootNodeD3 v'))
           = option_map shape (get q (rootNodeD3 v)).
Proof.
  intros position clientWidth d pg v n Hpg Hn.
  rewrite (tree_click_drawing _ _ _ _ _ _ Hpg Hn). cbn [treeContainer detailPanel].
  eexists. split; [reflexivity|]. split; [reflexivity|].
  intros q Hq. rewrite <- !get_shape, shape_tree_updateTree.
  unfold TreeLogic.toggle_at. cbn [rootNodeD3].
  rewrite (shape_modify _ _ shape_toggleChildren).
  apply get_modify_off_path; [exact kids_toggleChildren | exact Hq].
Qed.

(** The father's branch of the two-branch document keeps its state when
    the grandmother is clicked. *)
Lemma click_leaves_other_subtrees_witness :
  exists v',
    treeContainer (TreeLogic.click sample_position 1000 [0; 0]%nat
                     (mkPage (Drawing two_branches_view) None)) = Drawing v'
    /\ option_map shape (get [1%nat] (rootNodeD3 v'))
       = option_map shape (get [1%nat] (rootNodeD3 two_branches_view)).
Proof.
  assert (E : exists n, get [0; 0]%nat (rootNodeD3 two_branches_view) = Some n).
  { vm_compute. eexists. reflexivity. }
  destruct E as (n & Hn).
  destruct (click_leaves_other_subtrees sample_position 1000 [0; 0]%nat
              (mkPage (Drawing two_branches_view) None) two_branches_view n
              eq_refl Hn)
    as (v' & Hv' & _ & Hframe).
  exists v'. split; [exact Hv' | apply Hframe; reflexivity].
Defined.

(* ================================================================== *)
(** ** The tree mirrors the document *)
(* ================================================================== *)

Section TreeLogicRelated.

Variable position : Node.t -> path -> Q * Q.
Variable clientWidth : Q.
Variable R : Node.t -> Node.t -> Prop.

Hypothesis R_refl : forall o, R o o.
Hypothesis R_trans : forall x1 x2 x3, R x1 x2 -> R x2 x3 -> R x1 x3.
Hypothesis R_default_start : forall d, R (own d) (own (TreeLogic.default_start d)).
Hypothesis R_set_xy : forall a b d, R (own d) (own (Node.set_xy a b d)).
Hypothesis R_node_key : forall d i, R (own d) (own (fst (node_key d i))).
Hypothesis R_stash : forall d, R (own d) (own (stash d)).
Hypothesis R_toggle : forall d, R (own d) (own (toggleChildren d)).

Lemma tree_laid_out_related source v :
  related R (rootNodeD3 v) (TreeLogic.laid_out position source v).
Proof.
  unfold TreeLogic.laid_out, treeLayout.
  eapply related_trans; [exact R_trans | |].
  - apply related_modify; auto.
    apply keeps_lists_kids, keeps_lists_tree_default_start.
  - apply related_forEach; auto.
Qed.

Lemma tree_updateTree_related source v :
  related R (rootNodeD3 v)
          (rootNodeD3 (TreeLogic.updateTree position clientWidth source v)).
Proof.
  unfold TreeLogic.updateTree. cbn [rootNodeD3].
  eapply related_trans; [exact R_trans | apply tree_laid_out_related |].
  eapply related_trans; [exact R_trans | apply related_key_pass; auto |].
  apply related_forEach; auto.
Qed.

Lemma tree_run_related steps : forall v,
  related R (rootNodeD3 v)
          (rootNodeD3 (TreeLogic.run position clientWidth steps v)).
Proof.
  unfold TreeLogic.run. induction steps as [|s r IH]; intros v; simpl.
  - now apply related_refl.
  - eapply related_trans; [exact R_trans | | apply IH].
    destruct s as [d | source | t]; cbn [TreeLogic.run_step].
    + unfold TreeLogic.toggle_at. cbn [rootNodeD3].
      apply related_modify; auto. exact kids_toggleChildren.
    + apply tree_updateTree_related.
    + now apply related_refl.
Qed.

End TreeLogicRelated.

Lemma related_projection {A} (f : Node.t -> A) R root root' :
  (forall d, f (own d) = f d) ->
  (forall o o', R o o' -> f o' = f o) ->
  related R root root' ->
  forall p, option_map f (get p root') = option_map f (get p root).
Proof.
  intros Hown HR Hrel p. specialize (Hrel p). unfold own_at in Hrel.
  destruct (get p root) as [d|]; simpl in *.
  - destruct Hrel as (o' & Ho' & Hr).
    destruct (get p root') as [d'|]; simpl in *; [|discriminate].
    injection Ho' as <-. now rewrite <- (Hown d'), (HR _ _ Hr), Hown.
  - destruct (get p root'); [discriminate | reflexivity].
Qed.

Lemma kids_hierarchy r : kids (hierarchy r) = map hierarchy (record_children r).
Proof.
  unfold kids. rewrite children_hierarchy, hidden_hierarchy.
  destruct (record_children r); reflexivity.
Qed.

Lemma record_and_id_hierarchy : forall p r,
  option_map record_and_id (get p (hierarchy r))
  = option_map (fun rec => (rec, JUndefined)) (record_at p r).
Proof.
  induction p as [|i p IH]; intros r; simpl.
  - destruct r as [n i [[|c cs]|] co om de]; reflexivity.
  - rewrite kids_hierarchy, nth_error_map.
    destruct (nth_error (record_children r) i); simpl; auto.
Qed.

Lemma record_and_id_collapseRecursively q d :
  option_map record_and_id (get q (collapseRecursively d))
  = option_map record_and_id (get q d).
Proof.
  rewrite get_collapseRecursively. destruct (get q d) as [n|]; simpl; [|reflexivity].
  unfold record_and_id.
  now destruct (collapseRecursively_own_fields n) as (-> & -> & _).
Qed.

Lemma record_and_id_collapse_below q c :
  option_map record_and_id (get q (collapse_below c))
  = option_map record_and_id (get q c).
Proof.
  unfold collapse_below.
  destruct (Node.children c) as [| |gs] eqn:Hc; try reflexivity.
  destruct q as [|j q]; [reflexivity|]. simpl.
  unfold kids. cbn [Node.set_children Node.children is_arr slot_list].
  rewrite Hc. cbn [is_arr slot_list]. rewrite nth_error_map.
  destruct (nth_error gs j); simpl; [apply record_and_id_collapseRecursively | reflexivity].
Qed.

Lemma record_and_id_initialCollapse q root :
  option_map record_and_id (get q (initialCollapse root))
  = option_map record_and_id (get q root).
Proof.
  unfold initialCollapse.
  destruct (Node.children root) as [| |ps] eqn:Hc; try reflexivity.
  destruct q as [|j q]; [reflexivity|]. simpl.
  unfold kids. cbn [Node.set_children Node.children is_arr slot_list].
  rewrite Hc. cbn [is_arr slot_list]. rewrite nth_error_map.
  destruct (nth_error ps j); simpl; [apply record_and_id_collapse_below | reflexivity].
Qed.

Lemma record_and_id_set_start a b q root :
  option_map record_and_id (get q (Node.set_y0 b (Node.set_x0 a root)))
  = option_map record_and_id (get q root).
Proof. destruct q; reflexivity. Qed.

(** The tree that the load draws from, node by node. *)
Lemma record_and_id_loaded position clientWidth r v p :
  treeContainer (TreeLogic.load position clientWidth (Parsed (Some r))) = Drawing v ->
  exists root0,
    v = TreeLogic.updateTree position clientWidth [] (TreeLogic.empty_view clientWidth root0)
    /\ option_map record_and_id (get p root0)
       = option_map (fun rec => (rec, JUndefined)) (record_at p r).
Proof.
  unfold TreeLogic.load. destruct (bad_shape (Some r)); [discriminate|].
  cbn [treeContainer]. intros [= <-]. eexists. split; [reflexivity|].
  now rewrite record_and_id_initialCollapse, record_and_id_set_start,
    record_and_id_hierarchy.
Qed.

Lemma keeps_data_default_start d :
  keeps_data (own d) (own (TreeLogic.default_start d)).
Proof.
  unfold keeps_data, TreeLogic.default_start.
  destruct (Node.x0 d); simpl; destruct (Node.y0 d); reflexivity.
Qed.

Lemma keeps_data_node_key d i : keeps_data (own d) (own (fst (node_key d i))).
Proof.
  unfold keeps_data, node_key. destruct (truthy (Node.id d)); [reflexivity|].
  destruct (truthy (Person.id (Node.data d))); reflexivity.
Qed.

Lemma keeps_data_toggleChildren d : keeps_data (own d) (own (toggleChildren d)).
Proof. unfold keeps_data. simpl. apply toggleChildren_own_fields. Qed.

Lemma tree_run_keeps_data position clientWidth steps v :
  related keeps_data (rootNodeD3 v)
          (rootNodeD3 (TreeLogic.run position clientWidth steps v)).
Proof.
  apply tree_run_related; try (intros; reflexivity).
  - unfold keeps_data. intros x1 x2 x3 H12 H23. congruence.
  - exact keeps_data_default_start.
  - exact keeps_data_node_key.
  - exact keeps_data_toggleChildren.
Qed.

(** X10.  Whatever is toggled, redrawn or zoomed after a document is
    loaded, the tree mirrors the document: a reference leads to a node
    exactly when the same indices lead to a record of the document, and
    the node carries that record; so a click on it shows the details of
    that record. *)
Theorem tree_mirrors_document :
  forall (position : Node.t -> path -> Q * Q) (clientWidth : Q)
         (familyData : Person.t) (steps : list step) (v : view),
    treeContainer (TreeLogic.load position clientWidth (Parsed (Some familyData)))
    = Drawing v ->
    (forall p,
        option_map Node.data
                   (get p (rootNodeD3 (TreeLogic.run position clientWidth steps v)))
        = record_at p familyData)
    /\ (forall p record panel0,
          record_at p familyData = Some record ->
          detailPanel
            (TreeLogic.click position clientWidth p
               (mkPage (Drawing (TreeLogic.run position clientWidth steps v)) panel0))
          = Some (displayDetails record)).
Proof.
  intros position clientWidth r steps v Hload.
  assert (Hdata : forall p,
            option_map Node.data
                       (get p (rootNodeD3 (TreeLogic.run position clientWidth steps v)))
            = record_at p r).
  { intros p.
    destruct (record_and_id_loaded _ _ _ _ p Hload) as (root0 & -> & Hroot0).
    rewrite (related_projection Node.data keeps_data _ _
               (fun d => eq_refl) (fun o o' H => H)
               (tree_run_keeps_data position clientWidth steps _) p).
    assert (Hfirst : related keeps_data
                       (rootNodeD3 (TreeLogic.empty_view clientWidth root0))
                       (rootNodeD3 (TreeLogic.updateTree position clientWidth []
                                      (TreeLogic.empty_view clientWidth root0)))).
    { exact (tree_run_keeps_data position clientWidth [Redraw []]
               (TreeLogic.empty_view clientWidth root0)). }
    rewrite (related_projection Node.data keeps_data _ _
               (fun d => eq_refl) (fun o o' H => H) Hfirst p).
    cbn [TreeLogic.empty_view rootNodeD3].
    destruct (get p root0) as [d|]; destruct (record_at p r) as [rec|];
      simpl in *; try discriminate; [|reflexivity].
    unfold record_and_id in Hroot0. congruence. }
  split; [exact Hdata|].
  intros p record panel0 Hrec. specialize (Hdata p). rewrite Hrec in Hdata.
  destruct (get p (rootNodeD3 (TreeLogic.run position clientWidth steps v)))
    as [n|] eqn:Hn; [|discriminate].
  rewrite (tree_click_drawing position clientWidth p
             (mkPage (Drawing (TreeLogic.run position clientWidth steps v)) panel0)
             (TreeLogic.run position clientWidth steps v) n eq_refl Hn).
  cbn [detailPanel]. simpl in Hdata. congruence.
Qed.

(** The mother's branch of the two-branch document is expanded, and the
    drawing still mirrors the document. *)
Lemma tree_mirrors_document_witness :
  exists v,
    treeContainer (TreeLogic.load sample_position 1000 (Parsed (Some two_branches)))
    = Drawing v
    /\ forall p,
         option_map Node.data
                    (get p (rootNodeD3 (TreeLogic.run sample_position 1000
                                          expand_and_collapse v)))
         = record_at p two_branches.
Proof.
  assert (E : exists v,
             treeContainer (TreeLogic.load sample_position 1000
                              (Parsed (Some two_branches))) = Drawing v).
  { vm_compute. eexists. reflexivity. }
  destruct E as (v & Hv). exists v. split; [exact Hv|].
  apply (tree_mirrors_document sample_position 1000 two_branches
           expand_and_collapse v Hv).
Defined.

(* ================================================================== *)
(** ** Identifiers are never shared *)
(* ================================================================== *)

Lemma synthetic_id_inj a b : synthetic_id a = synthetic_id b -> a = b.
Proof.
  unfold synthetic_id. simpl. intros [= H].
  apply DecimalNat.Unsigned.to_uint_inj.
  apply (f_equal NilEmpty.uint_of_string) in H.
  rewrite !NilEmpty.usu in H. now injection H.
Qed.

Lemma record_and_id_at_modify g :
  (forall d, kids (g d) = kids d) ->
  forall p q root,
    record_and_id_at q (modify g p root)
    = option_map (fun d => record_and_id (if path_eq_dec q p then g d else d))
                 (get q root).
Proof.
  intros Hg p q root. unfold record_and_id_at.
  pose proof (own_at_modify g Hg p q root) as E. unfold own_at in E.
  destruct (get q (modify g p root)) as [d'|]; destruct (get q root) as [d|];
    cbn [option_map] in *; try discriminate; [|reflexivity].
  assert (E' : own d' = own (if path_eq_dec q p then g d else d)) by congruence.
  f_equal. change (record_and_id d') with (record_and_id (own d')).
  rewrite E'. reflexivity.
Qed.

Lemma ids_ok_ext root root' index :
  (forall q, record_and_id_at q root' = record_and_id_at q root) ->
  ids_ok root index -> ids_ok root' index.
Proof.
  intros E (H1 & H2 & H3). split; [|split].
  - intros q dat i. rewrite E. apply H1.
  - intros q1 q2 dat1 dat2 i. rewrite !E. apply H2.
  - intros q dat i. rewrite E. apply H3.
Qed.

Lemma ids_ok_related root root' index :
  related keeps_record_and_id root root' -> ids_ok root index -> ids_ok root' index.
Proof.
  intros Hrel. apply ids_ok_ext. intros q. unfold record_and_id_at.
  apply (related_projection record_and_id keeps_record_and_id root root');
    auto.
Qed.

Lemma node_key_without_record_id d i :
  truthy (Person.id (Node.data d)) = false ->
  (truthy (Node.id d) = true /\ node_key d i = (d, i))
  \/ (truthy (Node.id d) = false
      /\ node_key d i = (Node.set_id (JStr (synthetic_id (S i))) d, S i)).
Proof.
  intros H. unfold node_key. rewrite H.
  destruct (truthy (Node.id d)); [left | right]; split; reflexivity.
Qed.

(** Keying one node keeps the identifiers apart. *)
Lemma key_step_ids_ok root index p d :
  ids_ok root index -> get p root = Some d ->
  ids_ok (modify (fun n => fst (node_key n index)) p root) (snd (node_key d index)).
Proof.
  intros (H1 & H2 & H3) Hd.
  set (root' := modify (fun n => fst (node_key n index)) p root).
  assert (Hat : forall q,
            record_and_id_at q root'
            = option_map (fun d0 => record_and_id
                                      (if path_eq_dec q p
                                       then fst (node_key d0 index) else d0))
                         (get q root)).
  { intros q. apply (record_and_id_at_modify (fun n => fst (node_key n index))).
    apply keeps_lists_kids, keeps_lists_node_key. }
  assert (Hother : forall q, q <> p ->
            record_and_id_at q root' = record_and_id_at q root).
  { intros q Hq. rewrite Hat. unfold record_and_id_at.
    destruct (get q root); [|reflexivity]. cbn [option_map].
    destruct (path_eq_dec q p); [contradiction | reflexivity]. }
  assert (Hself : record_and_id_at p root'
                  = Some (record_and_id (fst (node_key d index)))).
  { rewrite Hat, Hd. cbn [option_map].
    destruct (path_eq_dec p p); [reflexivity | contradiction]. }
  assert (Hp : record_and_id_at p root = Some (Node.data d, Node.id d)).
  { unfold record_and_id_at. now rewrite Hd. }
  assert (Hnorec : truthy (Person.id (Node.data d)) = false) by (eapply H3; eauto).
  clearbody root'. clear Hat.
  destruct (node_key_without_record_id d index Hnorec) as [(Hid & E) | (Hid & E)];
    rewrite E in *; clear E; cbn [fst snd] in *.
  - (* the node has its identifier: nothing changes *)
    apply (ids_ok_ext root); [|now repeat split].
    intros q. destruct (path_eq_dec q p) as [->|Hq]; [|now apply Hother].
    now rewrite Hself, Hp.
  - (* it gets the next value of the counter *)
    change (record_and_id (Node.set_id (JStr (synthetic_id (S index))) d))
      with (Node.data d, JStr (synthetic_id (S index))) in Hself.
    assert (Hfresh : forall q dat,
              record_and_id_at q root = Some (dat, JStr (synthetic_id (S index))) -> False).
    { intros q dat Hq. destruct (H1 _ _ _ Hq) as [E | (k & Hk & E)]; [discriminate|].
      assert (S index = k) by (apply synthetic_id_inj; congruence). lia. }
    split; [|split].
    + intros q dat i Hq. destruct (path_eq_dec q p) as [->|Hqp].
      * right. exists (S index). split; [lia | congruence].
      * rewrite (Hother _ Hqp) in Hq.
        destruct (H1 _ _ _ Hq) as [E | (k & Hk & E)]; [now left|].
        right. exists k. split; [lia | exact E].
    + intros q1 q2 dat1 dat2 i Hq1 Hq2 Ht.
      destruct (path_eq_dec q1 p) as [->|Hq1p];
        destruct (path_eq_dec q2 p) as [->|Hq2p]; auto.
      * exfalso. rewrite (Hother _ Hq2p) in Hq2.
        apply (Hfresh q2 dat2). congruence.
      * exfalso. rewrite (Hother _ Hq1p) in Hq1.
        apply (Hfresh q1 dat1). congruence.
      * rewrite (Hother _ Hq1p) in Hq1. rewrite (Hother _ Hq2p) in Hq2.
        exact (H2 _ _ _ _ _ Hq1 Hq2 Ht).
    + intros q dat i Hq. destruct (path_eq_dec q p) as [->|Hqp].
      * assert (dat = Node.data d) by congruence. now subst.
      * rewrite (Hother _ Hqp) in Hq. exact (H3 _ _ _ Hq).
Qed.

Lemma key_pass_ids_ok a : forall root index,
  ids_ok root index ->
  ids_ok (fst (key_pass a root index)) (snd (key_pass a root index)).
Proof.
  unfold key_pass. induction a as [|q r IH]; intros root index H; simpl; auto.
  rewrite (surjective_pairing (key_step (root, index) q)). apply IH.
  unfold key_step; simpl. destruct (get q root) as [d|] eqn:Hd; simpl; auto.
  now apply key_step_ids_ok.
Qed.

Lemma keeps_record_and_id_trans x1 x2 x3 :
  keeps_record_and_id x1 x2 -> keeps_record_and_id x2 x3 -> keeps_record_and_id x1 x3.
Proof. unfold keeps_record_and_id. congruence. Qed.

Lemma keeps_record_and_id_default_start d :
  keeps_record_and_id (own d) (own (TreeLogic.default_start d)).
Proof.
  unfold keeps_record_and_id, TreeLogic.default_start.
  destruct (Node.x0 d); simpl; destruct (Node.y0 d); reflexivity.
Qed.

Lemma tree_updateTree_ids_ok position clientWidth source v :
  ids_ok (rootNodeD3 v) (nodeIndex v) ->
  ids_ok (rootNodeD3 (TreeLogic.updateTree position clientWidth source v))
         (nodeIndex (TreeLogic.updateTree position clientWidth source v)).
Proof.
  intros H. unfold TreeLogic.updateTree. cbn [rootNodeD3 nodeIndex].
  eapply ids_ok_related.
  - apply related_forEach.
    + intros o. reflexivity.
    + exact keeps_record_and_id_trans.
    + intros q. apply keeps_lists_kids, keeps_lists_stash.
    + intros q d. reflexivity.
  - apply key_pass_ids_ok. eapply ids_ok_related; [|exact H].
    apply tree_laid_out_related.
    + intros o. reflexivity.
    + exact keeps_record_and_id_trans.
    + exact keeps_record_and_id_default_start.
    + intros a b d. reflexivity.
Qed.

Lemma tree_run_ids_ok position clientWidth steps : forall v,
  ids_ok (rootNodeD3 v) (nodeIndex v) ->
  ids_ok (rootNodeD3 (TreeLogic.run position clientWidth steps v))
         (nodeIndex (TreeLogic.run position clientWidth steps v)).
Proof.
  unfold TreeLogic.run. induction steps as [|s r IH]; intros v H; simpl; auto.
  apply IH. destruct s as [d | source | t]; cbn [TreeLogic.run_step].
  - unfold TreeLogic.toggle_at. cbn [rootNodeD3 nodeIndex].
    eapply ids_ok_related; [|exact H]. apply related_modify.
    + intros o. reflexivity.
    + exact kids_toggleChildren.
    + intros n. unfold keeps_record_and_id, record_and_id. simpl.
      now destruct (toggleChildren_own_fields n) as (-> & -> & _).
  - now apply tree_updateTree_ids_ok.
  - exact H.
Qed.

Lemma ids_ok_from_counter root index :
  ids_ok root index -> ids_from_counter root index.
Proof.
  intros (H1 & H2 & _).
  assert (Hat : forall p o, own_at p root = Some o ->
            record_and_id_at p root = Some (Node.data o, Node.id o)).
  { intros p o Ho. apply own_at_some in Ho as (d & Hd & ->).
    unfold record_and_id_at. now rewrite Hd. }
  split.
  - intros p o Ho. exact (H1 _ _ _ (Hat _ _ Ho)).
  - intros p q o o' Ho Ho' Ht E.
    pose proof (Hat _ _ Ho) as Hp. pose proof (Hat _ _ Ho') as Hq.
    rewrite <- E in Hq. exact (H2 _ _ _ _ _ Hp Hq Ht).
Qed.

(** X11.  When no record of the document has an [id] of its own, then
    after the load and whatever is toggled, redrawn or zoomed, every
    identifier in the tree is "node-k" for some k between 1 and the
    counter, and no two nodes have the same identifier. *)
Theorem identifiers_are_distinct :
  forall (position : Node.t -> path -> Q * Q) (clientWidth : Q)
         (familyData : Person.t) (steps : list step) (v : view),
    (forall p record, record_at p familyData = Some record ->
                      truthy (Person.id record) = false) ->
    treeContainer (TreeLogic.load position clientWidth (Parsed (Some familyData)))
    = Drawing v ->
    ids_from_counter (rootNodeD3 (TreeLogic.run position clientWidth steps v))
                     (nodeIndex (TreeLogic.run position clientWidth steps v)).
Proof.
  intros position clientWidth r steps v Hnoid Hload.
  apply ids_ok_from_counter, tree_run_ids_ok.
  assert (Hroot0 : exists root0,
            v = TreeLogic.updateTree position clientWidth []
                  (TreeLogic.empty_view clientWidth root0)
            /\ forall p, record_and_id_at p root0
                         = option_map (fun rec => (rec, JUndefined)) (record_at p r)).
  { revert Hload. unfold TreeLogic.load.
    destruct (bad_shape (Some r)); [discriminate|].
    cbn [treeContainer]. intros [= <-]. eexists. split; [reflexivity|].
    intros p. unfold record_and_id_at.
    now rewrite record_and_id_initialCollapse, record_and_id_set_start,
      record_and_id_hierarchy. }
  destruct Hroot0 as (root0 & -> & Hroot0).
  apply tree_updateTree_ids_ok. cbn [TreeLogic.empty_view rootNodeD3 nodeIndex].
  split; [|split].
  - intros q dat i Hq. rewrite Hroot0 in Hq.
    destruct (record_at q r); simpl in Hq; [|discriminate].
    injection Hq as _ <-. now left.
  - intros q1 q2 dat1 dat2 i Hq1 _ Ht. rewrite Hroot0 in Hq1.
    destruct (record_at q1 r); simpl in Hq1; [|discriminate].
    injection Hq1 as _ <-. discriminate.
  - intros q dat i Hq. rewrite Hroot0 in Hq.
    destruct (record_at q r) as [rec|] eqn:Hrec; simpl in Hq; [|discriminate].
    injection Hq as <- _. now apply (Hnoid q).
Qed.

Lemma four_generations_no_id p record :
  record_at p four_generations = Some record -> truthy (Person.id record) = false.
Proof.
  intros H.
  do 3 (destruct p as [|i p]; [now injection H as <-|];
        destruct i as [|i]; [|destruct i; discriminate]; simpl in H).
  destruct p as [|i p]; [now injection H as <-|].
  destruct i; discriminate.
Qed.

(** The four-generation document, its grandparent expanded and collapsed
    again. *)
Lemma identifiers_are_distinct_witness :
  exists v,
    treeContainer (TreeLogic.load sample_position 1000 (Parsed (Some four_generations)))
    = Drawing v
    /\ ids_from_counter
         (rootNodeD3 (TreeLogic.run sample_position 1000 expand_and_collapse v))
         (nodeIndex (TreeLogic.run sample_position 1000 expand_and_collapse v)).
Proof.
  assert (E : exists v,
             treeContainer (TreeLogic.load sample_position 1000
                              (Parsed (Some four_generations))) = Drawing v).
  { vm_compute. eexists. reflexivity. }
  destruct E as (v & Hv). exists v. split; [exact Hv|].
  apply (identifiers_are_distinct sample_position 1000 four_generations
           expand_and_collapse v four_generations_no_id Hv).
Defined.

(* ================================================================== *)
(** ** Class names that are already safe *)
(* ================================================================== *)

Lemma css_safe_fixed c :
  css_safe c = true -> lower_char (if in_class c then c else "_"%char) = c.
Proof.
  revert c.
  enough (H : forall c,
             implb (css_safe c)
                   (Ascii.eqb (lower_char (if in_class c then c else "_"%char)) c)
             = true).
  { intros c Hc. specialize (H c). rewrite Hc in H. now apply Ascii.eqb_eq. }
  apply ascii_forall. vm_compute. reflexivity.
Qed.

Lemma all_css_safe_fixed s :
  all_chars css_safe s = true -> toLowerCase (replace_outside_class s) = s.
Proof.
  unfold toLowerCase, replace_outside_class.
  induction s as [|c r IH]; simpl; [reflexivity|].
  intros H. apply andb_prop in H as [Hc Hr].
  now rewrite (css_safe_fixed c Hc), (IH Hr).
Qed.

(** X12.  [sanitizeForCss] is idempotent: what it returns is returned
    unchanged when it is sanitized again, so a name that is already a
    lower-case class name keeps its spelling. *)
Theorem sanitizeForCss_idempotent :
  forall v : jsval,
    sanitizeForCss (JStr (sanitizeForCss v)) = sanitizeForCss v
    /\ forall s, s <> "" -> all_chars css_safe s = true ->
                 sanitizeForCss (JStr s) = s.
Proof.
  assert (H : forall s, s <> "" -> all_chars css_safe s = true ->
                        sanitizeForCss (JStr s) = s).
  { intros s Hne Hs. unfold sanitizeForCss.
    destruct s as [|c r]; [contradiction|]. simpl.
    now apply (all_css_safe_fixed (String c r)). }
  intros v. split; [|exact H].
  destruct (sanitizeForCss_safe v) as [Hne Hs]. now apply H.
Qed.

(* ================================================================== *)
(** ** The transform of the group over a session *)
(* ================================================================== *)

(** X13.  In tree_logic.js the transform of the group after any sequence
    of toggles, redraws and zoom gestures is the transform of the last
    zoom gesture, and the transform it had at first when there was
    none. *)
Theorem transform_is_last_zoom :
  forall (position : Node.t -> path -> Q * Q) (clientWidth : Q)
         (steps : list step) (v : view),
    gTransform (TreeLogic.run position clientWidth steps v)
    = last_zoom steps (gTransform v).
Proof.
  intros position clientWidth steps. unfold TreeLogic.run, last_zoom.
  induction steps as [|s r IH]; intros v; [reflexivity|].
  cbn [fold_left]. rewrite IH. f_equal. destruct s; reflexivity.
Qed.

(* ================================================================== *)
(** ** The canvas of the sibling script holds the drawing *)
(* ================================================================== *)

Lemma sibling_minimum_width clientWidth :
  800 <= Sibling.calculatedInitialWidth clientWidth.
Proof.
  unfold Sibling.calculatedInitialWidth.
  destruct (Qltb 800 clientWidth) eqn:E.
  - apply Qltb_lt in E. now apply Qlt_le_weak.
  - apply Qle_refl.
Qed.

(** X14.  In the sibling script a redraw sizes the svg and moves the
    group so that every node it draws lies on the canvas, inside the
    margins: at least the left margin from the left edge and the right
    margin plus the 250 of the text buffer from the right edge, at least
    the top margin from the top and the bottom margin plus 60 from the
    bottom.  The canvas is never smaller than 800 by 700. *)
Theorem sibling_canvas_holds_every_node :
  forall (position : Node.t -> path -> Q * Q) (clientWidth : Q)
         (source : path) (v : view),
  exists tx ty w h,
    gTransform (Sibling.updateTree position clientWidth source v)
    = translate (Fin tx) (Fin ty)
    /\ svgWidth (Sibling.updateTree position clientWidth source v) = Fin w
    /\ svgHeight (Sibling.updateTree position clientWidth source v) = Fin h
    /\ 800 <= w /\ 700 <= h
    /\ forall p, In p (descendants (Sibling.laid_out position source v)) ->
         exists d vx vy,
           get p (Sibling.laid_out position source v) = Some d
           /\ Node.x d = Some vx /\ Node.y d = Some vy
           /\ Margin.left Sibling.margin <= vy + tx
           /\ vy + tx <= w - Margin.right Sibling.margin - 250
           /\ Margin.top Sibling.margin <= vx + ty
           /\ vx + ty <= h - Margin.bottom Sibling.margin - 60.
Proof.
  intros position clientWidth source v.
  set (root := Sibling.laid_out position source v).
  set (nodes := deref root (descendants root)).
  assert (Hplaced : forall p, In p (descendants root) ->
            exists d vx vy, get p root = Some d /\ In d nodes
                            /\ Node.x d = Some vx /\ Node.y d = Some vy).
  { intros p Hp. unfold root, Sibling.laid_out in *.
    rewrite treeLayout_descendants in Hp.
    destruct (treeLayout_places position _ p Hp) as (d & Hd & Hx & Hy).
    exists d. do 2 eexists. split; [exact Hd|]. split; [|eauto].
    eapply in_deref; [|exact Hd]. now rewrite treeLayout_descendants. }
  destruct (Hplaced [] (root_in_descendants root))
    as (d0 & vx0 & vy0 & Hd0 & Hin0 & Hx0 & Hy0).
  destruct (bounds_of_contains nodes d0 Hin0) as [HX HY].
  destruct (HX _ Hx0) as (loX & hiX & EloX & EhiX & _).
  destruct (HY _ Hy0) as (loY & hiY & EloY & EhiY & _).
  destruct (num_max_floor (Sibling.calculatedInitialWidth clientWidth)
              (Sibling.requiredSvgWidth (bounds_of nodes)))
    as (w & Ew & Hw & Hreqw).
  { right. unfold Sibling.requiredSvgWidth. rewrite EloY, EhiY. simpl. eauto. }
  destruct (num_max_floor Sibling.initialHeight
              (Sibling.requiredSvgHeight (bounds_of nodes)))
    as (h & Eh & Hh & Hreqh).
  { right. unfold Sibling.requiredSvgHeight. rewrite EloX, EhiX. simpl. eauto. }
  exists (Margin.left Sibling.margin + - loY), (Margin.top Sibling.margin + - loX), w, h.
  split; [|split; [|split; [|split; [|split]]]].
  - unfold Sibling.updateTree. cbn [gTransform].
    fold root. fold nodes. now rewrite EloX, EloY.
  - unfold Sibling.updateTree. cbn [svgWidth]. fold root. fold nodes. exact Ew.
  - unfold Sibling.updateTree. cbn [svgHeight]. fold root. fold nodes. exact Eh.
  - apply (Qle_trans _ (Sibling.calculatedInitialWidth clientWidth));
      [apply sibling_minimum_width | exact Hw].
  - exact Hh.
  - intros p Hp. destruct (Hplaced p Hp) as (d & vx & vy & Hd & Hin & Hx & Hy).
    exists d, vx, vy. split; [exact Hd|]. split; [exact Hx|]. split; [exact Hy|].
    destruct (bounds_of_contains nodes d Hin) as [HdX HdY].
    destruct (HdX _ Hx) as (loX' & hiX' & EloX' & EhiX' & HloX & HhiX).
    destruct (HdY _ Hy) as (loY' & hiY' & EloY' & EhiY' & HloY & HhiY).
    assert (loX' = loX) by congruence. assert (hiX' = hiX) by congruence.
    assert (loY' = loY) by congruence. assert (hiY' = hiY) by congruence.
    subst loX' hiX' loY' hiY'.
    assert (Hrw : hiY + - loY + Margin.left Sibling.margin
                  + Margin.right Sibling.margin + 250 <= w).
    { apply Hreqw. unfold Sibling.requiredSvgWidth. rewrite EloY, EhiY. reflexivity. }
    assert (Hrh : hiX + - loX + Margin.top Sibling.margin
                  + Margin.bottom Sibling.margin + 60 <= h).
    { apply Hreqh. unfold Sibling.requiredSvgHeight. rewrite EloX, EhiX. reflexivity. }
    repeat split; lra.
Qed.

(* ================================================================== *)
(** ** The links of a redraw *)
(* ================================================================== *)







(* ================================================================== *)
(** ** When the counter moves *)
(* ================================================================== *)

Lemma modify_same f : forall p root d,
  get p root = Some d -> f d = d -> modify f p root = root.
Proof.
  induction p as [|i p IH]; intros root d Hd Hf; simpl in *.
  - injection Hd as ->. exact Hf.
  - destruct (nth_error (kids root) i) as [c|] eqn:Hc; [|reflexivity].
    rewrite (IH c d Hd Hf).
    assert (Hsame : forall l, nth_error l i = Some c -> replace_nth i c l = l).
    { clear. intros l. revert i. induction l as [|a l IH]; intros [|i]; simpl;
        try discriminate; intros H.
      - now injection H as ->.
      - now rewrite IH. }
    rewrite (Hsame _ Hc). unfold set_kids, kids.
    destruct root as [dat j cs hs px py px0 py0]; simpl.
    destruct cs; simpl; auto; destruct hs; reflexivity.
Qed.

(** The key function leaves a tree whose nodes are all keyed as it is. *)
Lemma key_pass_keyed a : forall root i,
  (forall p d, In p a -> get p root = Some d -> truthy (Node.id d) = true) ->
  key_pass a root i = (root, i).
Proof.
  unfold key_pass. induction a as [|q r IH]; intros root i H; [reflexivity|].
  cbn [fold_left].
  assert (E : key_step (root, i) q = (root, i)).
  { unfold key_step. cbn [fst snd].
    destruct (get q root) as [d|] eqn:Hd; [|reflexivity].
    assert (Hid : truthy (Node.id d) = true) by (apply (H q); [now left | exact Hd]).
    assert (Hk : node_key d i = (d, i)) by (unfold node_key; now rewrite Hid).
    rewrite Hk. cbn [snd]. f_equal.
    apply (modify_same _ q root d Hd). now rewrite Hk. }
  rewrite E. apply IH. intros p d Hp. apply H. now right.
Qed.

Lemma tree_updateTree_no_new_id position clientWidth source v :
  (forall p, In p (descendants (rootNodeD3 v)) ->
     exists o, own_at p (rootNodeD3 v) = Some o /\ truthy (Node.id o) = true) ->
  nodeIndex (TreeLogic.updateTree position clientWidth source v) = nodeIndex v.
Proof.
  intros H. unfold TreeLogic.updateTree. cbn [nodeIndex].
  rewrite key_pass_keyed; [reflexivity|].
  intros p d Hp Hd. rewrite tree_laid_out_descendants in Hp.
  destruct (H p Hp) as (o & Ho & Hid).
  pose proof (tree_laid_out_keeps_id position source v p) as Hrel.
  rewrite Ho in Hrel. destruct Hrel as (o' & Ho' & Hkeep).
  unfold own_at in Ho'. rewrite Hd in Ho'. injection Ho' as <-.
  change (Node.id d) with (Node.id (own d)). now rewrite (Hkeep Hid).
Qed.

(** X16.  A redraw that follows a redraw allocates no synthetic
    identifier: the counter stays where it is.  So does the redraw of a
    click that collapses a node. *)
Theorem redraw_and_collapse_allocate_no_identifier :
  forall (position : Node.t -> path -> Q * Q) (clientWidth : Q)
         (first : path) (v0 : view),
    let v := TreeLogic.updateTree position clientWidth first v0 in
    (forall source,
        nodeIndex (TreeLogic.updateTree position clientWidth source v) = nodeIndex v)
    /\ (forall d n,
          get d (rootNodeD3 v) = Some n ->
          is_arr (Node.children n) = true ->
          nodeIndex (TreeLogic.updateTree position clientWidth d
                       (TreeLogic.toggle_at d v))
          = nodeIndex v).
Proof.
  intros position clientWidth first v0 v.
  assert (Hkeyed : forall p, In p (descendants (rootNodeD3 v)) ->
            exists o, own_at p (rootNodeD3 v) = Some o /\ truthy (Node.id o) = true).
  { intros p Hp. now apply tree_updateTree_assigns. }
  split.
  - intros source. now apply tree_updateTree_no_new_id.
  - intros d n Hn Hshown.
    change (nodeIndex v) with (nodeIndex (TreeLogic.toggle_at d v)).
    apply tree_updateTree_no_new_id. intros p Hp.
    assert (Hvis : In p (descendants (rootNodeD3 v))).
    { apply in_descendants_visible. apply in_descendants_visible in Hp.
      unfold TreeLogic.toggle_at in Hp. cbn [rootNodeD3] in Hp.
      rewrite visible_modify, Hn in Hp.
      destruct (strip_prefix d p) as [r|] eqn:Hr; [|exact Hp].
      apply strip_prefix_some in Hr. subst p.
      apply andb_prop in Hp as [Hd Hp].
      destruct r as [|i r].
      - now rewrite app_nil_r.
      - rewrite visible_toggled, Hshown in Hp. discriminate. }
    destruct (Hkeyed p Hvis) as (o & Ho & Hid).
    pose proof (toggle_at_keeps_id d v p) as Hrel.
    rewrite Ho in Hrel. destruct Hrel as (o' & Ho' & Hkeep).
    exists o'. split; [exact Ho'|]. now rewrite (Hkeep Hid).
Qed.

(* ================================================================== *)
(** ** The dominant origin does not depend on the order of the entries *)
(* ================================================================== *)

(** The entry that the loop ends on, when some entry with a name has a
    positive weight. *)
Lemma dominant_is_best (localeCompare : string -> string -> Z) m fallbackCountry :
  (forall a b c, (localeCompare a b <= 0)%Z -> (localeCompare b c <= 0)%Z ->
                 (localeCompare a c <= 0)%Z) ->
  (forall a b, (0 <= localeCompare a b)%Z -> (localeCompare b a <= 0)%Z) ->
  (exists c w, In (c, w) m /\ named c = true /\ 0 < w) ->
  exists c w,
    getDominantOrigin localeCompare (Some m) fallbackCountry = JStr c
    /\ In (c, w) m /\ named c = true
    /\ forall c' w', In (c', w') m -> named c' = true ->
         w' <= w /\ (w' == w -> (localeCompare c c' <= 0)%Z).
Proof.
  intros Htrans Hanti (c0 & w0 & Hin0 & Hc0 & Hw0).
  pose proof (scan_fold_inv localeCompare Htrans Hanti m [] scan_init
                (scan_inv_nil localeCompare)) as Hinv.
  simpl in Hinv.
  destruct Hinv as [[Hlow _] | [(Hk & Hn & (w & Hin & Hw) & Hall) _]].
  { exfalso. eapply Qlt_not_le; [exact Hw0|]. now apply (Hlow c0 w0). }
  exists (dominantCountry (fold_left (scan_step localeCompare) m scan_init)), w.
  split; [|split; [assumption|split; [assumption|]]].
  - destruct m as [|e r]; [destruct Hin0|].
    unfold getDominantOrigin. cbv zeta. rewrite Hk.
    rewrite (named_not_unknown _ Hn). reflexivity.
  - intros c' w' Hin' Hc'. destruct (Hall _ _ Hin' Hc') as [Hle Htie].
    split.
    + now rewrite Hw.
    + intros Heq. apply Htie. now rewrite Heq.
Qed.

Lemma codeUnitCompare_strict a b :
  (codeUnitCompare a b <= 0)%Z -> (codeUnitCompare b a <= 0)%Z -> a = b.
Proof.
  unfold codeUnitCompare. rewrite (String.compare_antisym a b).
  destruct (String.compare b a) eqn:E; simpl; try lia.
  intros _ _. symmetry. now apply String.compare_eq_iff.
Qed.

(** X17.  When [localeCompare] tells any two different names apart and
    some entry with a name has a positive weight, the dominant origin is
    the same whatever the order in which the entries of the mapping are
    enumerated. *)
Theorem getDominantOrigin_order_independent :
  forall (localeCompare : string -> string -> Z)
         (m m' : mapping) (fallbackCountry : jsval),
    (forall a b c, (localeCompare a b <= 0)%Z -> (localeCompare b c <= 0)%Z ->
                   (localeCompare a c <= 0)%Z) ->
    (forall a b, (0 <= localeCompare a b)%Z -> (localeCompare b a <= 0)%Z) ->
    (forall a b, (localeCompare a b <= 0)%Z -> (localeCompare b a <= 0)%Z -> a = b) ->
    Permutation m m' ->
    (exists c w, In (c, w) m /\ named c = true /\ 0 < w) ->
    getDominantOrigin localeCompare (Some m) fallbackCountry
    = getDominantOrigin localeCompare (Some m') fallbackCountry.
Proof.
  intros cmp m m' fb Htrans Hanti Hstrict Hperm Hpos.
  assert (Hpos' : exists c w, In (c, w) m' /\ named c = true /\ 0 < w).
  { destruct Hpos as (c & w & Hin & Hc & Hw). exists c, w.
    split; [now apply (Permutation_in _ Hperm) | now split]. }
  destruct (dominant_is_best cmp m fb Htrans Hanti Hpos)
    as (c & w & E & Hin & Hc & Hbest).
  destruct (dominant_is_best cmp m' fb Htrans Hanti Hpos')
    as (c' & w' & E' & Hin' & Hc' & Hbest').
  transitivity (JStr c); [exact E|]. transitivity (JStr c'); [|now symmetry].
  destruct (Hbest c' w' (Permutation_in _ (Permutation_sym Hperm) Hin') Hc')
    as [Hle Htie].
  destruct (Hbest' c w (Permutation_in _ Hperm Hin) Hc) as [Hle' Htie'].
  assert (Heq : w' == w) by (apply Qle_antisym; assumption).
  f_equal. apply Hstrict; [apply Htie; exact Heq | apply Htie'; now symmetry].
Qed.

(** Two origins of equal weight, in either order. *)
Lemma getDominantOrigin_order_independent_witness :
  getDominantOrigin codeUnitCompare
    (Some [("Ireland", 1 # 2); ("England", 1 # 2)]) JUndefined
  = getDominantOrigin codeUnitCompare
      (Some [("England", 1 # 2); ("Ireland", 1 # 2)]) JUndefined.
Proof.
  apply (getDominantOrigin_order_independent codeUnitCompare
           [("Ireland", 1 # 2); ("England", 1 # 2)]
           [("England", 1 # 2); ("Ireland", 1 # 2)] JUndefined
           codeUnitCompare_trans codeUnitCompare_antisym codeUnitCompare_strict).
  - apply perm_swap.
  - exists "Ireland", (1 # 2).
    split; [left; reflexivity | split; reflexivity].
Defined.

(* ================================================================== *)
(** ** Expanding what the load collapsed *)
(* ================================================================== *)

Lemma shown_initialCollapse r :
  slot_list (Node.children (initialCollapse (hierarchy r)))
  = map (fun c => collapse_below (hierarchy c)) (record_children r).
Proof.
  unfold initialCollapse. rewrite children_hierarchy.
  destruct (record_children r) as [|c l] eqn:E.
  - now rewrite children_hierarchy, E.
  - cbn [Node.children Node.set_children slot_list]. now rewrite map_map.
Qed.

Lemma shown_collapse_below c :
  slot_list (Node.children (collapse_below (hierarchy c)))
  = map (fun g => collapseRecursively (hierarchy g)) (record_children c).
Proof.
  unfold collapse_below. rewrite children_hierarchy.
  destruct (record_children c) as [|g l] eqn:E.
  - now rewrite children_hierarchy, E.
  - cbn [Node.children Node.set_children slot_list]. now rewrite map_map.
Qed.

Lemma shape_set_start a b d :
  shape (Node.set_y0 b (Node.set_x0 a d)) = shape d.
Proof. destruct d; reflexivity. Qed.

(** The collapse state of the drawing that the load makes. *)
Lemma load_shape position clientWidth r v :
  treeContainer (TreeLogic.load position clientWidth (Parsed (Some r))) = Drawing v ->
  shape (rootNodeD3 v) = shape (initialCollapse (hierarchy r)).
Proof.
  unfold TreeLogic.load. destruct (bad_shape (Some r)); [discriminate|].
  cbn [treeContainer]. intros [= <-].
  rewrite shape_tree_updateTree. cbn [TreeLogic.empty_view rootNodeD3].
  now rewrite initialCollapse_set_start, shape_set_start.
Qed.

(** What the outermost generation drawn by the load shows once toggled:
    its children and nothing below them. *)
Lemma visible_expanded g r :
  visible r (toggleChildren (collapseRecursively (hierarchy g))) = true
  <-> r = [] \/ exists k, r = [k] /\ (k < List.length (record_children g))%nat.
Proof.
  destruct r as [|k r].
  - split; [now left | reflexivity].
  - rewrite visible_toggled, children_collapseRecursively.
    assert (E : slot_list (Node._children (collapseRecursively (hierarchy g)))
                = map (fun c => collapseRecursively (hierarchy c)) (record_children g)).
    { pose proof (kids_collapseRecursively (hierarchy g)) as K.
      unfold kids at 1 in K. rewrite children_collapseRecursively in K.
      now rewrite K, kids_hierarchy, map_map. }
    rewrite E, nth_error_map. split.
    + destruct (nth_error (record_children g) k) as [c|] eqn:Hk;
        cbn [option_map]; [|discriminate].
      intros Hr. right. exists k.
      assert (r = []).
      { destruct r as [|i r]; [reflexivity|].
        rewrite visible_hidden_below in Hr; [discriminate|].
        apply children_collapseRecursively. }
      subst r. split; [reflexivity|].
      apply nth_error_Some. now rewrite Hk.
    + intros [Hr | (k' & [= -> ->] & Hk)]; [discriminate|].
      destruct (nth_error (record_children g) k') as [c|] eqn:Hc; [reflexivity|].
      apply nth_error_None in Hc. lia.
Qed.

(** X18.  After the load, a click on a drawn grandchild of the root (the
    outermost generation that the load leaves on the page) shows the
    next generation and nothing beyond it: below the node clicked,
    exactly its children are drawn, one for each child record. *)
Theorem expanding_shows_one_generation :
  forall (position : Node.t -> path -> Q * Q) (clientWidth : Q)
         (familyData : Person.t) (v : view) (i j : nat) (g : Person.t),
    treeContainer (TreeLogic.load position clientWidth (Parsed (Some familyData)))
    = Drawing v ->
    record_at [i; j] familyData = Some g ->
    exists v',
      treeContainer
        (TreeLogic.click position clientWidth [i; j]
           (TreeLogic.load position clientWidth (Parsed (Some familyData))))
      = Drawing v'
      /\ In [i; j] (descendants (rootNodeD3 v))
      /\ forall r,
           In ([i; j] ++ r) (descendants (rootNodeD3 v'))
           <-> r = [] \/ exists k, r = [k]
                                   /\ (k < List.length (record_children g))%nat.
Proof.
  intros position clientWidth r v i j g Hload Hg.
  pose proof (load_shape position clientWidth r v Hload) as Hshape.
  (* the records on the way to the node clicked *)
  cbn [record_at] in Hg.
  destruct (nth_error (record_children r) i) as [c|] eqn:Hc; [|discriminate].
  destruct (nth_error (record_children c) j) as [g'|] eqn:Hj; [|discriminate].
  injection Hg as ->.
  (* the node clicked, in the tree that the load collapsed *)
  assert (Hget0 : get [i; j] (initialCollapse (hierarchy r))
                  = Some (collapseRecursively (hierarchy g))).
  { cbn [get]. rewrite kids_initialCollapse, nth_error_map, Hc. cbn [option_map].
    now rewrite kids_collapse_below, nth_error_map, Hj. }
  assert (Hvis0 : visible [i; j] (rootNodeD3 v) = true).
  { rewrite <- visible_shape, Hshape, visible_shape. cbn [visible].
    rewrite shown_initialCollapse, nth_error_map, Hc. cbn [option_map].
    now rewrite shown_collapse_below, nth_error_map, Hj. }
  destruct (visible_get _ _ Hvis0) as [n Hn].
  assert (Hn_shape : shape n = shape (collapseRecursively (hierarchy g))).
  { pose proof (get_shape [i; j] (rootNodeD3 v)) as E.
    rewrite Hshape, get_shape, Hget0, Hn in E. cbn [option_map] in E.
    now injection E as <-. }
  rewrite (tree_click_drawing position clientWidth [i; j] _ v n Hload Hn).
  cbn [treeContainer]. eexists. split; [reflexivity|].
  split; [now apply in_descendants_visible|].
  intros q. rewrite in_descendants_visible, visible_tree_updateTree.
  unfold TreeLogic.toggle_at. cbn [rootNodeD3].
  rewrite visible_modify, strip_prefix_app, Hn, Hvis0. cbn [andb].
  rewrite <- visible_shape, shape_toggleChildren, Hn_shape,
    <- shape_toggleChildren, visible_shape.
  apply visible_expanded.
Qed.

(** The grandparent of the four-generation document is expanded. *)
Lemma expanding_shows_one_generation_witness :
  exists v v',
    treeContainer (TreeLogic.load sample_position 1000 (Parsed (Some four_generations)))
    = Drawing v
    /\ treeContainer
         (TreeLogic.click sample_position 1000 [0; 0]%nat
            (TreeLogic.load sample_position 1000 (Parsed (Some four_generations))))
       = Drawing v'
    /\ In [0; 0; 0]%nat (descendants (rootNodeD3 v')).
Proof.
  assert (E : exists v,
             treeContainer (TreeLogic.load sample_position 1000
                              (Parsed (Some four_generations))) = Drawing v).
  { vm_compute. eexists. reflexivity. }
  destruct E as (v & Hv). exists v.
  destruct (expanding_shows_one_generation sample_position 1000 four_generations
              v 0%nat 0%nat
              (Person.parent "grandparent" [Person.named "great-grandparent"])
              Hv eq_refl) as (v' & Hv' & _ & Hshown).
  exists v'. split; [exact Hv|]. split; [exact Hv'|].
  apply (Hshown [0%nat]). right. exists 0%nat. split; [reflexivity|].
  simpl. lia.
Defined.

(* ================================================================== *)
(** ** Entries of equal weight keep the order of the document *)
(* ================================================================== *)

Lemma filter_insert_desc w e : forall l,
  filter (fun x => Qeq_bool (snd x) w) (insert_desc e l)
  = if Qeq_bool (snd e) w
    then e :: filter (fun x => Qeq_bool (snd x) w) l
    else filter (fun x => Qeq_bool (snd x) w) l.
Proof.
  induction l as [|h t IH]; simpl.
  - destruct (Qeq_bool (snd e) w); reflexivity.
  - destruct (Qle_bool (snd h) (snd e)) eqn:Hle; simpl.
    + destruct (Qeq_bool (snd e) w); reflexivity.
    + rewrite IH.
      destruct (Qeq_bool (snd h) w) eqn:Hh; destruct (Qeq_bool (snd e) w) eqn:He;
        try reflexivity.
      exfalso. apply Qeq_bool_iff in Hh, He.
      assert (Hc : Qle_bool (snd h) (snd e) = true).
      { apply Qle_bool_iff. rewrite Hh, He. apply Qle_refl. }
      congruence.
Qed.

Lemma filter_sort_desc w : forall l,
  filter (fun x => Qeq_bool (snd x) w) (sort_desc l)
  = filter (fun x => Qeq_bool (snd x) w) l.
Proof.
  induction l as [|e r IH]; simpl; [reflexivity|].
  rewrite filter_insert_desc, IH. reflexivity.
Qed.

Lemma filter_comm {A} (P Q : A -> bool) : forall l,
  filter P (filter Q l) = filter Q (filter P l).
Proof.
  induction l as [|a l IH]; simpl; [reflexivity|].
  destruct (P a) eqn:HP; destruct (Q a) eqn:HQ; simpl;
    rewrite ?HP, ?HQ, IH; reflexivity.
Qed.

(** X19.  The sort of the breakdown is stable: the listed entries that
    have one and the same weight come in the order in which the document
    enumerates them. *)
Theorem breakdown_ties_keep_document_order :
  forall (breakdown : mapping) (w : Q),
    filter (fun e => Qeq_bool (snd e) w) (breakdown_items breakdown)
    = filter (fun e => Qeq_bool (snd e) w)
             (filter (fun e => Qltb (1 # 1000) (snd e)) breakdown).
Proof.
  intros breakdown w. unfold breakdown_items.
  rewrite filter_comm, filter_sort_desc. apply filter_comm.
Qed.
